(** * miniz-compressor: block engine, archive format and directory walker

    A shallow embedding of [utilitypar.hpp] and [minizparallel.cpp].

    - [size_t] values are integers in [Z] with the wrap-around of 64-bit
      unsigned arithmetic written out (module [SizeT]).
    - Buffers are [list byte]; every read and write through a pointer is
      bounds-checked, and an access outside the buffer is a [Fault].
    - The archive is the byte string the program writes: 8-byte
      little-endian words in the layout of an LP64 little-endian host.
    - The process state ([world]) is the file tree, the working directory
      and a log of the files handed to [doParallelWork].
    - An OpenMP [taskloop] or [parallel for] over [n] iterations runs its
      iterations in the order a [scheduler] picks; the theorems hold for
      every scheduler that enumerates each iteration once. *)

From Stdlib Require Import ZArith List Bool Lia Permutation.
From Stdlib Require Import Strings.String Strings.Ascii Strings.Byte.
Import ListNotations.

Local Open Scope Z_scope.

(** ** Outcomes

    A call either returns ([Done]) or leaves the defined behaviour of the
    program ([Fault]): a division by zero, an access outside a buffer, an
    exception nobody catches. *)

Inductive fault : Type :=
| DivByZero
| OutOfBounds
| OutOfRange
| OutOfFuel.

Inductive outcome (A : Type) : Type :=
| Done (a : A)
| Fault (why : fault).

Arguments Done {A} a.
Arguments Fault {A} why.

Definition bind {A B : Type} (m : outcome A) (k : A -> outcome B) : outcome B :=
  match m with
  | Done a => k a
  | Fault e => Fault e
  end.

Declare Scope outcome_scope.
Delimit Scope outcome_scope with outcome.
Notation "x <- m ;; k" := (bind m (fun x => k))
  (at level 61, m at next level, right associativity) : outcome_scope.
Notation "' p <- m ;; k" := (bind m (fun x => match x with p => k end))
  (at level 61, p pattern, m at next level, right associativity) : outcome_scope.
Local Open Scope outcome_scope.

(** ** [size_t] *)

Module SizeT.
Definition modulus : Z := 2 ^ 64.
Definition wrap (z : Z) : Z := z mod modulus.
Definition add (a b : Z) : Z := wrap (a + b).
Definition sub (a b : Z) : Z := wrap (a - b).
Definition mul (a b : Z) : Z := wrap (a * b).
Definition div (a b : Z) : outcome Z :=
  if b =? 0 then Fault DivByZero else Done (a / b).
Definition in_range (z : Z) : Prop := 0 <= z < modulus.
End SizeT.

(** ** Bytes and native words *)

Definition byte_of_Z (z : Z) : byte :=
  match Byte.of_N (Z.to_N (z mod 256)) with
  | Some b => b
  | None => x00
  end.

Definition Z_of_byte (b : byte) : Z := Z.of_N (Byte.to_N b).

(** [k] bytes of [z], least significant first. *)
Fixpoint le_bytes (k : nat) (z : Z) : list byte :=
  match k with
  | O => []
  | S k' => byte_of_Z z :: le_bytes k' (z / 256)
  end.

Fixpoint le_value (bs : list byte) : Z :=
  match bs with
  | [] => 0
  | b :: rest => Z_of_byte b + 256 * le_value rest
  end.

(** [sizeof(size_t)] *)
Definition WORD : nat := 8.

Definition put_size_t (z : Z) : list byte := le_bytes WORD z.

(** ** Buffers *)

Definition len {A : Type} (l : list A) : Z := Z.of_nat (List.length l).

Definition zeros (n : Z) : list byte := repeat x00 (Z.to_nat n).

(** Read [n] bytes at [off].  The source reads through raw pointers and
    checks nothing: [Fault OutOfBounds] stands for a read outside the
    buffer, whose behaviour the source leaves undefined. *)
Definition read (buf : list byte) (off n : Z) : outcome (list byte) :=
  if (0 <=? off) && (0 <=? n) && (off + n <=? len buf)
  then Done (firstn (Z.to_nat n) (skipn (Z.to_nat off) buf))
  else Fault OutOfBounds.

(** Store [data] at [off]. *)
Definition write_at (buf : list byte) (off : Z) (data : list byte)
  : outcome (list byte) :=
  if (0 <=? off) && (off + len data <=? len buf)
  then Done (firstn (Z.to_nat off) buf ++ data
             ++ skipn (Z.to_nat off + List.length data) buf)
  else Fault OutOfBounds.

Definition get_size_t (buf : list byte) (off : Z) : outcome Z :=
  bs <- read buf off (Z.of_nat WORD) ;; Done (le_value bs).

(** ** [std::string] *)

Definition size (s : string) : Z := Z.of_nat (String.length s).

(** [s.substr(pos, count)]: throws [std::out_of_range] when [pos > size()],
    otherwise yields [min(count, size() - pos)] characters from [pos]. *)
Definition substr (s : string) (pos count : Z) : outcome string :=
  if size s <? pos then Fault OutOfRange
  else Done (String.substring (Z.to_nat pos)
               (Z.to_nat (Z.min count (size s - pos))) s).

(** The last [length suf] characters of [s] are [suf]. *)
Definition has_suffix (suf s : string) : bool :=
  let n := String.length s in
  let k := String.length suf in
  (k <=? n)%nat && String.eqb (String.substring (n - k) k s) suf.

(** ** Configuration and collaborators

    [config.hpp] holds the globals the engine reads; [omp_get_max_threads()]
    is the parallelism the run was configured with.  [QUITE_MODE] only gates
    diagnostics on [stderr], which the model does not keep. *)

Record config : Type := {
  BIG_FILE_SIZE : Z;
  SUFFIX : string;
  REMOVE_ORIGIN : bool;
  COMP : bool;
  num_threads : Z
}.

(** The miniz entry points.  [compress src cap] is [Some out] when the call
    returns [Z_OK], having stored [out] in the destination and its length
    in [cmp_len]; [uncompress src cap] gives the status and the bytes it
    stored at the start of the destination. *)
Record codec : Type := {
  compressBound : Z -> Z;
  compress : list byte -> Z -> option (list byte);
  uncompress : list byte -> Z -> bool * list byte
}.

(** The order in which the [n] iterations of a parallel loop run. *)
Definition scheduler : Type := nat -> list nat.

Definition fair (sch : scheduler) : Prop :=
  forall n, Permutation (sch n) (seq 0 n).

Fixpoint run_tasks {S : Type} (body : nat -> S -> outcome S)
         (order : list nat) (s : S) : outcome S :=
  match order with
  | [] => Done s
  | i :: rest => s' <- body i s ;; run_tasks body rest s'
  end.

(** [v[i] = f(v[i])]; the loops of the source only index inside the vector. *)
Fixpoint update {A : Type} (i : nat) (f : A -> A) (l : list A) : list A :=
  match l, i with
  | [], _ => []
  | x :: rest, O => f x :: rest
  | x :: rest, S i' => x :: update i' f rest
  end.

(** ** The file tree and the process state *)

(** A directory carries the permissions the walk depends on: listing
    ([opendir]), creating and removing entries, and entering ([chdir]).  A
    [Dangling] entry is a name on which [stat] fails, such as a symbolic
    link to nothing. *)
Record perms : Type := { p_read : bool; p_write : bool; p_search : bool }.

#[warnings="-register-all"]
Inductive node : Type :=
| File (data : list byte)
| Dir (pm : perms) (entries : list (string * node))
| Dangling.

Fixpoint find_entry (name : string) (es : list (string * node)) : option node :=
  match es with
  | [] => None
  | (k, v) :: rest => if String.eqb k name then Some v else find_entry name rest
  end.

Fixpoint put_entry (name : string) (v : node) (es : list (string * node))
  : list (string * node) :=
  match es with
  | [] => [(name, v)]
  | (k, x) :: rest =>
      if String.eqb k name then (k, v) :: rest else (k, x) :: put_entry name v rest
  end.

Fixpoint del_entry (name : string) (es : list (string * node))
  : list (string * node) :=
  match es with
  | [] => []
  | (k, x) :: rest =>
      if String.eqb k name then rest else (k, x) :: del_entry name rest
  end.

Fixpoint lookup (p : list string) (n : node) : option node :=
  match p with
  | [] => Some n
  | s :: p' =>
      match n with
      | Dir _ es =>
          match find_entry s es with
          | Some c => lookup p' c
          | None => None
          end
      | _ => None
      end
  end.

(** Create or truncate the regular file at [p] with contents [data]. *)
Fixpoint store (p : list string) (data : list byte) (n : node) : option node :=
  match n, p with
  | Dir pm es, [name] =>
      match find_entry name es with
      | Some (File _) => Some (Dir pm (put_entry name (File data) es))
      | Some _ => None
      | None => if p_write pm
                then Some (Dir pm (put_entry name (File data) es))
                else None
      end
  | Dir pm es, s :: p' =>
      match find_entry s es with
      | Some c =>
          match store p' data c with
          | Some c' => Some (Dir pm (put_entry s c' es))
          | None => None
          end
      | None => None
      end
  | _, _ => None
  end.

(** Remove the regular file at [p]. *)
Fixpoint remove (p : list string) (n : node) : option node :=
  match n, p with
  | Dir pm es, [name] =>
      match find_entry name es with
      | Some (File _) => if p_write pm then Some (Dir pm (del_entry name es)) else None
      | _ => None
      end
  | Dir pm es, s :: p' =>
      match find_entry s es with
      | Some c =>
          match remove p' c with
          | Some c' => Some (Dir pm (put_entry s c' es))
          | None => None
          end
      | None => None
      end
  | _, _ => None
  end.

(** Path strings: components separated by ["/"], resolved against the
    working directory unless the string starts with ["/"]. *)
Fixpoint split_path (s : string) (cur : string) : list string :=
  match s with
  | EmptyString => [cur]
  | String c s' =>
      if Ascii.eqb c "/" then cur :: split_path s' EmptyString
      else split_path s' (cur ++ String c EmptyString)
  end.

Definition enter (at_ : list string) (c : string) : list string :=
  if String.eqb c "" then at_
  else if String.eqb c "." then at_
  else if String.eqb c ".." then removelast at_
  else at_ ++ [c].

Definition is_absolute (p : string) : bool :=
  match p with
  | String c _ => Ascii.eqb c "/"
  | EmptyString => false
  end.

Definition resolve (cwd : list string) (p : string) : list string :=
  fold_left enter (split_path p EmptyString) (if is_absolute p then [] else cwd).

Record world : Type := {
  root : node;
  cwd : list string;
  dispatched : list (list string * string)
}.

Definition with_root (r : node) (w : world) : world :=
  {| root := r; cwd := cwd w; dispatched := dispatched w |}.

Definition with_cwd (c : list string) (w : world) : world :=
  {| root := root w; cwd := c; dispatched := dispatched w |}.

Definition note_dispatch (fname : string) (w : world) : world :=
  {| root := root w; cwd := cwd w;
     dispatched := dispatched w ++ [(cwd w, fname)] |}.

(** [chdir(path)]: [None] is the [-1] return. *)
Definition chdir (path : string) (w : world) : option world :=
  let target := resolve (cwd w) path in
  match lookup target (root w) with
  | Some (Dir pm _) => if p_search pm then Some (with_cwd target w) else None
  | _ => None
  end.

(** [opendir(".")] followed by the names [readdir] will hand out. *)
Definition opendir_dot (w : world) : option (list string) :=
  match lookup (cwd w) (root w) with
  | Some (Dir pm es) =>
      if p_read pm then Some ("."%string :: ".."%string :: map fst es) else None
  | _ => None
  end.

Record stat_t : Type := { S_ISDIR : bool; st_size : Z }.

Definition stat (path : string) (w : world) : option stat_t :=
  match lookup (resolve (cwd w) path) (root w) with
  | Some (File d) => Some {| S_ISDIR := false; st_size := len d |}
  | Some (Dir _ _) => Some {| S_ISDIR := true; st_size := 0 |}
  | _ => None
  end.

Definition read_file (path : string) (w : world) : option (list byte) :=
  match lookup (resolve (cwd w) path) (root w) with
  | Some (File d) => Some d
  | _ => None
  end.

(** [unlink(path)]; the source ignores its return value. *)
Definition unlink (path : string) (w : world) : world :=
  match remove (resolve (cwd w) path) (root w) with
  | Some r => with_root r w
  | None => w
  end.

(** [std::ofstream]: opening creates or truncates the file, the bytes
    written collect in the stream and [close] puts them in the file. *)
Record ofstream : Type := { target : list string; pending : list byte }.

Definition ofstream_open (path : string) (w : world) : option (world * ofstream) :=
  let p := resolve (cwd w) path in
  match store p [] (root w) with
  | Some r => Some (with_root r w, {| target := p; pending := [] |})
  | None => None
  end.

Definition ofstream_write (bytes : list byte) (f : ofstream) : ofstream :=
  {| target := target f; pending := pending f ++ bytes |}.

Definition ofstream_close (f : ofstream) (w : world) : world :=
  match store (target f) (pending f) (root w) with
  | Some r => with_root r w
  | None => w
  end.

(** ** Helpers of [utility.hpp] *)

(** A writable mapping remembers the file it is backed by. *)
Record mapping : Type := { backing : list string }.

(** Modelled from the spec: [mapFile] of [utility.hpp] is missing; it maps
    an existing file read-only, and the mapping gives the file's bytes. *)
Definition mapFile (fname : string) (size : Z) (w : world) : option (list byte) :=
  read_file fname w.

(** Modelled from the spec: [allocateFile] of [utility.hpp] is missing; it
    allocates a new file of the given length and maps it writable.  The
    fresh file reads as zeros. *)
Definition allocateFile (fname : string) (size : Z) (w : world)
  : option (world * mapping * list byte) :=
  let p := resolve (cwd w) fname in
  match store p (zeros size) (root w) with
  | Some r => Some (with_root r w, {| backing := p |}, zeros size)
  | None => None
  end.

(** Modelled from the spec: [unmapFile] of [utility.hpp] is missing; it
    flushes the mapped bytes to the file and releases the mapping. *)
Definition unmapFile (m : mapping) (buf : list byte) (w : world) : world :=
  match store (backing m) buf (root w) with
  | Some r => with_root r w
  | None => w
  end.

(** Modelled from the spec: [isdot] of [utility.hpp] is missing; it
    recognises the self and parent markers. *)
Definition isdot (name : string) : bool :=
  String.eqb name "." || String.eqb name "..".

(** Modelled from the spec: [isDirectory] of [utility.hpp] is missing; it
    tells a directory from a file and reports the file's size. *)
Definition isDirectory (path : string) (w : world) : bool * Z :=
  match stat path w with
  | Some sb => if S_ISDIR sb then (true, 0) else (false, st_size sb)
  | None => (false, 0)
  end.

(** ** [struct DataBlock] *)

Record DataBlock : Type := {
  originalSize : Z;
  compressedSize : Z;
  blockIndex : Z
}.

(** [sizeof(DataBlock)] *)
Definition DESC : nat := 3 * WORD.

Definition put_DataBlock (d : DataBlock) : list byte :=
  put_size_t (originalSize d) ++ put_size_t (compressedSize d)
  ++ put_size_t (blockIndex d).

Definition get_DataBlock (buf : list byte) (off : Z) : outcome DataBlock :=
  o <- get_size_t buf off ;;
  c <- get_size_t buf (off + Z.of_nat WORD) ;;
  i <- get_size_t buf (off + 2 * Z.of_nat WORD) ;;
  Done {| originalSize := o; compressedSize := c; blockIndex := i |}.

Definition set_originalSize (v : Z) (d : DataBlock) : DataBlock :=
  {| originalSize := v; compressedSize := compressedSize d;
     blockIndex := blockIndex d |}.

Definition set_compressedSize (v : Z) (d : DataBlock) : DataBlock :=
  {| originalSize := originalSize d; compressedSize := v;
     blockIndex := blockIndex d |}.

Definition set_blockIndex (v : Z) (d : DataBlock) : DataBlock :=
  {| originalSize := originalSize d; compressedSize := compressedSize d;
     blockIndex := v |}.

Definition zero_block : DataBlock :=
  {| originalSize := 0; compressedSize := 0; blockIndex := 0 |}.

(** State shared by the tasks of the compression [taskloop]. *)
Record cstate : Type := {
  blockInfos : list DataBlock;
  compressedBlocks : list (list byte);
  compressionSuccess : bool
}.

(** State shared by the tasks of the decompression [taskloop]. *)
Record dstate : Type := {
  decompressed_data : list byte;
  decompressionSuccess : bool
}.

Section Engine.

Variable cfg : config.
Variable cdc : codec.
Variable sch : scheduler.

(** [compressBlock]: the codec reads [inSize] bytes at [ptr + off]. *)
Definition compressBlock (ptr : list byte) (off inSize cmp_len : Z)
  : outcome (option (list byte)) :=
  src <- read ptr off inSize ;;
  Done (compress cdc src cmp_len).

(** [decompressBlock]: the codec reads [compressedSize] bytes at
    [ptr + off] and stores its output at [dest + doff]. *)
Definition decompressBlock (ptr : list byte) (off csize : Z)
           (dest : list byte) (doff cap : Z) : outcome (bool * list byte) :=
  src <- read ptr off csize ;;
  let (ok, out) := uncompress cdc src cap in
  dest' <- write_at dest doff out ;;
  Done (ok, dest').

(** [numBlocks] and [blockSize] of the large-file branch. *)
Definition block_count (size : Z) : outcome Z :=
  q <- SizeT.div (SizeT.sub (SizeT.add size (BIG_FILE_SIZE cfg)) 1)
                 (BIG_FILE_SIZE cfg) ;;
  Done (Z.min q (SizeT.wrap (num_threads cfg * 2))).

Definition block_size (size numBlocks : Z) : outcome Z :=
  SizeT.div (SizeT.sub (SizeT.add size numBlocks) 1) numBlocks.

Definition block_offset (blockSize : Z) (i : nat) : Z :=
  SizeT.mul (Z.of_nat i) blockSize.

Definition currentBlockSize (size numBlocks blockSize : Z) (i : nat) : Z :=
  if Z.of_nat i <? SizeT.sub numBlocks 1 then blockSize
  else SizeT.sub size (block_offset blockSize i).

(** One iteration of the compression [taskloop]. *)
Definition compress_task (ptr : list byte) (size numBlocks blockSize : Z)
           (i : nat) (s : cstate) : outcome cstate :=
  let offset := block_offset blockSize i in
  let cur := currentBlockSize size numBlocks blockSize i in
  let infos :=
    update i (fun d => set_blockIndex (Z.of_nat i) (set_originalSize cur d))
           (blockInfos s) in
  let cmp_bound := compressBound cdc cur in
  r <- compressBlock ptr offset cur cmp_bound ;;
  match r with
  | None =>
      Done {| blockInfos := infos;
              compressedBlocks :=
                update i (fun _ => zeros cmp_bound) (compressedBlocks s);
              compressionSuccess := false |}
  | Some out =>
      Done {| blockInfos := update i (set_compressedSize (len out)) infos;
              compressedBlocks := update i (fun _ => out) (compressedBlocks s);
              compressionSuccess := compressionSuccess s |}
  end.

(** [outFile.write(compressedBlocks[i].data(), blockInfos[i].compressedSize)]:
    the vector was resized to [compressedSize] bytes. *)
Definition payload (d : DataBlock) (block : list byte) : list byte :=
  firstn (Z.to_nat (compressedSize d)) block.

Definition remove_origin (fname : string) (w : world) : world :=
  if REMOVE_ORIGIN cfg then unlink fname w else w.

Definition compressDataParallel (ptr : list byte) (size : Z) (fname : string)
           (w : world) : outcome (bool * world) :=
  if size <=? BIG_FILE_SIZE cfg then
    let cmp_len := compressBound cdc size in
    r <- compressBlock ptr 0 size cmp_len ;;
    match r with
    | None => Done (false, w)
    | Some out =>
        match ofstream_open (fname ++ SUFFIX cfg) w with
        | None => Done (false, w)
        | Some (w1, outFile) =>
            let numBlocks := 1 in
            let outFile := ofstream_write (put_size_t numBlocks) outFile in
            let blockInfo :=
              {| originalSize := size; compressedSize := len out;
                 blockIndex := 0 |} in
            let outFile := ofstream_write (put_DataBlock blockInfo) outFile in
            let outFile := ofstream_write (payload blockInfo out) outFile in
            let w2 := ofstream_close outFile w1 in
            Done (true, remove_origin fname w2)
        end
    end
  else
    numBlocks <- block_count size ;;
    blockSize <- block_size size numBlocks ;;
    let n := Z.to_nat numBlocks in
    s <- run_tasks (compress_task ptr size numBlocks blockSize) (sch n)
           {| blockInfos := repeat zero_block n;
              compressedBlocks := repeat [] n;
              compressionSuccess := true |} ;;
    if negb (compressionSuccess s) then Done (false, w)
    else
      match ofstream_open (fname ++ SUFFIX cfg) w with
      | None => Done (false, w)
      | Some (w1, outFile) =>
          let outFile := ofstream_write (put_size_t numBlocks) outFile in
          let outFile :=
            fold_left (fun f d => ofstream_write (put_DataBlock d) f)
                      (blockInfos s) outFile in
          let outFile :=
            fold_left (fun f db => ofstream_write (payload (fst db) (snd db)) f)
                      (combine (blockInfos s) (compressedBlocks s)) outFile in
          let w2 := ofstream_close outFile w1 in
          Done (true, remove_origin fname w2)
      end.

(** The output name: [fname.substr(0, fname.size() - strlen(SUFFIX))]. *)
Definition outfile_name (fname : string) : outcome string :=
  substr fname 0 (SizeT.sub (size fname) (size (SUFFIX cfg))).

Fixpoint read_infos (ptr : list byte) (off : Z) (n : nat)
  : outcome (list DataBlock) :=
  match n with
  | O => Done []
  | S n' =>
      d <- get_DataBlock ptr off ;;
      rest <- read_infos ptr (off + Z.of_nat DESC) n' ;;
      Done (d :: rest)
  end.

(** [totalSize], and [outputOffset] when applied to the blocks before [i]. *)
Definition total_size (infos : list DataBlock) : Z :=
  fold_left (fun acc b => SizeT.add acc (originalSize b)) infos 0.

(** The pointers kept in [compressedBlocks], as offsets into the archive. *)
Fixpoint block_starts (ptr : Z) (infos : list DataBlock) : list Z :=
  match infos with
  | [] => []
  | d :: rest => ptr :: block_starts (ptr + compressedSize d) rest
  end.

(** One iteration of the decompression [taskloop]. *)
Definition decompress_task (ptr : list byte) (infos : list DataBlock)
           (starts : list Z) (i : nat) (s : dstate) : outcome dstate :=
  let outputOffset := total_size (firstn i infos) in
  let d := nth i infos zero_block in
  r <- decompressBlock ptr (nth i starts 0) (compressedSize d)
         (decompressed_data s) outputOffset (originalSize d) ;;
  let (success, buf) := r in
  Done {| decompressed_data := buf;
          decompressionSuccess :=
            if success then decompressionSuccess s else false |}.

Definition decompressDataParallel (ptr : list byte) (fname : string)
           (w : world) : outcome (bool * world) :=
  numBlocks <- get_size_t ptr 0 ;;
  let p := Z.of_nat WORD in
  if numBlocks =? 1 then
    blockInfo <- get_DataBlock ptr p ;;
    let p := p + Z.of_nat DESC in
    let decompressedSize := originalSize blockInfo in
    outfile <- outfile_name fname ;;
    match allocateFile outfile decompressedSize w with
    | None => Done (false, w)
    | Some (w1, m, buf) =>
        r <- decompressBlock ptr p (compressedSize blockInfo)
               buf 0 decompressedSize ;;
        let (success, buf') := r in
        let w2 := unmapFile m buf' w1 in
        if success then Done (true, remove_origin fname w2)
        else Done (false, w2)
    end
  else
    let n := Z.to_nat numBlocks in
    infos <- read_infos ptr p n ;;
    let p := p + Z.of_nat n * Z.of_nat DESC in
    let totalSize := total_size infos in
    outfile <- outfile_name fname ;;
    match allocateFile outfile totalSize w with
    | None => Done (false, w)
    | Some (w1, m, buf) =>
        let starts := block_starts p infos in
        s <- run_tasks (decompress_task ptr infos starts) (sch n)
               {| decompressed_data := buf; decompressionSuccess := true |} ;;
        let w2 := unmapFile m (decompressed_data s) w1 in
        if negb (decompressionSuccess s) then Done (false, w2)
        else Done (true, remove_origin fname w2)
    end.

(** [doParallelWork]; the read-only mapping is released without effect. *)
Definition doParallelWork (fname : string) (size : Z) (comp : bool)
           (w : world) : outcome (bool * world) :=
  let w := note_dispatch fname w in
  match mapFile fname size w with
  | None => Done (false, w)
  | Some ptr =>
      if comp then compressDataParallel ptr size fname w
      else decompressDataParallel ptr fname w
  end.

(** Modelled from the spec: [discardIt] of [utility.hpp] is missing; in
    compress mode it rejects names that carry the archive suffix, in
    decompress mode names that lack it. *)
Definition discardIt (name : string) (comp : bool) : bool :=
  if comp then has_suffix (SUFFIX cfg) name
  else negb (has_suffix (SUFFIX cfg) name).

(** The first pass of [walkDirParallel] over the names [readdir] yields;
    [None] is the early [return false].  [readdir] itself does not fail in
    this model, so [errno] is zero after the loop. *)
Fixpoint readdir_loop (walk : string -> bool -> world -> outcome (bool * world))
         (comp : bool) (names : list string) (files : list (string * Z))
         (w : world) : outcome (option (list (string * Z)) * world) :=
  match names with
  | [] => Done (Some files, w)
  | d_name :: rest =>
      match stat d_name w with
      | None => Done (None, w)
      | Some statbuf =>
          if S_ISDIR statbuf then
            if negb (isdot d_name) then
              r <- walk d_name comp w ;;
              let (ok, w') := r in
              if ok then
                match chdir ".." w' with
                | None => Done (None, w')
                | Some w'' => readdir_loop walk comp rest files w''
                end
              else Done (None, w')
            else readdir_loop walk comp rest files w
          else if discardIt d_name comp then
            readdir_loop walk comp rest files w
          else
            readdir_loop walk comp rest
              (files ++ [(d_name, st_size statbuf)]) w
      end
  end.

(** One iteration of the [parallel for] over the collected files. *)
Definition dispatch_task (files : list (string * Z)) (comp : bool)
           (i : nat) (s : bool * world) : outcome (bool * world) :=
  match nth_error files i with
  | None => Done s
  | Some (name, sz) =>
      r <- doParallelWork name sz comp (snd s) ;;
      let (ok, w') := r in
      Done (if ok then fst s else false, w')
  end.

Fixpoint walkDirParallel (fuel : nat) (dname : string) (comp : bool)
         (w : world) : outcome (bool * world) :=
  match fuel with
  | O => Fault OutOfFuel
  | S fuel' =>
      match chdir dname w with
      | None => Done (false, w)
      | Some w1 =>
          match opendir_dot w1 with
          | None => Done (false, w1)
          | Some names =>
              r <- readdir_loop (walkDirParallel fuel') comp names [] w1 ;;
              match r with
              | (None, w2) => Done (false, w2)
              | (Some files, w2) =>
                  run_tasks (dispatch_task files comp)
                            (sch (List.length files)) (true, w2)
              end
          end
      end
  end.

(** The loop of [main] over the inputs left after option parsing. *)
Fixpoint main_loop (fuel : nat) (argv : list string) (success : bool)
         (w : world) : outcome (bool * world) :=
  match argv with
  | [] => Done (success, w)
  | arg :: rest =>
      let (isdir, filesize) := isDirectory arg w in
      r <- (if isdir then walkDirParallel fuel arg (COMP cfg) w
            else doParallelWork arg filesize (COMP cfg) w) ;;
      let (ok, w') := r in
      main_loop fuel rest (success && ok) w'
  end.

Definition main (fuel : nat) (argv : list string) (w : world)
  : outcome (Z * world) :=
  r <- main_loop fuel argv true w ;;
  let (success, w') := r in
  Done (if success then 0 else -1, w').

End Engine.

(** ** Vocabulary of the specification *)

(** [ceil(a/b)] of the specification. *)
Definition ceil_div (a b : Z) : Z := - ((- a) / b).

(** The archive layout of the specification: block count, descriptor
    table, payloads. *)
Definition archive_bytes (infos : list DataBlock) (payloads : list (list byte))
  : list byte :=
  put_size_t (len infos) ++ List.concat (map put_DataBlock infos)
  ++ List.concat payloads.

(** The call opened [fname ++ SUFFIX], wrote [archive] through the stream,
    closed it and applied the removal policy. *)
Definition writes_archive (cfg : config) (fname : string) (archive : list byte)
           (w w' : world) : Prop :=
  exists w1 f,
    ofstream_open (fname ++ SUFFIX cfg) w = Some (w1, f) /\
    w' = remove_origin cfg fname (ofstream_close (ofstream_write archive f) w1).

(** The split of an input of [size] bytes: block count and block size. *)
Definition split_plan (cfg : config) (size : Z) : outcome (Z * Z) :=
  if size <=? BIG_FILE_SIZE cfg then Done (1, size)
  else
    numBlocks <- block_count cfg size ;;
    blockSize <- block_size size numBlocks ;;
    Done (numBlocks, blockSize).

(** The bytes of block [i] as the codec reads them. *)
Definition block_src (ptr : list byte) (size numBlocks blockSize : Z) (i : nat)
  : outcome (list byte) :=
  read ptr (block_offset blockSize i) (currentBlockSize size numBlocks blockSize i).

(** What a well-behaved codec guarantees for inputs of up to [limit]
    bytes: the bound is a [size_t], the output fits the capacity, a
    destination of [compressBound] bytes is always enough, and
    [uncompress] inverts [compress]. *)
Record codec_ok (cdc : codec) (limit : Z) : Prop := {
  bound_range : forall n, SizeT.in_range (compressBound cdc n);
  compress_fits : forall src cap out,
      compress cdc src cap = Some out -> len out <= cap;
  compress_total : forall src,
      len src <= limit ->
      compress cdc src (compressBound cdc (len src)) <> None;
  uncompress_compress : forall src cap out,
      compress cdc src cap = Some out -> uncompress cdc out (len src) = (true, src)
}.

(** The codec never stores more than the capacity it was given. *)
Definition respects_capacity (cdc : codec) : Prop :=
  forall src cap, 0 <= cap -> len (snd (uncompress cdc src cap)) <= cap.

(** A directory entry name: one component, not a self or parent marker. *)
Fixpoint no_slash (s : string) : bool :=
  match s with
  | EmptyString => true
  | String c s' => negb (Ascii.eqb c "/") && no_slash s'
  end.

Definition simple (s : string) : bool :=
  no_slash s && negb (String.eqb s "") && negb (String.eqb s ".")
  && negb (String.eqb s "..").

(** Every entry of the tree has a simple name. *)
Fixpoint tidy (n : node) : bool :=
  match n with
  | Dir _ es =>
      (fix all (es : list (string * node)) : bool :=
         match es with
         | [] => true
         | (k, v) :: rest => simple k && tidy v && all rest
         end) es
  | _ => true
  end.

Definition tidy_world (w : world) : Prop :=
  tidy (root w) = true /\ forallb simple (cwd w) = true.

Definition is_prefix (p q : list string) : Prop := exists rest, q = p ++ rest.

(** Block [i] is readable and the codec turns it into [out]. *)
Definition compresses_to (cdc : codec) (ptr : list byte)
           (size numBlocks blockSize : Z) (i : nat) (out : list byte) : Prop :=
  exists src,
    block_src ptr size numBlocks blockSize i = Done src /\
    compress cdc src
      (compressBound cdc (currentBlockSize size numBlocks blockSize i))
    = Some out.

(** Block [i] is readable and the codec call on it fails. *)
Definition block_fails (cdc : codec) (ptr : list byte)
           (size numBlocks blockSize : Z) (i : nat) : Prop :=
  exists src,
    block_src ptr size numBlocks blockSize i = Done src /\
    compress cdc src
      (compressBound cdc (currentBlockSize size numBlocks blockSize i))
    = None.

(** The descriptor of block [i] once it is compressed to [out]. *)
Definition block_info (size numBlocks blockSize : Z) (i : nat)
           (out : list byte) : DataBlock :=
  {| originalSize := currentBlockSize size numBlocks blockSize i;
     compressedSize := len out;
     blockIndex := Z.of_nat i |}.

(** [Σ originalSize], as an integer. *)
Definition original_total (infos : list DataBlock) : Z :=
  fold_right (fun d acc => originalSize d + acc) 0 infos.

(** [Σ compressedSize], as an integer. *)
Definition compressed_total (infos : list DataBlock) : Z :=
  fold_right (fun d acc => compressedSize d + acc) 0 infos.

(** The compressed bytes of block [i] as the codec reads them from the
    archive [ptr] whose descriptor table is [infos]. *)
Definition block_input (ptr : list byte) (infos : list DataBlock) (i : nat)
  : outcome (list byte) :=
  read ptr
       (nth i (block_starts (Z.of_nat WORD + len infos * Z.of_nat DESC) infos) 0)
       (compressedSize (nth i infos zero_block)).

(** Block [i] of the archive is readable and the codec answers [ok] after
    storing [out]. *)
Definition inflates_to (cdc : codec) (ptr : list byte) (infos : list DataBlock)
           (i : nat) (ok : bool) (out : list byte) : Prop :=
  exists src,
    block_input ptr infos i = Done src /\
    uncompress cdc src (originalSize (nth i infos zero_block)) = (ok, out).

(** Every size in the table is non-negative and the sizes add up to less
    than [2^64]. *)
Definition sizes_fit (infos : list DataBlock) : Prop :=
  Forall (fun d => 0 <= originalSize d) infos /\
  original_total infos < SizeT.modulus.

(** A directory walk that, from a tidy world, ends in a tidy world with
    the working directory at or below the directory it entered, and
    exactly in it when it returns [true]. *)
Definition keeps_inside
           (walk : string -> bool -> world -> outcome (bool * world)) : Prop :=
  forall d comp w b w',
    tidy_world w -> walk d comp w = Done (b, w') ->
    tidy_world w' /\
    match chdir d w with
    | None => b = false /\ w' = w
    | Some w1 => is_prefix (cwd w1) (cwd w') /\ (b = true -> cwd w' = cwd w1)
    end.

(** The three fields of a descriptor are [size_t] values. *)
Definition well_sized (d : DataBlock) : Prop :=
  SizeT.in_range (originalSize d) /\ SizeT.in_range (compressedSize d) /\
  SizeT.in_range (blockIndex d).

(** Every regular file of [w] outside the paths [touched] is in [w'] with
    the same bytes, and the working directory is the same. *)
Definition leaves_files (touched : list (list string)) (w w' : world) : Prop :=
  cwd w' = cwd w /\
  forall q d, ~ In q touched ->
    lookup q (root w) = Some (File d) -> lookup q (root w') = Some (File d).

(** The number of directory levels of a tree; files count for none. *)
Fixpoint height (n : node) : nat :=
  match n with
  | Dir _ es =>
      S ((fix deepest (es : list (string * node)) : nat :=
            match es with
            | [] => O
            | (_, v) :: rest => Nat.max (height v) (deepest rest)
            end) es)
  | _ => O
  end.

Definition deepest (es : list (string * node)) : nat :=
  fold_right (fun kv acc => Nat.max (height (snd kv)) acc) O es.

(** [p] is a directory properly inside [c]. *)
Definition strictly_below (c p : list string) : Prop :=
  exists d rest, p = c ++ d :: rest.

(** The dispatch log of [w'] is that of [w] followed by entries that all
    satisfy [P]. *)
Definition log_grows (P : list string * string -> Prop) (w w' : world) : Prop :=
  exists ext, dispatched w' = dispatched w ++ ext /\ Forall P ext.

(** A directory walk that only dispatches files of the directory it was
    asked to enter and of the directories below it. *)
Definition logs_inside
           (walk : string -> bool -> world -> outcome (bool * world)) : Prop :=
  forall d comp w b w',
    tidy_world w -> walk d comp w = Done (b, w') ->
    log_grows (fun e => is_prefix (resolve (cwd w) d) (fst e)) w w'.

(** ** Concrete collaborators for the examples *)

Module Demo.

(** A codec that stores its input behind a one-byte tag. *)
Definition framed : codec :=
  {| compressBound := fun n => SizeT.wrap (n + 1);
     compress := fun src cap =>
       if len src + 1 <=? cap then Some (x01 :: src) else None;
     uncompress := fun src cap =>
       match src with
       | x01 :: body =>
           if len body <=? cap then (true, body) else (false, firstn (Z.to_nat cap) body)
       | _ => (false, [])
       end |}.

Definition spoils (src : list byte) : bool :=
  match src with
  | xff :: _ => true
  | _ => false
  end.

(** [framed], except that it rejects any block that starts with [xff]. *)
Definition picky : codec :=
  {| compressBound := compressBound framed;
     compress := fun src cap =>
       if spoils src then None else compress framed src cap;
     uncompress := fun src cap =>
       if spoils (tl src) then (false, []) else uncompress framed src cap |}.

Definition in_order : scheduler := fun n => seq 0 n.
Definition backwards : scheduler := fun n => rev (seq 0 n).

Definition settings (threshold threads : Z) : config :=
  {| BIG_FILE_SIZE := threshold; SUFFIX := ".zip"; REMOVE_ORIGIN := false;
     COMP := true; num_threads := threads |}.

Definition rwx : perms := {| p_read := true; p_write := true; p_search := true |}.
Definition locked : perms := {| p_read := false; p_write := false; p_search := false |}.

Definition bytes (s : string) : list byte := list_byte_of_string s.

(** Ten bytes of input. *)
Definition sample : list byte := bytes "0123456789".

(** Ten bytes whose second block of four starts with [xff]. *)
Definition spoiled : list byte :=
  bytes "0123" ++ [xff] ++ bytes "56789".

Definition descriptor (o c i : Z) : DataBlock :=
  {| originalSize := o; compressedSize := c; blockIndex := i |}.

(** The archive [framed] makes of [spoiled] in blocks of four bytes. *)
Definition spoiled_archive : list byte :=
  archive_bytes
    [descriptor 4 5 0; descriptor 4 5 1; descriptor 2 3 2]
    [x01 :: bytes "0123"; x01 :: xff :: bytes "567"; x01 :: bytes "89"].

Definition start (r : node) : world := {| root := r; cwd := []; dispatched := [] |}.

(** An empty writable directory. *)
Definition empty : world := start (Dir rwx []).

(** [/f.txt], [/D/f.txt] and a sub-directory [/D/sub] that cannot be entered. *)
Definition tree : world :=
  start (Dir rwx
    [("D"%string, Dir rwx [("f.txt"%string, File (bytes "inner"));
                           ("sub"%string, Dir locked [])]);
     ("f.txt"%string, File (bytes "outer"))]).

End Demo.

(** * Properties *)

(** ** Outcomes *)

Lemma bind_Done {A B : Type} (m : outcome A) (k : A -> outcome B) (b : B) :
  bind m k = Done b -> exists a, m = Done a /\ k a = Done b.
Proof.
  destruct m as [a|e]; simpl; intros H.
  - exists a. split; [reflexivity | exact H].
  - discriminate H.
Qed.

Ltac bind_inv H :=
  let a := fresh "a" in
  let Ha := fresh "Ha" in
  apply bind_Done in H; destruct H as [a [Ha H]].

(** ** Bytes and words *)

Lemma Z_of_byte_of_Z (z : Z) : Z_of_byte (byte_of_Z z) = z mod 256.
Proof.
  unfold Z_of_byte, byte_of_Z.
  assert (Hr : 0 <= z mod 256 < 256) by (apply Z.mod_pos_bound; lia).
  destruct (Byte.of_N (Z.to_N (z mod 256))) as [b|] eqn:E.
  - apply Byte.to_of_N in E. rewrite E. apply Z2N.id. lia.
  - apply Byte.of_N_None_iff in E. lia.
Qed.

Lemma length_le_bytes (k : nat) (z : Z) : List.length (le_bytes k z) = k.
Proof.
  revert z. induction k as [|k IH]; intros z; simpl; [reflexivity|].
  now rewrite IH.
Qed.

Lemma le_value_le_bytes (k : nat) (z : Z) :
  le_value (le_bytes k z) = z mod 256 ^ Z.of_nat k.
Proof.
  revert z. induction k as [|k IH]; intros z.
  - simpl. now rewrite Z.mod_1_r.
  - cbn [le_bytes le_value]. rewrite IH, Z_of_byte_of_Z.
    rewrite Nat2Z.inj_succ, Z.pow_succ_r by lia.
    rewrite Z.rem_mul_r by (try apply Z.pow_pos_nonneg; lia).
    reflexivity.
Qed.

Lemma len_put_size_t (z : Z) : len (put_size_t z) = Z.of_nat WORD.
Proof. unfold len, put_size_t. now rewrite length_le_bytes. Qed.

Lemma le_value_put_size_t (z : Z) :
  SizeT.in_range z -> le_value (put_size_t z) = z.
Proof.
  intros Hz. unfold put_size_t. rewrite le_value_le_bytes.
  apply Z.mod_small. exact Hz.
Qed.

(** ** Buffers *)

Lemma len_nonneg {A : Type} (l : list A) : 0 <= len l.
Proof. unfold len. lia. Qed.

Lemma len_app {A : Type} (l1 l2 : list A) : len (l1 ++ l2) = len l1 + len l2.
Proof. unfold len. rewrite length_app. lia. Qed.

Lemma len_zeros (n : Z) : 0 <= n -> len (zeros n) = n.
Proof. intros Hn. unfold len, zeros. rewrite repeat_length. lia. Qed.

Lemma read_Done (buf : list byte) (off n : Z) (d : list byte) :
  read buf off n = Done d ->
  0 <= off /\ 0 <= n /\ off + n <= len buf /\ len d = n /\
  d = firstn (Z.to_nat n) (skipn (Z.to_nat off) buf).
Proof.
  unfold read.
  destruct (0 <=? off) eqn:E1; [|discriminate].
  destruct (0 <=? n) eqn:E2; [|discriminate].
  destruct (off + n <=? len buf) eqn:E3; [|discriminate].
  simpl. intros H. injection H as <-.
  apply Z.leb_le in E1, E2, E3. unfold len in *.
  repeat split; try lia.
  rewrite length_firstn, length_skipn. lia.
Qed.

Lemma read_in_bounds (buf : list byte) (off n : Z) :
  0 <= off -> 0 <= n -> off + n <= len buf ->
  read buf off n = Done (firstn (Z.to_nat n) (skipn (Z.to_nat off) buf)).
Proof.
  intros H1 H2 H3. unfold read.
  apply Z.leb_le in H1, H2, H3. now rewrite H1, H2, H3.
Qed.

Lemma read_app_mid (pre mid post : list byte) :
  read (pre ++ mid ++ post) (len pre) (len mid) = Done mid.
Proof.
  rewrite read_in_bounds.
  - unfold len. rewrite !Nat2Z.id.
    rewrite skipn_app, skipn_all, Nat.sub_diag. simpl.
    rewrite firstn_app, firstn_all, Nat.sub_diag. simpl.
    now rewrite app_nil_r.
  - apply len_nonneg.
  - apply len_nonneg.
  - rewrite !len_app. pose proof (len_nonneg post). lia.
Qed.

Lemma write_at_Done (buf : list byte) (off : Z) (d buf' : list byte) :
  write_at buf off d = Done buf' ->
  0 <= off /\ off + len d <= len buf /\ len buf' = len buf /\
  buf' = firstn (Z.to_nat off) buf ++ d
         ++ skipn (Z.to_nat off + List.length d) buf.
Proof.
  unfold write_at.
  destruct (0 <=? off) eqn:E1; [|discriminate].
  destruct (off + len d <=? len buf) eqn:E2; [|discriminate].
  simpl. intros H. injection H as <-.
  apply Z.leb_le in E1, E2. unfold len in *.
  repeat split; try lia.
  rewrite !length_app, length_firstn, length_skipn. lia.
Qed.

Lemma write_at_in_bounds (buf : list byte) (off : Z) (d : list byte) :
  0 <= off -> off + len d <= len buf ->
  exists buf', write_at buf off d = Done buf'.
Proof.
  intros H1 H2. unfold write_at.
  apply Z.leb_le in H1, H2. rewrite H1, H2. simpl. eauto.
Qed.

Lemma read_write_same (buf : list byte) (off : Z) (d buf' : list byte) :
  write_at buf off d = Done buf' -> read buf' off (len d) = Done d.
Proof.
  intros H. apply write_at_Done in H. destruct H as (H1 & H2 & _ & ->).
  pose proof (read_app_mid (firstn (Z.to_nat off) buf) d
                (skipn (Z.to_nat off + List.length d) buf)) as R.
  replace (len (firstn (Z.to_nat off) buf)) with off in R; [exact R|].
  unfold len in *. rewrite length_firstn. lia.
Qed.

Lemma read_write_other (buf : list byte) (off : Z) (d buf' : list byte) (o n : Z) :
  write_at buf off d = Done buf' ->
  o + n <= off \/ off + len d <= o ->
  read buf' o n = read buf o n.
Proof.
  intros H Hd. apply write_at_Done in H. destruct H as (H1 & H2 & Hl & ->).
  unfold read. rewrite !len_app.
  replace (len (firstn (Z.to_nat off) buf) + (len d +
           len (skipn (Z.to_nat off + List.length d) buf))) with (len buf)
    by (unfold len in *; rewrite length_firstn, length_skipn; lia).
  destruct (0 <=? o) eqn:E1; [|reflexivity].
  destruct (0 <=? n) eqn:E2; [|reflexivity].
  destruct (o + n <=? len buf) eqn:E3; [|reflexivity].
  simpl. f_equal.
  apply Z.leb_le in E1, E2, E3. unfold len in *.
  set (pre := firstn (Z.to_nat off) buf).
  set (old := firstn (List.length d) (skipn (Z.to_nat off) buf)).
  set (post := skipn (Z.to_nat off + List.length d) buf).
  assert (Hdec : buf = pre ++ old ++ post).
  { unfold pre, old, post.
    rewrite <- (firstn_skipn (Z.to_nat off) buf) at 1. f_equal.
    rewrite <- (firstn_skipn (List.length d) (skipn (Z.to_nat off) buf)) at 1.
    now rewrite skipn_skipn, (Nat.add_comm (List.length d)). }
  rewrite Hdec at 1.
  assert (Hpre : List.length pre = Z.to_nat off)
    by (unfold pre; rewrite length_firstn; lia).
  assert (Hold : List.length old = List.length d)
    by (unfold old; rewrite length_firstn, length_skipn; lia).
  destruct Hd as [Hd|Hd].
  - rewrite !skipn_app, !firstn_app, !length_skipn, Hpre.
    replace (Z.to_nat n - (Z.to_nat off - Z.to_nat o))%nat with O by lia.
    simpl. reflexivity.
  - rewrite !skipn_app, Hpre, Hold.
    rewrite (skipn_all2 pre) by lia.
    rewrite (skipn_all2 d) by lia.
    rewrite (skipn_all2 old) by lia.
    reflexivity.
Qed.

(** ** Strings *)

Lemma length_append (a b : string) :
  String.length (a ++ b) = (String.length a + String.length b)%nat.
Proof. induction a as [|c a IH]; simpl; [reflexivity | now rewrite IH]. Qed.

Lemma substring_0_0 (s : string) : String.substring 0 0 s = EmptyString.
Proof. destruct s; reflexivity. Qed.

Lemma substring_whole (s : string) (n : nat) :
  (String.length s <= n)%nat -> String.substring 0 n s = s.
Proof.
  revert n. induction s as [|c s IH]; intros n Hn.
  - destruct n; reflexivity.
  - destruct n as [|n]; simpl in *; [lia|]. rewrite IH by lia. reflexivity.
Qed.

Lemma substring_stem (a b : string) :
  String.substring 0 (String.length a) (a ++ b) = a.
Proof.
  induction a as [|c a IH]; simpl.
  - apply substring_0_0.
  - now rewrite IH.
Qed.

(** A prefix of [n] characters leaves a tail with the rest. *)
Lemma substring_split (s : string) (n : nat) :
  (n <= String.length s)%nat ->
  exists tail, s = (String.substring 0 n s ++ tail)%string /\
               String.length tail = (String.length s - n)%nat.
Proof.
  revert n. induction s as [|c s IH]; intros n Hn.
  - exists EmptyString. destruct n; simpl in *; [split; reflexivity | lia].
  - destruct n as [|n]; simpl in *.
    + exists (String c s). split; reflexivity.
    + destruct (IH n ltac:(lia)) as [tail [E L]].
      exists tail. split; [|exact L]. simpl. now rewrite <- E.
Qed.

Section OutputName.

Variable cfg : config.

Lemma outfile_name_long (fname : string) :
  SizeT.in_range (size fname) ->
  size (SUFFIX cfg) <= size fname ->
  outfile_name cfg fname =
  Done (String.substring 0 (String.length fname - String.length (SUFFIX cfg)) fname).
Proof.
  intros Hr Hle. unfold outfile_name, substr, SizeT.sub, SizeT.wrap.
  unfold SizeT.in_range in Hr. unfold size in *.
  rewrite Z.mod_small by lia.
  destruct (Z.of_nat (String.length fname) <? 0) eqn:E;
    [apply Z.ltb_lt in E; lia|].
  f_equal. f_equal. lia.
Qed.

Lemma outfile_name_short (fname : string) :
  SizeT.in_range (size (SUFFIX cfg)) ->
  size fname < size (SUFFIX cfg) ->
  SizeT.sub (size fname) (size (SUFFIX cfg))
  = SizeT.modulus + size fname - size (SUFFIX cfg) /\
  outfile_name cfg fname = Done fname.
Proof.
  intros Hr Hlt. unfold SizeT.in_range in Hr.
  assert (Hsub : SizeT.sub (size fname) (size (SUFFIX cfg))
                 = SizeT.modulus + size fname - size (SUFFIX cfg)).
  { unfold SizeT.sub, SizeT.wrap.
    replace (size fname - size (SUFFIX cfg))
      with (SizeT.modulus + size fname - size (SUFFIX cfg)
            + (-1) * SizeT.modulus) by lia.
    rewrite Z.mod_add by (unfold SizeT.modulus; lia).
    apply Z.mod_small. unfold size in *. lia. }
  split; [exact Hsub|].
  unfold outfile_name, substr. rewrite Hsub.
  destruct (size fname <? 0) eqn:E;
    [apply Z.ltb_lt in E; unfold size in E; lia|].
  f_equal. apply substring_whole. unfold size in *. lia.
Qed.

Lemma outfile_name_of_archive (fname : string) :
  SizeT.in_range (size (fname ++ SUFFIX cfg)) ->
  outfile_name cfg (fname ++ SUFFIX cfg) = Done fname.
Proof.
  intros Hr. rewrite outfile_name_long.
  - rewrite length_append, Nat.add_sub. now rewrite substring_stem.
  - exact Hr.
  - unfold size. rewrite length_append. lia.
Qed.

End OutputName.

(** ** Vectors and parallel loops *)

Lemma length_update {A : Type} (i : nat) (f : A -> A) (l : list A) :
  List.length (update i f l) = List.length l.
Proof.
  revert i. induction l as [|x l IH]; intros [|i]; simpl; auto.
Qed.

Lemma nth_update_same {A : Type} (i : nat) (f : A -> A) (l : list A) (d : A) :
  (i < List.length l)%nat -> nth i (update i f l) d = f (nth i l d).
Proof.
  revert i. induction l as [|x l IH]; intros [|i] H; simpl in *; try lia.
  - reflexivity.
  - apply IH. lia.
Qed.

Lemma nth_update_other {A : Type} (i j : nat) (f : A -> A) (l : list A) (d : A) :
  i <> j -> nth j (update i f l) d = nth j l d.
Proof.
  revert i j. induction l as [|x l IH]; intros [|i] [|j] H; simpl; auto.
  contradiction.
Qed.

Lemma fair_covers (sch : scheduler) (n i : nat) :
  fair sch -> (i < n)%nat -> In i (sch n).
Proof.
  intros Hf Hi. apply Permutation_in with (l := seq 0 n).
  - apply Permutation_sym, Hf.
  - apply in_seq. lia.
Qed.

Lemma fair_within (sch : scheduler) (n i : nat) :
  fair sch -> In i (sch n) -> (i < n)%nat.
Proof.
  intros Hf Hi. apply Permutation_in with (l' := seq 0 n) in Hi.
  - apply in_seq in Hi. lia.
  - apply Hf.
Qed.

(** ** Splitting the input *)

Lemma ceil_div_formula (a b : Z) : 0 < b -> ceil_div a b = (a + b - 1) / b.
Proof.
  intros Hb. unfold ceil_div.
  pose proof (Z.div_mod (a + b - 1) b ltac:(lia)) as E.
  pose proof (Z.mod_pos_bound (a + b - 1) b Hb) as R.
  set (q := (a + b - 1) / b) in *. set (r := (a + b - 1) mod b) in *.
  assert (H : (- a) / b = - q).
  { symmetry. apply Z.div_unique with (r := b - 1 - r); [lia|lia]. }
  rewrite H. lia.
Qed.

Lemma wrap_small (z : Z) : SizeT.in_range z -> SizeT.wrap z = z.
Proof. intros H. apply Z.mod_small. exact H. Qed.

Lemma wrap_range (z : Z) : SizeT.in_range (SizeT.wrap z).
Proof. apply Z.mod_pos_bound. reflexivity. Qed.

Lemma div_Done (a b q : Z) : SizeT.div a b = Done q -> b <> 0 /\ q = a / b.
Proof.
  unfold SizeT.div. destruct (b =? 0) eqn:E; [discriminate|].
  intros H. injection H as <-. apply Z.eqb_neq in E. auto.
Qed.

Section Split.

Variable cfg : config.

Hypothesis threshold_range : SizeT.in_range (BIG_FILE_SIZE cfg).

(** When both divisions of the large-file branch are defined, the sum
    [size + BIG_FILE_SIZE - 1] did not wrap and the block count is the
    capped ceiling. *)
Lemma block_count_exact (size nb bs : Z) :
  SizeT.in_range size ->
  BIG_FILE_SIZE cfg < size ->
  block_count cfg size = Done nb ->
  block_size size nb = Done bs ->
  0 < BIG_FILE_SIZE cfg /\
  nb = Z.min (ceil_div size (BIG_FILE_SIZE cfg))
             (SizeT.wrap (num_threads cfg * 2)) /\
  1 <= nb < SizeT.modulus /\ 0 <= bs /\
  size + BIG_FILE_SIZE cfg - 1 < SizeT.modulus.
Proof.
  intros Hs Hgt Hc Hb.
  unfold block_count in Hc. bind_inv Hc. injection Hc as <-.
  apply div_Done in Ha. destruct Ha as [HT ->].
  apply div_Done in Hb. destruct Hb as [Hnb ->].
  unfold SizeT.in_range, SizeT.modulus in *.
  set (T := BIG_FILE_SIZE cfg) in *.
  assert (HTpos : 0 < T) by lia.
  pose proof (wrap_range (num_threads cfg * 2)) as Hw.
  unfold SizeT.in_range, SizeT.modulus in Hw.
  set (cap := SizeT.wrap (num_threads cfg * 2)) in *.
  assert (Hsum : SizeT.sub (SizeT.add size T) 1 = (size + T - 1) mod 2 ^ 64).
  { unfold SizeT.sub, SizeT.add, SizeT.wrap, SizeT.modulus.
    rewrite Zminus_mod_idemp_l. reflexivity. }
  rewrite Hsum in *.
  destruct (Z_lt_ge_dec (size + T - 1) (2 ^ 64)) as [Hsmall|Hbig].
  - rewrite Z.mod_small in * by lia.
    rewrite ceil_div_formula by lia.
    assert (Hq : 1 <= (size + T - 1) / T).
    { apply Z.div_le_lower_bound; lia. }
    repeat split; try lia.
    apply Z.div_pos; [|lia]. apply wrap_range.
  - exfalso. apply Hnb.
    replace ((size + T - 1) mod 2 ^ 64) with (size + T - 1 - 2 ^ 64).
    + rewrite Z.div_small by lia. lia.
    + apply Z.mod_unique with (q := 1); lia.
Qed.

Lemma split_plan_facts (size nb bs : Z) :
  SizeT.in_range size ->
  split_plan cfg size = Done (nb, bs) ->
  1 <= nb < SizeT.modulus /\ 0 <= bs.
Proof.
  intros Hs Hp. unfold split_plan in Hp.
  destruct (size <=? BIG_FILE_SIZE cfg) eqn:E.
  - injection Hp as <- <-. unfold SizeT.in_range, SizeT.modulus in *. lia.
  - apply Z.leb_gt in E. bind_inv Hp. bind_inv Hp. injection Hp as <- <-.
    pose proof (block_count_exact size a a0 Hs E Ha Ha0). tauto.
Qed.

End Split.

(** ** The compression task loop *)

Section CompressTasks.

Variable cdc : codec.
Variable ptr : list byte.
Variables size nb bs : Z.

Lemma compress_task_Done (i : nat) (s s' : cstate) :
  compress_task cdc ptr size nb bs i s = Done s' ->
  List.length (blockInfos s') = List.length (blockInfos s) /\
  List.length (compressedBlocks s') = List.length (compressedBlocks s) /\
  (forall j, j <> i ->
     nth j (blockInfos s') zero_block = nth j (blockInfos s) zero_block /\
     nth j (compressedBlocks s') [] = nth j (compressedBlocks s) []) /\
  ((block_fails cdc ptr size nb bs i /\ compressionSuccess s' = false) \/
   (exists out,
      compresses_to cdc ptr size nb bs i out /\
      compressionSuccess s' = compressionSuccess s /\
      ((i < List.length (blockInfos s))%nat ->
         nth i (blockInfos s') zero_block = block_info size nb bs i out) /\
      ((i < List.length (compressedBlocks s))%nat ->
         nth i (compressedBlocks s') [] = out))).
Proof.
  unfold compress_task, compressBlock. intros H.
  bind_inv H. bind_inv Ha. injection Ha as <-.
  destruct (compress cdc a0 _) as [out|] eqn:Ec; injection H as <-; simpl.
  - rewrite !length_update. repeat split; auto.
    + rewrite !nth_update_other by auto. reflexivity.
    + rewrite nth_update_other by auto. reflexivity.
    + right. exists out. repeat split.
      * exists a0. split; assumption.
      * intros Hi. rewrite !nth_update_same by (rewrite ?length_update; exact Hi).
        reflexivity.
      * intros Hi. now rewrite nth_update_same by exact Hi.
  - rewrite !length_update. repeat split; auto.
    + rewrite !nth_update_other by auto. reflexivity.
    + rewrite nth_update_other by auto. reflexivity.
    + left. split; [|reflexivity]. exists a0. split; assumption.
Qed.

Lemma compress_task_total (i : nat) (s : cstate) (src : list byte) :
  block_src ptr size nb bs i = Done src ->
  exists s', compress_task cdc ptr size nb bs i s = Done s'.
Proof.
  intros Hr. unfold compress_task, compressBlock.
  unfold block_src in Hr. rewrite Hr. simpl.
  destruct (compress cdc src _); eauto.
Qed.

Lemma run_compress_total (order : list nat) (s : cstate) :
  (forall i, In i order -> exists src, block_src ptr size nb bs i = Done src) ->
  exists s', run_tasks (compress_task cdc ptr size nb bs) order s = Done s'.
Proof.
  revert s. induction order as [|k rest IH]; intros s Hall; simpl.
  - eauto.
  - destruct (Hall k (or_introl eq_refl)) as [src Hsrc].
    destruct (compress_task_total k s src Hsrc) as [s1 H1].
    rewrite H1. simpl. apply IH. intros i Hi. apply Hall. now right.
Qed.

Lemma compresses_or_fails (i : nat) (out : list byte) :
  compresses_to cdc ptr size nb bs i out ->
  block_fails cdc ptr size nb bs i -> False.
Proof.
  intros [src [Hs Hc]] [src' [Hs' Hc']].
  rewrite Hs in Hs'. injection Hs' as <-. congruence.
Qed.

Lemma run_compress_Done (order : list nat) (s s' : cstate) :
  run_tasks (compress_task cdc ptr size nb bs) order s = Done s' ->
  List.length (blockInfos s') = List.length (blockInfos s) /\
  List.length (compressedBlocks s') = List.length (compressedBlocks s) /\
  (forall j, ~ In j order ->
     nth j (blockInfos s') zero_block = nth j (blockInfos s) zero_block /\
     nth j (compressedBlocks s') [] = nth j (compressedBlocks s) []) /\
  ((exists i, In i order /\ block_fails cdc ptr size nb bs i) ->
     compressionSuccess s' = false) /\
  (compressionSuccess s' = true ->
     compressionSuccess s = true /\
     forall i, In i order ->
       exists out,
         compresses_to cdc ptr size nb bs i out /\
         ((i < List.length (blockInfos s))%nat ->
            nth i (blockInfos s') zero_block = block_info size nb bs i out) /\
         ((i < List.length (compressedBlocks s))%nat ->
            nth i (compressedBlocks s') [] = out)).
Proof.
  revert s. induction order as [|k rest IH]; intros s H; simpl in H.
  - injection H as <-. repeat split; auto.
    + intros [i [[] _]].
    + intros i [].
  - bind_inv H. rename a into s1.
    destruct (compress_task_Done k s s1 Ha) as (L1 & L2 & Hoth & Hk).
    destruct (IH s1 H) as (M1 & M2 & Mnot & Mfail & Mok).
    assert (Hflag : compressionSuccess s' = true ->
                    compressionSuccess s1 = true) by (intros F; apply Mok, F).
    split; [congruence|]. split; [congruence|]. split; [|split].
    + intros j Hj. simpl in Hj.
      destruct (Mnot j ltac:(tauto)) as [E1 E2].
      destruct (Hoth j ltac:(intros ->; tauto)) as [E3 E4].
      split; congruence.
    + intros [i [[->|Hi] Hf]].
      * destruct (compressionSuccess s') eqn:F; [|reflexivity].
        destruct Hk as [[_ Hk]|[out [Hc _]]].
        -- rewrite Hflag in Hk by reflexivity. discriminate.
        -- exfalso. eapply compresses_or_fails; eauto.
      * apply Mfail. eauto.
    + intros F. specialize (Hflag F). destruct (Mok F) as [_ Mall].
      destruct Hk as [[_ Hk]|[out (Hc & Hs & Hi1 & Hi2)]]; [congruence|].
      split; [congruence|].
      intros i Hi.
      destruct (in_dec Nat.eq_dec i rest) as [Hin|Hnin].
      * destruct (Mall i Hin) as [o (Hco & N1 & N2)].
        exists o. rewrite <- L1, <- L2. auto.
      * destruct Hi as [<-|Hi]; [|contradiction].
        destruct (Mnot k Hnin) as [E1 E2].
        exists out. repeat split; auto.
        -- intros Hlt. rewrite E1. auto.
        -- intros Hlt. rewrite E2. auto.
Qed.

End CompressTasks.

(** ** What goes through the output stream *)

Lemma ofstream_ext (f g : ofstream) :
  target f = target g -> pending f = pending g -> f = g.
Proof. destruct f, g; simpl; intros -> ->; reflexivity. Qed.

Lemma payload_whole (d : DataBlock) (block : list byte) :
  compressedSize d = len block -> payload d block = block.
Proof.
  intros E. unfold payload. rewrite E. unfold len.
  rewrite Nat2Z.id. apply firstn_all.
Qed.

Lemma descriptors_written (infos : list DataBlock) (f : ofstream) :
  fold_left (fun f d => ofstream_write (put_DataBlock d) f) infos f
  = ofstream_write (List.concat (map put_DataBlock infos)) f.
Proof.
  revert f. induction infos as [|d infos IH]; intros f; simpl.
  - apply ofstream_ext; simpl; [reflexivity | now rewrite app_nil_r].
  - rewrite IH. apply ofstream_ext; simpl; [reflexivity | now rewrite <- app_assoc].
Qed.

Lemma payloads_written (infos : list DataBlock) (blocks : list (list byte))
      (f : ofstream) :
  List.length infos = List.length blocks ->
  (forall i, (i < List.length infos)%nat ->
     compressedSize (nth i infos zero_block) = len (nth i blocks [])) ->
  fold_left (fun f db => ofstream_write (payload (fst db) (snd db)) f)
            (combine infos blocks) f
  = ofstream_write (List.concat blocks) f.
Proof.
  revert blocks f.
  induction infos as [|d infos IH]; intros [|b blocks] f L H; simpl in *;
    try discriminate.
  - apply ofstream_ext; simpl; [reflexivity | now rewrite app_nil_r].
  - rewrite IH.
    + rewrite (payload_whole d b) by (apply (H O); lia).
      apply ofstream_ext; simpl; [reflexivity | now rewrite <- app_assoc].
    + lia.
    + intros i Hi. apply (H (S i)). lia.
Qed.

Lemma written_in_order (infos : list DataBlock) (blocks : list (list byte))
      (n : Z) (f : ofstream) :
  n = len infos ->
  ofstream_write (List.concat blocks)
    (ofstream_write (List.concat (map put_DataBlock infos))
       (ofstream_write (put_size_t n) f))
  = ofstream_write (archive_bytes infos blocks) f.
Proof.
  intros ->. unfold archive_bytes.
  apply ofstream_ext; simpl; [reflexivity | now rewrite <- !app_assoc].
Qed.

(** ** Successful compression *)

Section Compression.

Variable cfg : config.
Variable cdc : codec.
Variable sch : scheduler.

Hypothesis sch_fair : fair sch.
Hypothesis threshold_range : SizeT.in_range (BIG_FILE_SIZE cfg).

Lemma single_block_src (ptr : list byte) (size : Z) :
  SizeT.in_range size ->
  block_src ptr size 1 size 0 = read ptr 0 size /\
  currentBlockSize size 1 size 0 = size.
Proof.
  intros Hs. unfold block_src, block_offset, currentBlockSize.
  change (SizeT.mul (Z.of_nat 0) size) with 0.
  change (Z.of_nat 0 <? SizeT.sub 1 1) with false. cbv iota.
  unfold SizeT.sub. rewrite Z.sub_0_r, wrap_small by exact Hs. auto.
Qed.

Lemma compress_true_shape (ptr : list byte) (size : Z) (fname : string)
      (w w' : world) :
  SizeT.in_range size ->
  compressDataParallel cfg cdc sch ptr size fname w = Done (true, w') ->
  exists nb bs infos payloads,
    split_plan cfg size = Done (nb, bs) /\
    List.length infos = Z.to_nat nb /\
    List.length payloads = Z.to_nat nb /\
    (forall i, (i < Z.to_nat nb)%nat ->
       compresses_to cdc ptr size nb bs i (nth i payloads []) /\
       nth i infos zero_block = block_info size nb bs i (nth i payloads [])) /\
    writes_archive cfg fname (archive_bytes infos payloads) w w'.
Proof.
  intros Hs H. unfold compressDataParallel in H. unfold split_plan.
  destruct (size <=? BIG_FILE_SIZE cfg) eqn:Esz.
  - (* one block *)
    bind_inv H. unfold compressBlock in Ha. bind_inv Ha. injection Ha as <-.
    rename a0 into src.
    destruct (compress cdc src _) as [out|] eqn:Ec; [|discriminate].
    destruct (ofstream_open _ w) as [[w1 f]|] eqn:Eo; [|discriminate].
    injection H as <-.
    destruct (single_block_src ptr size Hs) as [Hsrc Hcur].
    exists 1, size,
      [ {| originalSize := size; compressedSize := len out; blockIndex := 0 |} ],
      [ out ].
    repeat split; try reflexivity.
    + destruct i; [|simpl in H; lia]. exists src.
      rewrite Hsrc, Hcur. split; assumption.
    + destruct i; [|simpl in H; lia]. simpl.
      unfold block_info. now rewrite Hcur.
    + exists w1, f. split; [exact Eo|]. f_equal. f_equal.
      rewrite payload_whole by reflexivity.
      apply ofstream_ext; simpl; [reflexivity|].
      unfold archive_bytes. simpl List.concat. simpl map.
      change (len [_]) with 1.
      now rewrite <- !app_assoc, !app_nil_r.
  - (* several blocks *)
    apply Z.leb_gt in Esz.
    bind_inv H. rename a into nb, Ha into Hnb.
    bind_inv H. rename a into bs, Ha into Hbs.
    bind_inv H. rename a into s, Ha into Hrun.
    destruct (compressionSuccess s) eqn:Eflag; simpl in H; [|discriminate].
    destruct (ofstream_open _ w) as [[w1 f]|] eqn:Eo; [|discriminate].
    injection H as <-.
    rewrite Hnb. simpl. rewrite Hbs. simpl.
    destruct (block_count_exact cfg threshold_range size nb bs Hs Esz Hnb Hbs)
      as (_ & _ & Hrange & _).
    destruct (run_compress_Done cdc ptr size nb bs _ _ _ Hrun)
      as (L1 & L2 & _ & _ & Hok).
    simpl in L1, L2. rewrite repeat_length in L1, L2.
    destruct (Hok Eflag) as [_ Hall]. simpl in Hall.
    rewrite !repeat_length in Hall.
    assert (Hnth : forall i, (i < Z.to_nat nb)%nat ->
              compresses_to cdc ptr size nb bs i (nth i (compressedBlocks s) []) /\
              nth i (blockInfos s) zero_block
              = block_info size nb bs i (nth i (compressedBlocks s) [])).
    { intros i Hi.
      destruct (Hall i (fair_covers sch _ i sch_fair Hi)) as [out (Hc & N1 & N2)].
      rewrite (N2 Hi), (N1 Hi). auto. }
    exists nb, bs, (blockInfos s), (compressedBlocks s).
    repeat split; auto; try (apply Hnth; assumption).
    exists w1, f. split; [exact Eo|]. f_equal. f_equal.
    rewrite descriptors_written, payloads_written.
    + apply written_in_order. unfold len. rewrite L1. lia.
    + congruence.
    + intros i Hi. rewrite L1 in Hi.
      destruct (Hnth i Hi) as [_ ->]. reflexivity.
Qed.

End Compression.

(** ** The blocks tile the input *)

Lemma firstn_snoc {A : Type} (l : list A) (i : nat) (d : A) :
  (i < List.length l)%nat -> firstn (S i) l = firstn i l ++ [nth i l d].
Proof.
  revert i. induction l as [|x l IH]; intros i Hi; simpl in Hi; [lia|].
  destruct i as [|i]; [reflexivity|].
  cbn [firstn nth app]. rewrite <- IH by lia. reflexivity.
Qed.

Lemma original_total_app (a b : list DataBlock) :
  original_total (a ++ b) = original_total a + original_total b.
Proof.
  induction a as [|d a IH]; simpl; [reflexivity|]. rewrite IH. lia.
Qed.

Lemma original_total_prefix (infos : list DataBlock) (bs : Z) (k : nat) :
  (k <= List.length infos)%nat ->
  (forall i, (i < k)%nat -> originalSize (nth i infos zero_block) = bs) ->
  original_total (firstn k infos) = Z.of_nat k * bs.
Proof.
  induction k as [|k IH]; intros Hk H.
  - reflexivity.
  - rewrite (firstn_snoc infos k zero_block) by lia.
    rewrite original_total_app, IH by (try lia; intros; apply H; lia).
    cbn [original_total fold_right].
    rewrite H, Nat2Z.inj_succ by lia. lia.
Qed.

Section Tiling.

Variable ptr : list byte.
Variables size nb bs : Z.

Hypothesis size_range : SizeT.in_range size.
Hypothesis buffer_size : len ptr = size.
Hypothesis nb_range : 1 <= nb < SizeT.modulus.
Hypothesis bs_nonneg : 0 <= bs.
Hypothesis readable :
  forall i, (i < Z.to_nat nb)%nat ->
    exists src, block_src ptr size nb bs i = Done src.

Lemma sub_one : SizeT.sub nb 1 = nb - 1.
Proof.
  unfold SizeT.sub. apply wrap_small.
  unfold SizeT.in_range in *. lia.
Qed.

(** No block before the last reaches past the end of the input, so no
    offset wraps. *)
Lemma offsets_fit (i : nat) :
  (i < Z.to_nat nb)%nat -> Z.of_nat i * bs <= size.
Proof.
  induction i as [|i IH]; intros Hi.
  - unfold SizeT.in_range in size_range. lia.
  - assert (Hprev : Z.of_nat i * bs <= size) by (apply IH; lia).
    destruct (readable i ltac:(lia)) as [src Hsrc].
    unfold block_src, block_offset, currentBlockSize in Hsrc.
    rewrite sub_one in Hsrc.
    destruct (Z.of_nat i <? nb - 1) eqn:E; [|apply Z.ltb_ge in E; lia].
    unfold SizeT.mul in Hsrc. rewrite wrap_small in Hsrc
      by (unfold SizeT.in_range in *; nia).
    apply read_Done in Hsrc. lia.
Qed.

Lemma block_offset_exact (i : nat) :
  (i < Z.to_nat nb)%nat -> block_offset bs i = Z.of_nat i * bs.
Proof.
  intros Hi. unfold block_offset, SizeT.mul. apply wrap_small.
  pose proof (offsets_fit i Hi). unfold SizeT.in_range in *. nia.
Qed.

Lemma block_length_exact (i : nat) :
  (i < Z.to_nat nb)%nat ->
  currentBlockSize size nb bs i
  = if Z.of_nat i <? nb - 1 then bs else size - Z.of_nat i * bs.
Proof.
  intros Hi. unfold currentBlockSize. rewrite sub_one.
  destruct (Z.of_nat i <? nb - 1); [reflexivity|].
  rewrite block_offset_exact by exact Hi.
  unfold SizeT.sub. apply wrap_small.
  pose proof (offsets_fit i Hi). unfold SizeT.in_range in *. nia.
Qed.

Variable infos : list DataBlock.

Hypothesis infos_length : List.length infos = Z.to_nat nb.
Hypothesis infos_sizes :
  forall i, (i < Z.to_nat nb)%nat ->
    originalSize (nth i infos zero_block) = currentBlockSize size nb bs i.

Lemma prefix_total (i : nat) :
  (i < Z.to_nat nb)%nat ->
  original_total (firstn i infos) = block_offset bs i.
Proof.
  intros Hi. rewrite block_offset_exact by exact Hi.
  apply original_total_prefix; [lia|].
  intros j Hj. rewrite infos_sizes, block_length_exact by lia.
  destruct (Z.of_nat j <? nb - 1) eqn:E; [reflexivity|].
  apply Z.ltb_ge in E. lia.
Qed.

Lemma total_is_size : original_total infos = size.
Proof.
  set (n := Z.to_nat nb) in *.
  assert (Hn : (n = S (n - 1))%nat) by lia.
  rewrite <- (firstn_all infos), infos_length, Hn.
  rewrite (firstn_snoc infos (n - 1) zero_block) by lia.
  rewrite original_total_app, prefix_total by lia.
  rewrite block_offset_exact by lia. simpl.
  rewrite infos_sizes, block_length_exact by lia.
  destruct (Z.of_nat (n - 1) <? nb - 1) eqn:E; [apply Z.ltb_lt in E|]; lia.
Qed.

End Tiling.

(** ** The file tree *)

Lemma find_put_same (s : string) (v : node) (es : list (string * node)) :
  find_entry s (put_entry s v es) = Some v.
Proof.
  induction es as [|[k x] es IH]; simpl.
  - now rewrite String.eqb_refl.
  - destruct (String.eqb k s) eqn:E; simpl; rewrite E; auto.
Qed.

Lemma store_deeper (s t : string) (p : list string) (d : list byte)
      (pm : perms) (es : list (string * node)) :
  store (s :: t :: p) d (Dir pm es)
  = match find_entry s es with
    | Some c =>
        match store (t :: p) d c with
        | Some c' => Some (Dir pm (put_entry s c' es))
        | None => None
        end
    | None => None
    end.
Proof. reflexivity. Qed.

Lemma store_lookup (p : list string) (d : list byte) (n n' : node) :
  store p d n = Some n' -> lookup p n' = Some (File d).
Proof.
  revert n n'. induction p as [|s p IH]; intros n n' H.
  - destruct n; discriminate.
  - destruct n as [|pm es|]; try discriminate.
    destruct p as [|t p].
    + simpl in H.
      destruct (find_entry s es) as [[| |]|] eqn:E; try discriminate.
      * injection H as <-. simpl. now rewrite find_put_same.
      * destruct (p_write pm); [|discriminate].
        injection H as <-. simpl. now rewrite find_put_same.
    + rewrite store_deeper in H.
      destruct (find_entry s es) as [c|] eqn:E; [|discriminate].
      destruct (store (t :: p) d c) as [c'|] eqn:Ec; [|discriminate].
      injection H as <-. cbn [lookup]. rewrite find_put_same.
      apply (IH c c' Ec).
Qed.

Lemma store_again (p : list string) (d d' : list byte) (n n' : node) :
  store p d n = Some n' -> exists n'', store p d' n' = Some n''.
Proof.
  revert n n'. induction p as [|s p IH]; intros n n' H.
  - destruct n; discriminate.
  - destruct n as [|pm es|]; try discriminate.
    destruct p as [|t p].
    + simpl in H.
      assert (E' : n' = Dir pm (put_entry s (File d) es)).
      { destruct (find_entry s es) as [[| |]|]; try discriminate;
          [|destruct (p_write pm); [|discriminate]]; now injection H as <-. }
      subst n'. simpl. rewrite find_put_same. eauto.
    + rewrite store_deeper in H.
      destruct (find_entry s es) as [c|] eqn:E; [|discriminate].
      destruct (store (t :: p) d c) as [c'|] eqn:Ec; [|discriminate].
      injection H as <-. rewrite store_deeper, find_put_same.
      destruct (IH c c' Ec) as [c'' Hc'']. rewrite Hc''. eauto.
Qed.

(** A stream that was opened leaves exactly what was written in the file. *)
Lemma closed_stream_on_disk (path : string) (bytes : list byte)
      (w w1 : world) (f : ofstream) :
  ofstream_open path w = Some (w1, f) ->
  read_file path (ofstream_close (ofstream_write bytes f) w1) = Some bytes.
Proof.
  unfold ofstream_open, ofstream_close, read_file. intros H.
  destruct (store (resolve (cwd w) path) [] (root w)) as [r|] eqn:E;
    [|discriminate].
  injection H as <- <-. simpl.
  destruct (store_again _ _ bytes _ _ E) as [r' Hr']. rewrite Hr'. simpl.
  now rewrite (store_lookup _ _ _ _ Hr').
Qed.

(** A mapping that was allocated leaves the flushed buffer in the file. *)
Lemma flushed_mapping_on_disk (path : string) (sz : Z) (buf' : list byte)
      (w w1 : world) (m : mapping) (buf : list byte) :
  allocateFile path sz w = Some (w1, m, buf) ->
  buf = zeros sz /\
  read_file path (unmapFile m buf' w1) = Some buf'.
Proof.
  unfold allocateFile, unmapFile, read_file. intros H.
  destruct (store (resolve (cwd w) path) (zeros sz) (root w)) as [r|] eqn:E;
    [|discriminate].
  injection H as <- <- <-. simpl. split; [reflexivity|].
  destruct (store_again _ _ buf' _ _ E) as [r' Hr']. rewrite Hr'. simpl.
  now rewrite (store_lookup _ _ _ _ Hr').
Qed.

Lemma written_archive_on_disk (cfg : config) (fname : string)
      (archive : list byte) (w w' : world) :
  REMOVE_ORIGIN cfg = false ->
  writes_archive cfg fname archive w w' ->
  read_file (fname ++ SUFFIX cfg) w' = Some archive.
Proof.
  intros Hkeep (w1 & f & Ho & ->). unfold remove_origin. rewrite Hkeep.
  eapply closed_stream_on_disk. exact Ho.
Qed.

Lemma get_size_t_head (z : Z) (rest : list byte) :
  SizeT.in_range z -> get_size_t (put_size_t z ++ rest) 0 = Done z.
Proof.
  intros Hz. unfold get_size_t.
  pose proof (read_app_mid [] (put_size_t z) rest) as R.
  rewrite len_put_size_t in R. change (len []) with 0 in R.
  change ([] ++ put_size_t z ++ rest) with (put_size_t z ++ rest) in R.
  rewrite R. cbn [bind]. now rewrite le_value_put_size_t.
Qed.

(** ** The example collaborators *)

Lemma in_order_fair : fair Demo.in_order.
Proof. intros n. apply Permutation_refl. Qed.

Lemma backwards_fair : fair Demo.backwards.
Proof. intros n. apply Permutation_sym, Permutation_rev. Qed.

Lemma framed_ok : codec_ok Demo.framed (SizeT.modulus - 2).
Proof.
  split; simpl.
  - intros n. apply wrap_range.
  - intros src cap out H.
    destruct (len src + 1 <=? cap) eqn:E; [|discriminate].
    injection H as <-. apply Z.leb_le in E.
    unfold len in *. simpl List.length. lia.
  - intros src Hl.
    rewrite wrap_small
      by (pose proof (len_nonneg src);
          unfold SizeT.in_range, SizeT.modulus in *; lia).
    rewrite Z.leb_refl. discriminate.
  - intros src cap out H.
    destruct (len src + 1 <=? cap); [|discriminate].
    injection H as <-. now rewrite Z.leb_refl.
Qed.

Lemma framed_respects_capacity : respects_capacity Demo.framed.
Proof.
  intros src cap Hc. simpl.
  destruct src as [|b body]; [simpl; exact Hc|].
  destruct b; try (simpl; exact Hc).
  destruct (len body <=? cap) eqn:E; simpl.
  - now apply Z.leb_le in E.
  - unfold len. rewrite length_firstn. lia.
Qed.

Lemma picky_respects_capacity : respects_capacity Demo.picky.
Proof.
  intros src cap Hc.
  pose proof (framed_respects_capacity src cap Hc) as F.
  unfold Demo.picky. cbn [uncompress].
  destruct (Demo.spoils (tl src)); [simpl; exact Hc | exact F].
Qed.

(** ** The archive a successful compression writes *)

(** C2.  When compression succeeds, the archive it writes starts with the
    block count: [min (ceil (size / BIG_FILE_SIZE)) (2 * num_threads)] for an
    input above the threshold, [1] for an input at or below it. *)
Theorem archive_records_block_count :
  forall cfg cdc sch ptr size fname w w',
    fair sch ->
    SizeT.in_range (BIG_FILE_SIZE cfg) ->
    SizeT.in_range size ->
    1 <= num_threads cfg < 2 ^ 30 ->
    compressDataParallel cfg cdc sch ptr size fname w = Done (true, w') ->
    exists archive,
      writes_archive cfg fname archive w w' /\
      get_size_t archive 0 =
      Done (if size <=? BIG_FILE_SIZE cfg then 1
            else Z.min (ceil_div size (BIG_FILE_SIZE cfg))
                       (2 * num_threads cfg)).
Proof.
  intros cfg cdc sch ptr size fname w w' Hf HT Hs HP H.
  destruct (compress_true_shape cfg cdc sch Hf HT ptr size fname w w' Hs H)
    as (nb & bs & infos & payloads & Hplan & L1 & _ & _ & Hw).
  exists (archive_bytes infos payloads). split; [exact Hw|].
  destruct (split_plan_facts cfg HT size nb bs Hs Hplan) as [Hnb _].
  assert (Hlen : len infos = nb) by (unfold len; rewrite L1; lia).
  unfold archive_bytes.
  rewrite Hlen, get_size_t_head by (unfold SizeT.in_range; lia).
  f_equal. unfold split_plan in Hplan.
  destruct (size <=? BIG_FILE_SIZE cfg) eqn:E.
  - now injection Hplan as <- _.
  - apply Z.leb_gt in E. bind_inv Hplan. bind_inv Hplan.
    injection Hplan as <- <-.
    destruct (block_count_exact cfg HT size a a0 Hs E Ha Ha0) as (_ & -> & _).
    rewrite wrap_small by (unfold SizeT.in_range, SizeT.modulus; lia).
    f_equal. lia.
Qed.

(** A field is stored in eight bytes: what is on disk is the value
    modulo [2^64]. *)
Lemma le_bytes_mod (k : nat) (z : Z) :
  le_bytes k (z mod 256 ^ Z.of_nat k) = le_bytes k z.
Proof.
  revert z. induction k as [|k IH]; intros z; [reflexivity|].
  cbn [le_bytes].
  rewrite Nat2Z.inj_succ, Z.pow_succ_r by lia.
  assert (Hpos : 0 < 256 ^ Z.of_nat k) by (apply Z.pow_pos_nonneg; lia).
  rewrite Z.rem_mul_r by lia.
  set (m := (z / 256) mod 256 ^ Z.of_nat k).
  assert (E1 : (z mod 256 + 256 * m) mod 256 = z mod 256).
  { rewrite (Z.mul_comm 256 m), Z.mod_add by lia. apply Z.mod_mod. lia. }
  assert (E2 : (z mod 256 + 256 * m) / 256 = m).
  { rewrite (Z.mul_comm 256 m), Z.div_add by lia.
    rewrite (Z.div_small (z mod 256) 256) by (apply Z.mod_pos_bound; lia).
    lia. }
  unfold byte_of_Z. rewrite E1, E2. f_equal. apply IH.
Qed.

Lemma put_size_t_wrap (z : Z) : put_size_t (SizeT.wrap z) = put_size_t z.
Proof. apply (le_bytes_mod WORD z). Qed.

Lemma put_DataBlock_stored (d : DataBlock) :
  put_DataBlock (set_compressedSize (SizeT.wrap (compressedSize d)) d)
  = put_DataBlock d.
Proof.
  unfold put_DataBlock, set_compressedSize. cbn [originalSize compressedSize blockIndex].
  now rewrite put_size_t_wrap.
Qed.

(** C3.  In every archive that compression writes, the original sizes in
    the descriptor table add up to the size of the input buffer: the table
    on disk holds [size_t] fields, and the sum is that of the fields as
    they are stored, without wrap-around. *)
Theorem descriptor_sizes_sum_to_input :
  forall cfg cdc sch ptr size fname w w',
    fair sch ->
    SizeT.in_range (BIG_FILE_SIZE cfg) ->
    SizeT.in_range size ->
    len ptr = size ->
    compressDataParallel cfg cdc sch ptr size fname w = Done (true, w') ->
    exists infos payloads,
      writes_archive cfg fname (archive_bytes infos payloads) w w' /\
      Forall well_sized infos /\
      original_total infos = size.
Proof.
  intros cfg cdc sch ptr size fname w w' Hf HT Hs Hlen H.
  destruct (compress_true_shape cfg cdc sch Hf HT ptr size fname w w' Hs H)
    as (nb & bs & infos & payloads & Hplan & L1 & _ & Hall & Hw).
  destruct (split_plan_facts cfg HT size nb bs Hs Hplan) as [Hnb Hbs].
  assert (Hsum : original_total infos = size).
  { apply (total_is_size ptr size nb bs Hs Hlen Hnb Hbs); auto.
    - intros i Hi. destruct (Hall i Hi) as [[src [Hsrc _]] _]. eauto.
    - intros i Hi. destruct (Hall i Hi) as [_ ->]. reflexivity. }
  set (stored := fun d => set_compressedSize (SizeT.wrap (compressedSize d)) d).
  exists (map stored infos), payloads. split; [|split].
  - replace (archive_bytes (map stored infos) payloads)
      with (archive_bytes infos payloads); [exact Hw|].
    unfold archive_bytes, len. rewrite length_map, map_map.
    f_equal. f_equal. f_equal. apply map_ext. intros d. symmetry.
    apply put_DataBlock_stored.
  - apply Forall_forall. intros x Hx.
    apply in_map_iff in Hx. destruct Hx as (d & <- & Hd).
    destruct (In_nth infos d zero_block Hd) as (i & Hi & Hnth).
    rewrite L1 in Hi. destruct (Hall i Hi) as [[src [Hsrc _]] Hinfo].
    subst d. unfold stored. rewrite Hinfo.
    unfold block_src in Hsrc. apply read_Done in Hsrc.
    unfold well_sized, set_compressedSize, block_info.
    cbn [originalSize compressedSize blockIndex].
    split; [|split].
    + unfold SizeT.in_range in *. lia.
    + apply wrap_range.
    + unfold SizeT.in_range in *. lia.
  - rewrite <- Hsum. clear.
    induction infos as [|d infos IH]; [reflexivity|].
    cbn [map original_total fold_right]. fold (original_total infos).
    fold (original_total (map stored infos)). rewrite IH. reflexivity.
Qed.


(** C6.  When the blocks of the input can be read and the codec call fails
    on one of them, in single-block or in multi-block mode, or when the
    output file cannot be opened, compression returns [false] and leaves
    the file tree as it was: no archive is written. *)
Theorem failed_compression_writes_nothing :
  forall cfg cdc sch ptr size fname w nb bs,
    fair sch ->
    SizeT.in_range size ->
    split_plan cfg size = Done (nb, bs) ->
    (forall i, (i < Z.to_nat nb)%nat ->
       exists src, block_src ptr size nb bs i = Done src) ->
    (exists i, (i < Z.to_nat nb)%nat /\ block_fails cdc ptr size nb bs i) \/
    ofstream_open (fname ++ SUFFIX cfg) w = None ->
    compressDataParallel cfg cdc sch ptr size fname w = Done (false, w).
Proof.
  intros cfg cdc sch ptr size fname w nb bs Hf Hs Hplan Hread Hbad.
  unfold split_plan in Hplan. unfold compressDataParallel.
  destruct (size <=? BIG_FILE_SIZE cfg) eqn:E.
  - injection Hplan as <- <-.
    destruct (single_block_src ptr size Hs) as [Hsrc Hcur].
    destruct (Hread O ltac:(simpl; lia)) as [src Hr].
    rewrite Hsrc in Hr. unfold compressBlock. rewrite Hr. cbn [bind].
    destruct (compress cdc src (compressBound cdc size)) as [out|] eqn:Ec;
      [|reflexivity].
    destruct Hbad as [[i [Hi [src' [Hs' Hc']]]]|Ho].
    + destruct i; [|simpl in Hi; lia].
      rewrite Hsrc, Hr in Hs'. injection Hs' as <-.
      rewrite Hcur in Hc'. congruence.
    + now rewrite Ho.
  - bind_inv Hplan. rename a into nb', Ha into Hnb.
    bind_inv Hplan. rename a into bs', Ha into Hbs.
    injection Hplan as -> ->.
    rewrite Hnb. cbn [bind]. rewrite Hbs. cbn [bind].
    destruct (run_compress_total cdc ptr size nb bs (sch (Z.to_nat nb))
                {| blockInfos := repeat zero_block (Z.to_nat nb);
                   compressedBlocks := repeat [] (Z.to_nat nb);
                   compressionSuccess := true |}) as [s Hrun].
    { intros i Hi. apply Hread. eapply fair_within; eauto. }
    rewrite Hrun. cbn [bind].
    destruct (run_compress_Done cdc ptr size nb bs _ _ _ Hrun)
      as (_ & _ & _ & Hfail & _).
    destruct Hbad as [[i [Hi Hfi]]|Ho].
    + rewrite Hfail; [reflexivity|].
      exists i. split; [apply fair_covers; assumption | exact Hfi].
    + destruct (compressionSuccess s); [|reflexivity]. cbn [negb].
      now rewrite Ho.
Qed.

Lemma archive_records_block_count_example :
  exists w' archive,
    compressDataParallel (Demo.settings 4 1) Demo.framed Demo.backwards
      Demo.sample 10 "f" Demo.empty = Done (true, w') /\
    writes_archive (Demo.settings 4 1) "f" archive Demo.empty w' /\
    get_size_t archive 0 = Done 2.
Proof.
  destruct (compressDataParallel (Demo.settings 4 1) Demo.framed Demo.backwards
              Demo.sample 10 "f" Demo.empty) as [[b w']|e] eqn:H;
    [destruct b|]; try (vm_compute in H; discriminate H).
  destruct (archive_records_block_count
              (Demo.settings 4 1) Demo.framed Demo.backwards
              Demo.sample 10 "f" Demo.empty w' backwards_fair)
    as [archive [Hw Hg]].
  - vm_compute. split; [discriminate | reflexivity].
  - vm_compute. split; [discriminate | reflexivity].
  - simpl. lia.
  - exact H.
  - exists w', archive. repeat split; assumption.
Defined.

Lemma descriptor_sizes_sum_to_input_example :
  exists w' infos payloads,
    compressDataParallel (Demo.settings 4 4) Demo.framed Demo.backwards
      Demo.sample 10 "f" Demo.empty = Done (true, w') /\
    writes_archive (Demo.settings 4 4) "f" (archive_bytes infos payloads)
      Demo.empty w' /\
    Forall well_sized infos /\
    original_total infos = 10.
Proof.
  destruct (compressDataParallel (Demo.settings 4 4) Demo.framed Demo.backwards
              Demo.sample 10 "f" Demo.empty) as [[b w']|e] eqn:H;
    [destruct b|]; try (vm_compute in H; discriminate H).
  destruct (descriptor_sizes_sum_to_input
              (Demo.settings 4 4) Demo.framed Demo.backwards
              Demo.sample 10 "f" Demo.empty w' backwards_fair)
    as [infos [payloads [Hw [Hwell Hsum]]]].
  - vm_compute. split; [discriminate | reflexivity].
  - vm_compute. split; [discriminate | reflexivity].
  - reflexivity.
  - exact H.
  - exists w', infos, payloads.
    split; [reflexivity|]. split; [exact Hw|]. split; [exact Hwell | exact Hsum].
Defined.


Lemma failed_compression_writes_nothing_example :
  compressDataParallel (Demo.settings 4 4) Demo.picky Demo.in_order
    Demo.spoiled 10 "f" Demo.empty = Done (false, Demo.empty) /\
  compressDataParallel (Demo.settings 20 4) Demo.framed Demo.in_order
    Demo.sample 10 "f" (Demo.start (Dir Demo.locked []))
  = Done (false, Demo.start (Dir Demo.locked [])).
Proof.
  split.
  - apply (failed_compression_writes_nothing
             (Demo.settings 4 4) Demo.picky Demo.in_order
             Demo.spoiled 10 "f" Demo.empty 3 4 in_order_fair).
    + vm_compute. split; [discriminate | reflexivity].
    + reflexivity.
    + intros i Hi.
      destruct i as [|[|[|i]]];
        [eexists; vm_compute; reflexivity .. | simpl in Hi; lia].
    + left. exists 1%nat. split; [simpl; lia|].
      eexists. split; vm_compute; reflexivity.
  - apply (failed_compression_writes_nothing
             (Demo.settings 20 4) Demo.framed Demo.in_order
             Demo.sample 10 "f" (Demo.start (Dir Demo.locked [])) 1 10
             in_order_fair).
    + vm_compute. split; [discriminate | reflexivity].
    + reflexivity.
    + intros i Hi.
      destruct i as [|i];
        [eexists; vm_compute; reflexivity | simpl in Hi; lia].
    + right. reflexivity.
Defined.

(** ** Output offsets *)

Lemma original_total_nonneg (infos : list DataBlock) :
  Forall (fun d => 0 <= originalSize d) infos -> 0 <= original_total infos.
Proof.
  induction 1 as [|d l Hd _ IH]; simpl; lia.
Qed.

Lemma total_size_from (infos : list DataBlock) (acc : Z) :
  Forall (fun d => 0 <= originalSize d) infos ->
  0 <= acc -> acc + original_total infos < SizeT.modulus ->
  fold_left (fun a b => SizeT.add a (originalSize b)) infos acc
  = acc + original_total infos.
Proof.
  intros Hall. revert acc.
  induction Hall as [|d l Hd Hl IH]; intros acc Ha Hlt; simpl in *.
  - lia.
  - pose proof (original_total_nonneg l Hl).
    unfold SizeT.add at 2. rewrite wrap_small by (unfold SizeT.in_range; lia).
    rewrite IH by lia. lia.
Qed.

Lemma total_size_exact (infos : list DataBlock) :
  sizes_fit infos -> total_size infos = original_total infos.
Proof.
  intros [Hall Hlt]. unfold total_size.
  rewrite total_size_from; auto; lia.
Qed.

Lemma Forall_firstn {A : Type} (P : A -> Prop) (n : nat) (l : list A) :
  Forall P l -> Forall P (firstn n l).
Proof.
  intros H. revert n. induction H as [|x l Hx _ IH]; intros [|n]; simpl; auto.
Qed.

Lemma Forall_skipn {A : Type} (P : A -> Prop) (n : nat) (l : list A) :
  Forall P l -> Forall P (skipn n l).
Proof.
  intros H. revert n. induction H as [|x l Hx Hl IH]; intros [|n]; simpl; auto.
Qed.

Section Offsets.

Variable infos : list DataBlock.
Hypothesis fit : sizes_fit infos.

Lemma prefix_and_rest (i : nat) :
  original_total infos
  = original_total (firstn i infos) + original_total (skipn i infos).
Proof. now rewrite <- original_total_app, firstn_skipn. Qed.

Lemma prefix_fits (i : nat) : sizes_fit (firstn i infos).
Proof.
  destruct fit as [Hall Hlt]. split; [now apply Forall_firstn|].
  rewrite (prefix_and_rest i) in Hlt.
  pose proof (original_total_nonneg _ (Forall_skipn _ i _ Hall)). lia.
Qed.

Lemma output_offset_exact (i : nat) :
  total_size (firstn i infos) = original_total (firstn i infos).
Proof. apply total_size_exact, prefix_fits. Qed.

Lemma size_nonneg (i : nat) : 0 <= originalSize (nth i infos zero_block).
Proof.
  destruct fit as [Hall _].
  destruct (Nat.lt_ge_cases i (List.length infos)) as [Hi|Hi].
  - apply (proj1 (Forall_forall _ _) Hall). now apply nth_In.
  - rewrite nth_overflow by exact Hi. simpl. lia.
Qed.

Lemma next_offset (i : nat) :
  (i < List.length infos)%nat ->
  original_total (firstn (S i) infos)
  = original_total (firstn i infos) + originalSize (nth i infos zero_block).
Proof.
  intros Hi. rewrite (firstn_snoc infos i zero_block) by exact Hi.
  rewrite original_total_app. simpl. lia.
Qed.

Lemma offsets_monotone (i j : nat) :
  (i <= j)%nat ->
  original_total (firstn i infos) <= original_total (firstn j infos).
Proof.
  intros Hij. replace j with (i + (j - i))%nat by lia.
  rewrite <- (firstn_skipn i (firstn (i + (j - i)) infos)).
  rewrite firstn_firstn, Nat.min_l by lia.
  rewrite original_total_app.
  assert (0 <= original_total (skipn i (firstn (i + (j - i)) infos))).
  { apply original_total_nonneg, Forall_skipn, Forall_firstn, fit. }
  lia.
Qed.

Lemma offset_in_total (i : nat) :
  original_total (firstn i infos) <= original_total infos.
Proof.
  rewrite (prefix_and_rest i).
  pose proof (original_total_nonneg _ (Forall_skipn _ i _ (proj1 fit))). lia.
Qed.

(** The output ranges of two different blocks do not overlap. *)
Lemma ranges_disjoint (i j : nat) :
  (i < List.length infos)%nat -> (j < List.length infos)%nat -> i <> j ->
  original_total (firstn i infos) + originalSize (nth i infos zero_block)
  <= original_total (firstn j infos) \/
  original_total (firstn j infos) + originalSize (nth j infos zero_block)
  <= original_total (firstn i infos).
Proof.
  intros Hi Hj Hne.
  destruct (Nat.lt_ge_cases i j) as [Hlt|Hge].
  - left. rewrite <- next_offset by exact Hi. apply offsets_monotone. lia.
  - right. rewrite <- next_offset by exact Hj. apply offsets_monotone. lia.
Qed.

Lemma range_in_total (i : nat) :
  (i < List.length infos)%nat ->
  original_total (firstn i infos) + originalSize (nth i infos zero_block)
  <= original_total infos.
Proof.
  intros Hi. rewrite <- next_offset by exact Hi. apply offset_in_total.
Qed.

End Offsets.

(** ** The decompression task loop *)

Section DecompressTasks.

Variable cdc : codec.
Variable ptr : list byte.
Variable infos : list DataBlock.

Hypothesis fit : sizes_fit infos.
Hypothesis honest : respects_capacity cdc.

Let starts := block_starts (Z.of_nat WORD + len infos * Z.of_nat DESC) infos.
Let offset (i : nat) := original_total (firstn i infos).
Let extent (i : nat) := originalSize (nth i infos zero_block).

Lemma decompress_task_Done (i : nat) (s s' : dstate) :
  decompress_task cdc ptr infos starts i s = Done s' ->
  exists ok out,
    inflates_to cdc ptr infos i ok out /\
    len out <= extent i /\
    write_at (decompressed_data s) (offset i) out = Done (decompressed_data s') /\
    decompressionSuccess s' = (if ok then decompressionSuccess s else false).
Proof.
  unfold decompress_task, decompressBlock. intros H.
  bind_inv H. bind_inv Ha. rename a0 into src.
  destruct (uncompress cdc src _) as [ok out] eqn:Eu.
  bind_inv Ha. injection Ha as <-. injection H as <-. simpl.
  rewrite output_offset_exact in Ha1 by exact fit.
  exists ok, out. repeat split; auto.
  - exists src. split; [exact Ha0 | exact Eu].
  - pose proof (honest src (extent i) (size_nonneg infos fit i)) as Hc.
    unfold extent in *. rewrite Eu in Hc. exact Hc.
Qed.

Lemma decompress_task_total (i : nat) (s : dstate) (src : list byte) :
  (i < List.length infos)%nat ->
  block_input ptr infos i = Done src ->
  len (decompressed_data s) = original_total infos ->
  exists s', decompress_task cdc ptr infos starts i s = Done s'.
Proof.
  intros Hi Hsrc Hlen. unfold decompress_task, decompressBlock.
  unfold block_input in Hsrc. fold starts in Hsrc. rewrite Hsrc. cbn [bind].
  destruct (uncompress cdc src _) as [ok out] eqn:Eu.
  rewrite output_offset_exact by exact fit.
  pose proof (honest src (extent i) (size_nonneg infos fit i)) as Hc.
  unfold extent in Hc. rewrite Eu in Hc. simpl in Hc.
  destruct (write_at_in_bounds (decompressed_data s) (offset i) out) as [b Hb].
  - apply original_total_nonneg, Forall_firstn, fit.
  - rewrite Hlen. pose proof (range_in_total infos fit i Hi).
    unfold offset. lia.
  - fold (offset i). rewrite Hb. cbn [bind]. eauto.
Qed.

Lemma run_decompress_total (order : list nat) (s : dstate) :
  (forall i, In i order ->
     (i < List.length infos)%nat /\
     exists src, block_input ptr infos i = Done src) ->
  len (decompressed_data s) = original_total infos ->
  exists s', run_tasks (decompress_task cdc ptr infos starts) order s = Done s'.
Proof.
  revert s. induction order as [|k rest IH]; intros s Hall Hlen; simpl.
  - eauto.
  - destruct (Hall k (or_introl eq_refl)) as [Hk [src Hsrc]].
    destruct (decompress_task_total k s src Hk Hsrc Hlen) as [s1 H1].
    rewrite H1. cbn [bind]. apply IH.
    + intros i Hi. apply Hall. now right.
    + destruct (decompress_task_Done k s s1 H1) as (ok & out & _ & _ & Hw & _).
      apply write_at_Done in Hw. destruct Hw as (_ & _ & -> & _). exact Hlen.
Qed.

Lemma inflates_once (i : nat) (ok ok' : bool) (out out' : list byte) :
  inflates_to cdc ptr infos i ok out ->
  inflates_to cdc ptr infos i ok' out' ->
  ok = ok' /\ out = out'.
Proof.
  intros [src [Hs Hu]] [src' [Hs' Hu']].
  rewrite Hs in Hs'. injection Hs' as <-.
  rewrite Hu in Hu'. now injection Hu' as <- <-.
Qed.

Lemma run_decompress_Done (order : list nat) (s s' : dstate) :
  (forall i, In i order -> (i < List.length infos)%nat) ->
  run_tasks (decompress_task cdc ptr infos starts) order s = Done s' ->
  len (decompressed_data s') = len (decompressed_data s) /\
  (forall o n,
     (forall j, In j order -> o + n <= offset j \/ offset j + extent j <= o) ->
     read (decompressed_data s') o n = read (decompressed_data s) o n) /\
  (forall i, In i order ->
     exists ok out,
       inflates_to cdc ptr infos i ok out /\
       read (decompressed_data s') (offset i) (len out) = Done out) /\
  (decompressionSuccess s' = true ->
     decompressionSuccess s = true /\
     forall i, In i order -> exists out, inflates_to cdc ptr infos i true out) /\
  ((exists i out, In i order /\ inflates_to cdc ptr infos i false out) ->
     decompressionSuccess s' = false).
Proof.
  revert s. induction order as [|k rest IH]; intros s Hin H; simpl in H.
  - injection H as <-. repeat split; auto.
    + intros i [].
    + intros i [].
    + intros (i & out & [] & _).
  - bind_inv H. rename a into s1.
    destruct (decompress_task_Done k s s1 Ha)
      as (ok & out & Hinf & Hle & Hw & Hflag).
    destruct (IH s1 (fun i Hi => Hin i (or_intror Hi)) H)
      as (L & Frame & Stored & Good & Bad).
    assert (Hkeep : forall o n,
               o + n <= offset k \/ offset k + extent k <= o ->
               read (decompressed_data s1) o n = read (decompressed_data s) o n).
    { intros o n Hd. apply (read_write_other _ _ _ _ _ _ Hw). lia. }
    split; [|split; [|split; [|split]]].
    + apply write_at_Done in Hw. destruct Hw as (_ & _ & Hl & _). congruence.
    + intros o n Hd. rewrite Frame by (intros j Hj; apply Hd; now right).
      apply Hkeep, Hd. now left.
    + intros i Hi.
      destruct (in_dec Nat.eq_dec i rest) as [Hr|Hr]; [now apply Stored|].
      destruct Hi as [<-|Hi]; [|contradiction].
      exists ok, out. split; [exact Hinf|].
      rewrite Frame.
      * apply (read_write_same _ _ _ _ Hw).
      * intros j Hj.
        assert (Hne : k <> j) by (intros ->; contradiction).
        destruct (ranges_disjoint infos fit k j) as [D|D]; auto.
        -- apply Hin. now left.
        -- apply Hin. now right.
        -- fold (offset k) (extent k) (offset j) in D. lia.
    + intros F. destruct (Good F) as [F1 Gall].
      rewrite Hflag in F1. destruct ok; [|discriminate].
      split; [exact F1|].
      intros i [<-|Hi]; [eauto | now apply Gall].
    + intros (i & o & [<-|Hi] & Hf).
      * destruct (inflates_once _ _ _ _ _ Hinf Hf) as [-> _].
        destruct (decompressionSuccess s'); [|reflexivity].
        destruct (Good eq_refl) as [F1 _]. congruence.
      * apply Bad. eauto.
Qed.

Lemma run_decompress_flag (order : list nat) (s s' : dstate) :
  run_tasks (decompress_task cdc ptr infos starts) order s = Done s' ->
  (forall i, In i order -> exists out, inflates_to cdc ptr infos i true out) ->
  decompressionSuccess s' = decompressionSuccess s.
Proof.
  revert s. induction order as [|k rest IH]; intros s H Hall; simpl in H.
  - now injection H as <-.
  - bind_inv H.
    destruct (decompress_task_Done _ _ _ Ha) as (ok & out & Hinf & _ & _ & E).
    destruct (Hall k (or_introl eq_refl)) as [out' Hinf'].
    destruct (inflates_once _ _ _ _ _ Hinf Hinf') as [-> _].
    rewrite <- E. apply IH; [exact H|]. intros i Hi. apply Hall. now right.
Qed.

End DecompressTasks.

(** ** Reading the archive header *)

Lemma Z_of_byte_range (b : byte) : 0 <= Z_of_byte b < 256.
Proof.
  unfold Z_of_byte. pose proof (Byte.to_N_bounded b). lia.
Qed.

Lemma le_value_range (bs : list byte) :
  0 <= le_value bs < 256 ^ len bs.
Proof.
  induction bs as [|b bs IH].
  - simpl. lia.
  - cbn [le_value]. unfold len in *. cbn [List.length].
    rewrite Nat2Z.inj_succ, Z.pow_succ_r by lia.
    pose proof (Z_of_byte_range b). lia.
Qed.

Lemma get_size_t_range (buf : list byte) (off v : Z) :
  get_size_t buf off = Done v -> SizeT.in_range v.
Proof.
  unfold get_size_t. intros H. bind_inv H. injection H as <-.
  apply read_Done in Ha. destruct Ha as (_ & _ & _ & Hl & _).
  pose proof (le_value_range a) as R. rewrite Hl in R. exact R.
Qed.

Lemma get_DataBlock_range (buf : list byte) (off : Z) (d : DataBlock) :
  get_DataBlock buf off = Done d ->
  SizeT.in_range (originalSize d) /\ SizeT.in_range (compressedSize d) /\
  SizeT.in_range (blockIndex d).
Proof.
  unfold get_DataBlock. intros H.
  bind_inv H. bind_inv H. bind_inv H. injection H as <-. simpl.
  repeat split; eapply get_size_t_range; eauto.
Qed.

Lemma read_infos_Done (buf : list byte) (off : Z) (n : nat) (infos : list DataBlock) :
  read_infos buf off n = Done infos ->
  List.length infos = n /\
  Forall (fun d => 0 <= originalSize d) infos /\
  (forall i, (i < n)%nat ->
     get_DataBlock buf (off + Z.of_nat i * Z.of_nat DESC)
     = Done (nth i infos zero_block)).
Proof.
  revert off infos. induction n as [|n IH]; intros off infos H; simpl in H.
  - injection H as <-. repeat split; auto. intros i Hi. lia.
  - bind_inv H. bind_inv H. injection H as <-.
    destruct (IH _ _ Ha0) as (L & F & N).
    split; [simpl; congruence|]. split.
    + constructor; [|exact F].
      apply get_DataBlock_range in Ha. unfold SizeT.in_range in Ha. tauto.
    + intros [|i] Hi.
      * simpl nth. rewrite <- Ha. f_equal. simpl. ring.
      * simpl nth. rewrite <- N by lia. f_equal.
        change (Z.of_nat DESC) with 24. lia.
Qed.

(** ** Decompression of a readable archive *)

Section Decompression.

Variable cfg : config.
Variable cdc : codec.
Variable sch : scheduler.

Hypothesis sch_fair : fair sch.
Hypothesis honest : respects_capacity cdc.

Variable ptr : list byte.
Variable fname : string.
Variable w : world.
Variable numBlocks : Z.
Variable infos : list DataBlock.
Variable outfile : string.
Variable w1 : world.
Variable m : mapping.
Variable buf0 : list byte.

Hypothesis header : get_size_t ptr 0 = Done numBlocks.
Hypothesis table :
  read_infos ptr (Z.of_nat WORD) (Z.to_nat numBlocks) = Done infos.
Hypothesis no_wrap : original_total infos < SizeT.modulus.
Hypothesis named : outfile_name cfg fname = Done outfile.
Hypothesis allocated :
  allocateFile outfile (original_total infos) w = Some (w1, m, buf0).
Hypothesis readable :
  forall i, (i < List.length infos)%nat ->
    exists src, block_input ptr infos i = Done src.

Lemma table_fits : sizes_fit infos.
Proof.
  split; [|exact no_wrap].
  apply read_infos_Done in table. tauto.
Qed.

Lemma table_length : List.length infos = Z.to_nat numBlocks.
Proof. apply read_infos_Done in table. tauto. Qed.

Lemma fresh_buffer : len buf0 = original_total infos.
Proof.
  pose proof allocated as A. unfold allocateFile in A.
  destruct (store _ _ _); [|discriminate].
  injection A as E1 E2 E3. rewrite <- E3.
  apply len_zeros, original_total_nonneg, table_fits.
Qed.

(** The call returns; every block's output is in place in the flushed
    buffer; the result is [true] exactly when no codec call failed. *)
Lemma decompress_runs :
  exists (buf : list byte) (ok : bool),
    decompressDataParallel cfg cdc sch ptr fname w
    = Done (if ok then (true, remove_origin cfg fname (unmapFile m buf w1))
            else (false, unmapFile m buf w1)) /\
    len buf = original_total infos /\
    (forall i, (i < List.length infos)%nat ->
       exists oki out,
         inflates_to cdc ptr infos i oki out /\
         read buf (original_total (firstn i infos)) (len out) = Done out) /\
    (ok = true ->
       forall i, (i < List.length infos)%nat ->
         exists out, inflates_to cdc ptr infos i true out) /\
    ((exists i out, (i < List.length infos)%nat /\
                    inflates_to cdc ptr infos i false out) -> ok = false) /\
    ((forall i, (i < List.length infos)%nat ->
        exists out, inflates_to cdc ptr infos i true out) -> ok = true).
Proof.
  pose proof table_fits as fit.
  pose proof table_length as L.
  pose proof fresh_buffer as Hbuf.
  set (starts := block_starts (Z.of_nat WORD + len infos * Z.of_nat DESC) infos).
  set (order := if numBlocks =? 1 then [O] else sch (Z.to_nat numBlocks)).
  assert (Horder : forall i, In i order <-> (i < List.length infos)%nat).
  { intros i. unfold order. rewrite L.
    destruct (numBlocks =? 1) eqn:E.
    - apply Z.eqb_eq in E. rewrite E. simpl. lia.
    - split; [apply fair_within | apply fair_covers]; exact sch_fair. }
  destruct (run_decompress_total cdc ptr infos fit honest order
              {| decompressed_data := buf0; decompressionSuccess := true |})
    as [s Hrun].
  { intros i Hi. apply Horder in Hi. split; [exact Hi | now apply readable]. }
  { exact Hbuf. }
  destruct (run_decompress_Done cdc ptr infos fit honest order _ s
              (fun i Hi => proj1 (Horder i) Hi) Hrun)
    as (Hlen & _ & Stored & Good & Bad).
  exists (decompressed_data s), (decompressionSuccess s).
  split; [|split; [|split; [|split; [|split]]]].
  - unfold decompressDataParallel. rewrite header. cbn [bind].
    unfold order in Hrun.
    destruct (numBlocks =? 1) eqn:E.
    + apply Z.eqb_eq in E. rewrite E in *.
      destruct infos as [|d [|d' rest]]; try discriminate L.
      destruct (read_infos_Done _ _ _ _ table) as (_ & _ & Hd).
      specialize (Hd O ltac:(simpl; lia)).
      change (get_DataBlock ptr (Z.of_nat WORD) = Done d) in Hd.
      rewrite Hd. cbn [bind]. rewrite named. cbn [bind].
      replace (originalSize d) with (original_total [d]) at 1
        by (simpl; lia).
      rewrite allocated.
      cbn [run_tasks] in Hrun. bind_inv Hrun. injection Hrun as <-.
      unfold decompress_task in Ha. bind_inv Ha.
      change (total_size (firstn 0 [d])) with 0 in Ha0.
      change (nth 0 [d] zero_block) with d in Ha0.
      change (nth 0 (block_starts (Z.of_nat WORD + len [d] * Z.of_nat DESC) [d]) 0)
        with (Z.of_nat WORD + Z.of_nat DESC) in Ha0.
      cbn [decompressed_data] in Ha0. rewrite Ha0. cbn [bind].
      destruct a0 as [success buf']. injection Ha as <-. simpl.
      destruct success; reflexivity.
    + rewrite table. cbn [bind]. rewrite named. cbn [bind].
      rewrite (total_size_exact infos fit), allocated.
      replace (Z.of_nat WORD + Z.of_nat (Z.to_nat numBlocks) * Z.of_nat DESC)
        with (Z.of_nat WORD + len infos * Z.of_nat DESC)
        by (unfold len; now rewrite L).
      unfold starts in Hrun. rewrite Hrun. cbn [bind].
      destruct (decompressionSuccess s); reflexivity.
  - rewrite Hlen. exact Hbuf.
  - intros i Hi. apply Stored, Horder, Hi.
  - intros F i Hi. destruct (Good F) as [_ G]. apply G, Horder, Hi.
  - intros (i & out & Hi & Hf). apply Bad. exists i, out.
    split; [apply Horder, Hi | exact Hf].
  - intros Hall.
    rewrite (run_decompress_flag cdc ptr infos fit honest order _ s Hrun).
    + reflexivity.
    + intros i Hi. apply Hall, Horder, Hi.
Qed.

End Decompression.

(** C7.  When a block of a readable archive fails to decompress, the call
    still returns, with [false]; the output file exists with the total
    original size, holding the flushed buffer; and the output of every
    block's codec call, the siblings of the failed block included, is in
    that buffer at the block's offset. *)
Theorem failed_block_leaves_output_file :
  forall cfg cdc sch ptr fname w numBlocks infos outfile w1 m buf0,
    fair sch ->
    respects_capacity cdc ->
    get_size_t ptr 0 = Done numBlocks ->
    read_infos ptr (Z.of_nat WORD) (Z.to_nat numBlocks) = Done infos ->
    original_total infos < SizeT.modulus ->
    outfile_name cfg fname = Done outfile ->
    allocateFile outfile (original_total infos) w = Some (w1, m, buf0) ->
    (forall i, (i < List.length infos)%nat ->
       exists src, block_input ptr infos i = Done src) ->
    (exists k out, (k < List.length infos)%nat /\
                   inflates_to cdc ptr infos k false out) ->
    exists buf,
      decompressDataParallel cfg cdc sch ptr fname w
      = Done (false, unmapFile m buf w1) /\
      read_file outfile (unmapFile m buf w1) = Some buf /\
      len buf = original_total infos /\
      forall i ok out,
        (i < List.length infos)%nat ->
        inflates_to cdc ptr infos i ok out ->
        read buf (original_total (firstn i infos)) (len out) = Done out.
Proof.
  intros cfg cdc sch ptr fname w numBlocks infos outfile w1 m buf0
         Hf Hc Hn Ht Hw Ho Ha Hr Hbad.
  destruct (decompress_runs cfg cdc sch Hf Hc ptr fname w numBlocks infos
              outfile w1 m buf0 Hn Ht Hw Ho Ha Hr)
    as (buf & ok & Hrun & Hlen & Stored & _ & Bad & _).
  rewrite (Bad Hbad) in Hrun.
  exists buf. split; [exact Hrun|]. split; [|split; [exact Hlen|]].
  - eapply flushed_mapping_on_disk. exact Ha.
  - intros i oki out Hi Hinf.
    destruct (Stored i Hi) as (ok' & out' & Hinf' & Hread).
    destruct (inflates_once cdc ptr infos i _ _ _ _ Hinf Hinf') as [_ ->].
    exact Hread.
Qed.

Lemma failed_block_leaves_output_file_example :
  exists w' buf,
    decompressDataParallel (Demo.settings 4 4) Demo.picky Demo.backwards
      Demo.spoiled_archive "f.zip" Demo.empty = Done (false, w') /\
    read_file "f" w' = Some buf /\
    len buf = 10 /\
    read buf 0 4 = Done (Demo.bytes "0123") /\
    read buf 8 2 = Done (Demo.bytes "89").
Proof.
  destruct (allocateFile "f" 10 Demo.empty) as [[[w1 m] buf0]|] eqn:EA;
    [|vm_compute in EA; discriminate EA].
  destruct (failed_block_leaves_output_file
              (Demo.settings 4 4) Demo.picky Demo.backwards
              Demo.spoiled_archive "f.zip" Demo.empty 3
              [Demo.descriptor 4 5 0; Demo.descriptor 4 5 1;
               Demo.descriptor 2 3 2]
              "f" w1 m buf0 backwards_fair picky_respects_capacity)
    as (buf & Hrun & Hfile & Hlen & Hall).
  - reflexivity.
  - reflexivity.
  - reflexivity.
  - reflexivity.
  - exact EA.
  - intros i Hi.
    destruct i as [|[|[|i]]];
      [eexists; vm_compute; reflexivity .. | simpl in Hi; lia].
  - exists 1%nat. eexists. split; [simpl; lia|].
    eexists. split; vm_compute; reflexivity.
  - exists (unmapFile m buf w1), buf.
    split; [exact Hrun|]. split; [exact Hfile|]. split; [exact Hlen|]. split.
    + apply (Hall 0%nat true (Demo.bytes "0123")); [simpl; lia|].
      eexists. split; vm_compute; reflexivity.
    + apply (Hall 2%nat true (Demo.bytes "89")); [simpl; lia|].
      eexists. split; vm_compute; reflexivity.
Defined.

(** ** When the cap on the block count binds *)

Lemma run_compress_reads (cdc : codec) (ptr : list byte) (size nb bs : Z)
      (order : list nat) (s s' : cstate) :
  run_tasks (compress_task cdc ptr size nb bs) order s = Done s' ->
  forall i, In i order -> exists src, block_src ptr size nb bs i = Done src.
Proof.
  revert s. induction order as [|k rest IH]; intros s H i Hi; simpl in *.
  - contradiction.
  - bind_inv H. destruct Hi as [<-|Hi]; [|eapply IH; eauto].
    destruct (compress_task_Done _ _ _ _ _ _ _ _ Ha) as (_ & _ & _ & [[F _]|[o [C _]]]).
    + destruct F as [src [Hs _]]. eauto.
    + destruct C as [src [Hs _]]. eauto.
Qed.

(** With ten bytes, a threshold of one byte and four threads, no codec and
    no schedule lets compression return: block 5 lies outside the input. *)
Lemma capped_split_never_returns (cdc : codec) (sch : scheduler)
      (fname : string) (w : world) (r : bool * world) :
  fair sch ->
  compressDataParallel (Demo.settings 1 4) cdc sch Demo.sample 10 fname w
  <> Done r.
Proof.
  intros Hf H. unfold compressDataParallel in H.
  change (10 <=? BIG_FILE_SIZE (Demo.settings 1 4)) with false in H.
  cbv iota in H.
  change (block_count (Demo.settings 1 4) 10) with (@Done Z 8) in H.
  cbn [bind] in H.
  change (block_size 10 8) with (@Done Z 2) in H. cbn [bind] in H.
  bind_inv H.
  destruct (run_compress_reads _ _ _ _ _ _ _ _ Ha 5%nat) as [src Hsrc].
  - apply fair_covers; [exact Hf | simpl; lia].
  - vm_compute in Hsrc. discriminate Hsrc.
Qed.

(** C1.  Compressing ten bytes with a threshold of one byte and four
    threads does not produce an archive: the call leaves the input buffer
    and faults, so there is nothing to decompress back into the input. *)
Theorem small_input_over_cap_is_not_archived :
  compressDataParallel (Demo.settings 1 4) Demo.framed Demo.in_order
    Demo.sample 10 "f" Demo.empty = Fault OutOfBounds.
Proof. vm_compute. reflexivity. Qed.

(** C4.  With ten bytes, a threshold of one byte and four threads the block
    count is capped at 8 and the block size is 2: the last block starts at
    offset 14, past the end of the input, and the unsigned [size - offset]
    wraps around to [2^64 - 4]. *)
Theorem last_block_length_wraps_over_cap :
  block_count (Demo.settings 1 4) 10 = Done (Z.min (ceil_div 10 1) (2 * 4)) /\
  block_count (Demo.settings 1 4) 10 = Done 8 /\
  block_size 10 8 = Done (ceil_div 10 8) /\
  block_size 10 8 = Done 2 /\
  block_offset 2 7 = 14 /\
  10 - 14 < 0 /\
  currentBlockSize 10 8 2 7 = 2 ^ 64 - 4.
Proof. vm_compute. repeat split; reflexivity. Qed.

(** ** The output name of decompression *)

Lemma decompress_true_output (cfg : config) (cdc : codec) (sch : scheduler)
      (ptr : list byte) (fname : string) (w w' : world) :
  decompressDataParallel cfg cdc sch ptr fname w = Done (true, w') ->
  exists outfile sz w1 m buf0 buf,
    outfile_name cfg fname = Done outfile /\
    allocateFile outfile sz w = Some (w1, m, buf0) /\
    w' = remove_origin cfg fname (unmapFile m buf w1).
Proof.
  unfold decompressDataParallel. intros H.
  bind_inv H. destruct (a =? 1).
  - bind_inv H. bind_inv H. rename a1 into outfile.
    destruct (allocateFile outfile _ w) as [[[w1 m] buf0]|] eqn:EA;
      [|discriminate].
    bind_inv H. destruct a1 as [ok buf]. destruct ok; [|discriminate].
    injection H as <-. exists outfile. eauto 10.
  - bind_inv H. bind_inv H. rename a1 into outfile.
    destruct (allocateFile outfile _ w) as [[[w1 m] buf0]|] eqn:EA;
      [|discriminate].
    bind_inv H. destruct (decompressionSuccess a1); [|discriminate].
    injection H as <-. exists outfile. eauto 10.
Qed.

(** C10, as amended.  Decompression takes the name it is given without
    looking for the suffix, also when [doParallelWork] is called on a file
    directly, and writes its output under [outfile_name].  For a name at
    least as long as the suffix that is the name less its last
    [strlen(SUFFIX)] characters, whatever they are.  For a shorter name the
    subtraction wraps around, [substr] clamps the count to the length of
    the name, and the output name is the whole input name: no error is
    raised. *)
Theorem output_name_drops_suffix_length :
  forall cfg fname,
    SizeT.in_range (size fname) ->
    SizeT.in_range (size (SUFFIX cfg)) ->
    (forall cdc sch sz w ptr,
       mapFile fname sz (note_dispatch fname w) = Some ptr ->
       doParallelWork cfg cdc sch fname sz false w
       = decompressDataParallel cfg cdc sch ptr fname (note_dispatch fname w)) /\
    (forall cdc sch ptr w w',
       decompressDataParallel cfg cdc sch ptr fname w = Done (true, w') ->
       exists outfile sz w1 m buf0 buf,
         outfile_name cfg fname = Done outfile /\
         allocateFile outfile sz w = Some (w1, m, buf0) /\
         w' = remove_origin cfg fname (unmapFile m buf w1)) /\
    (size (SUFFIX cfg) <= size fname ->
       exists stem tail,
         fname = (stem ++ tail)%string /\
         size tail = size (SUFFIX cfg) /\
         outfile_name cfg fname = Done stem) /\
    (size fname < size (SUFFIX cfg) ->
       SizeT.sub (size fname) (size (SUFFIX cfg))
       = SizeT.modulus + size fname - size (SUFFIX cfg) /\
       outfile_name cfg fname = Done fname).
Proof.
  intros cfg fname Hn Hs. split; [|split; [|split]].
  - intros cdc sch sz w ptr Hm. unfold doParallelWork. now rewrite Hm.
  - intros cdc sch ptr w w'. apply decompress_true_output.
  - intros Hle.
    destruct (substring_split fname
                (String.length fname - String.length (SUFFIX cfg)))
      as [tail [E L]]; [lia|].
    exists (String.substring 0
              (String.length fname - String.length (SUFFIX cfg)) fname), tail.
    split; [exact E|]. split.
    + unfold size in *. lia.
    + now apply outfile_name_long.
  - intros Hlt. now apply outfile_name_short.
Qed.

Lemma output_name_drops_suffix_length_example :
  outfile_name (Demo.settings 4 4) "notes.txt" = Done "notes"%string /\
  outfile_name (Demo.settings 4 4) "a" = Done "a"%string.
Proof.
  split.
  - destruct (output_name_drops_suffix_length (Demo.settings 4 4) "notes.txt")
      as (_ & _ & Hlong & _).
    + vm_compute. split; [discriminate | reflexivity].
    + vm_compute. split; [discriminate | reflexivity].
    + destruct Hlong as (stem & tail & _ & _ & Hname).
      * vm_compute. discriminate.
      * vm_compute in Hname |- *. exact eq_refl.
  - destruct (output_name_drops_suffix_length (Demo.settings 4 4) "a")
      as (_ & _ & _ & Hshort).
    + vm_compute. split; [discriminate | reflexivity].
    + vm_compute. split; [discriminate | reflexivity].
    + apply Hshort. reflexivity.
Defined.

(** The claim as first stated fails on a one-letter name: it is shorter
    than [".zip"], and no out-of-range error is raised. *)
Lemma short_name_raises_no_error :
  size "a" < size (SUFFIX (Demo.settings 4 4)) /\
  outfile_name (Demo.settings 4 4) "a" <> Fault OutOfRange.
Proof.
  split; [reflexivity|]. vm_compute. discriminate.
Qed.

(** ** Paths *)

Lemma append_snoc (a : string) (c : ascii) (b : string) :
  ((a ++ String c EmptyString) ++ b)%string = (a ++ String c b)%string.
Proof. induction a as [|x a IH]; simpl; [reflexivity | now rewrite IH]. Qed.

Lemma split_path_simple (s cur : string) :
  no_slash s = true -> split_path s cur = [(cur ++ s)%string].
Proof.
  revert cur. induction s as [|c s IH]; intros cur H; simpl in *.
  - f_equal. induction cur as [|x cur IHc]; simpl; [reflexivity | now f_equal].
  - apply andb_true_iff in H. destruct H as [Hc Hs].
    apply negb_true_iff in Hc. rewrite Hc, IH by exact Hs.
    now rewrite append_snoc.
Qed.

Lemma simple_relative (d : string) : simple d = true -> is_absolute d = false.
Proof.
  unfold simple. intros H. repeat (apply andb_true_iff in H; destruct H as [H ?]).
  destruct d as [|c d]; [reflexivity|]. simpl in *.
  apply andb_true_iff in H. destruct H as [H _]. now apply negb_true_iff in H.
Qed.

Lemma enter_simple (at_ : list string) (d : string) :
  simple d = true -> enter at_ d = at_ ++ [d].
Proof.
  unfold simple, enter. intros H.
  repeat (apply andb_true_iff in H; destruct H as [H ?]).
  repeat match goal with
         | E : negb _ = true |- _ => apply negb_true_iff in E; rewrite E
         end.
  reflexivity.
Qed.

(** A simple name resolves to the entry of that name in the working
    directory. *)
Lemma resolve_simple (c : list string) (d : string) :
  simple d = true -> resolve c d = c ++ [d].
Proof.
  intros H. unfold resolve. rewrite (simple_relative d H).
  assert (Hn : no_slash d = true).
  { unfold simple in H.
    repeat (apply andb_true_iff in H; destruct H as [H ?]). exact H. }
  rewrite (split_path_simple d EmptyString Hn). simpl.
  now apply enter_simple.
Qed.

Lemma resolve_parent (c : list string) : resolve c ".." = removelast c.
Proof. reflexivity. Qed.

Lemma no_slash_append (a b : string) :
  no_slash a = true -> no_slash b = true -> no_slash (a ++ b) = true.
Proof.
  intros Ha Hb. induction a as [|x a IH]; simpl in *; [exact Hb|].
  apply andb_true_iff in Ha. destruct Ha as [Hx Ha].
  rewrite Hx. simpl. now apply IH.
Qed.

Lemma split_path_no_slash (s cur : string) :
  no_slash cur = true -> forallb no_slash (split_path s cur) = true.
Proof.
  revert cur. induction s as [|c s IH]; intros cur H; simpl.
  - now rewrite H.
  - destruct (Ascii.eqb c "/") eqn:E; simpl.
    + rewrite H. simpl. now apply IH.
    + apply IH. apply no_slash_append; [exact H|]. simpl. now rewrite E.
Qed.

Lemma forallb_removelast {A : Type} (f : A -> bool) (l : list A) :
  forallb f l = true -> forallb f (removelast l) = true.
Proof.
  induction l as [|x l IH]; simpl; [auto|].
  intros H. apply andb_true_iff in H. destruct H as [Hx Hl].
  destruct l as [|y l]; [reflexivity|].
  cbn [forallb]. rewrite Hx. simpl. now apply IH.
Qed.

Lemma enter_keeps_simple (at_ : list string) (c : string) :
  forallb simple at_ = true -> no_slash c = true ->
  forallb simple (enter at_ c) = true.
Proof.
  intros Ha Hc. unfold enter.
  destruct (String.eqb c "") eqn:E1; [exact Ha|].
  destruct (String.eqb c ".") eqn:E2; [exact Ha|].
  destruct (String.eqb c "..") eqn:E3; [now apply forallb_removelast|].
  rewrite forallb_app, Ha. simpl. unfold simple.
  now rewrite Hc, E1, E2, E3.
Qed.

Lemma resolve_keeps_simple (c : list string) (p : string) :
  forallb simple c = true -> forallb simple (resolve c p) = true.
Proof.
  intros Hc. unfold resolve.
  assert (Hstart : forallb simple (if is_absolute p then [] else c) = true)
    by (destruct (is_absolute p); [reflexivity | exact Hc]).
  pose proof (split_path_no_slash p EmptyString eq_refl) as Hs.
  revert Hstart Hs.
  generalize (split_path p EmptyString) (if is_absolute p then [] else c).
  intros comps. induction comps as [|x comps IH]; intros at_ Ha Hs; simpl in *.
  - exact Ha.
  - apply andb_true_iff in Hs. destruct Hs as [Hx Hs].
    apply IH; [|exact Hs]. now apply enter_keeps_simple.
Qed.

(** ** Tidy trees stay tidy *)

Lemma tidy_Dir (pm : perms) (es : list (string * node)) :
  tidy (Dir pm es) = forallb (fun kv => simple (fst kv) && tidy (snd kv)) es.
Proof.
  induction es as [|[k v] es IH]; [reflexivity|].
  cbn. f_equal. exact IH.
Qed.

Lemma tidy_find (pm : perms) (es : list (string * node)) (s : string) (c : node) :
  tidy (Dir pm es) = true -> find_entry s es = Some c -> tidy c = true.
Proof.
  rewrite tidy_Dir. induction es as [|[k v] es IH]; simpl; [discriminate|].
  intros H Hf. apply andb_true_iff in H. destruct H as [Hkv Hes].
  apply andb_true_iff in Hkv. destruct Hkv as [_ Hv].
  destruct (String.eqb k s); [injection Hf as <-; exact Hv | now apply IH].
Qed.

Lemma tidy_put (pm : perms) (es : list (string * node)) (s : string) (c : node) :
  tidy (Dir pm es) = true -> simple s = true -> tidy c = true ->
  tidy (Dir pm (put_entry s c es)) = true.
Proof.
  rewrite !tidy_Dir. intros H Hs Hc.
  induction es as [|[k v] es IH]; simpl in *.
  - now rewrite Hs, Hc.
  - apply andb_true_iff in H. destruct H as [Hkv Hes].
    apply andb_true_iff in Hkv. destruct Hkv as [Hk Hv].
    destruct (String.eqb k s); simpl.
    + now rewrite Hk, Hc, Hes.
    + now rewrite Hk, Hv, IH.
Qed.

Lemma tidy_del (pm : perms) (es : list (string * node)) (s : string) :
  tidy (Dir pm es) = true -> tidy (Dir pm (del_entry s es)) = true.
Proof.
  rewrite !tidy_Dir. intros H.
  induction es as [|[k v] es IH]; simpl in *; [reflexivity|].
  apply andb_true_iff in H. destruct H as [Hkv Hes].
  destruct (String.eqb k s); simpl; [exact Hes|].
  now rewrite Hkv, IH.
Qed.

Lemma tidy_names (pm : perms) (es : list (string * node)) :
  tidy (Dir pm es) = true -> forallb simple (map fst es) = true.
Proof.
  rewrite tidy_Dir. induction es as [|[k v] es IH]; simpl; [reflexivity|].
  intros H. apply andb_true_iff in H. destruct H as [Hkv Hes].
  apply andb_true_iff in Hkv. destruct Hkv as [Hk _].
  now rewrite Hk, IH.
Qed.

Lemma tidy_lookup (p : list string) (n n' : node) :
  tidy n = true -> lookup p n = Some n' -> tidy n' = true.
Proof.
  revert n. induction p as [|s p IH]; intros n Ht H; simpl in H.
  - now injection H as <-.
  - destruct n as [|pm es|]; try discriminate.
    destruct (find_entry s es) as [c|] eqn:E; [|discriminate].
    apply (IH c); [|exact H]. eapply tidy_find; eauto.
Qed.

Lemma tidy_store (p : list string) (d : list byte) (n n' : node) :
  tidy n = true -> forallb simple p = true ->
  store p d n = Some n' -> tidy n' = true.
Proof.
  revert n n'. induction p as [|s p IH]; intros n n' Ht Hp H.
  - destruct n; discriminate.
  - destruct n as [|pm es|]; try discriminate.
    cbn [forallb] in Hp. apply andb_true_iff in Hp. destruct Hp as [Hs Hp].
    destruct p as [|t p].
    + simpl in H.
      assert (E : n' = Dir pm (put_entry s (File d) es)).
      { destruct (find_entry s es) as [[| |]|]; try discriminate;
          [|destruct (p_write pm); [|discriminate]]; now injection H as <-. }
      subst n'. now apply tidy_put.
    + rewrite store_deeper in H.
      destruct (find_entry s es) as [c|] eqn:E; [|discriminate].
      destruct (store (t :: p) d c) as [c'|] eqn:Ec; [|discriminate].
      injection H as <-. apply tidy_put; auto.
      apply (IH c c'); auto. eapply tidy_find; eauto.
Qed.

Lemma remove_deeper (s t : string) (p : list string)
      (pm : perms) (es : list (string * node)) :
  remove (s :: t :: p) (Dir pm es)
  = match find_entry s es with
    | Some c =>
        match remove (t :: p) c with
        | Some c' => Some (Dir pm (put_entry s c' es))
        | None => None
        end
    | None => None
    end.
Proof. reflexivity. Qed.

Lemma tidy_remove (p : list string) (n n' : node) :
  tidy n = true -> forallb simple p = true ->
  remove p n = Some n' -> tidy n' = true.
Proof.
  revert n n'. induction p as [|s p IH]; intros n n' Ht Hp H.
  - destruct n; discriminate.
  - destruct n as [|pm es|]; try discriminate.
    cbn [forallb] in Hp. apply andb_true_iff in Hp. destruct Hp as [Hs Hp].
    destruct p as [|t p].
    + simpl in H.
      destruct (find_entry s es) as [[| |]|]; try discriminate.
      destruct (p_write pm); [|discriminate].
      injection H as <-. now apply tidy_del.
    + rewrite remove_deeper in H.
      destruct (find_entry s es) as [c|] eqn:E; [|discriminate].
      destruct (remove (t :: p) c) as [c'|] eqn:Ec; [|discriminate].
      injection H as <-. apply tidy_put; auto.
      apply (IH c c'); auto. eapply tidy_find; eauto.
Qed.

(** ** Operations keep the world tidy and the working directory *)

Lemma store_keeps_world (p : list string) (d : list byte) (w : world) (r : node) :
  tidy_world w -> forallb simple p = true ->
  store p d (root w) = Some r ->
  tidy_world (with_root r w) /\ cwd (with_root r w) = cwd w.
Proof.
  intros [Ht Hc] Hp H. split; [|reflexivity].
  split; [|exact Hc]. simpl. exact (tidy_store p d (root w) r Ht Hp H).
Qed.

Lemma chdir_keeps_world (path : string) (w w' : world) :
  tidy_world w -> chdir path w = Some w' ->
  tidy_world w' /\ cwd w' = resolve (cwd w) path /\ root w' = root w /\
  dispatched w' = dispatched w.
Proof.
  intros [Ht Hc]. unfold chdir.
  destruct (lookup _ _) as [[|pm es|]|]; try discriminate.
  destruct (p_search pm); [|discriminate].
  intros H. injection H as <-. simpl. repeat split; auto.
  now apply resolve_keeps_simple.
Qed.

Lemma unlink_keeps_world (path : string) (w : world) :
  tidy_world w ->
  tidy_world (unlink path w) /\ cwd (unlink path w) = cwd w.
Proof.
  intros [Ht Hc]. unfold unlink.
  destruct (remove _ _) as [r|] eqn:E; [|split; [split|]; auto].
  split; [|reflexivity]. split; [|exact Hc]. simpl.
  apply (tidy_remove (resolve (cwd w) path) (root w) r Ht); [|exact E].
  now apply resolve_keeps_simple.
Qed.

Lemma remove_origin_keeps_world (cfg : config) (fname : string) (w : world) :
  tidy_world w ->
  tidy_world (remove_origin cfg fname w) /\
  cwd (remove_origin cfg fname w) = cwd w.
Proof.
  intros H. unfold remove_origin.
  destruct (REMOVE_ORIGIN cfg); [now apply unlink_keeps_world | auto].
Qed.

Lemma ofstream_open_keeps_world (path : string) (w w1 : world) (f : ofstream) :
  tidy_world w -> ofstream_open path w = Some (w1, f) ->
  tidy_world w1 /\ cwd w1 = cwd w /\ forallb simple (target f) = true.
Proof.
  intros Hw. unfold ofstream_open.
  destruct (store _ _ _) as [r|] eqn:E; [|discriminate].
  intros H. injection H as <- <-.
  assert (Hp : forallb simple (resolve (cwd w) path) = true)
    by (apply resolve_keeps_simple, Hw).
  destruct (store_keeps_world _ _ _ _ Hw Hp E). auto.
Qed.

Lemma ofstream_close_keeps_world (f : ofstream) (w : world) :
  tidy_world w -> forallb simple (target f) = true ->
  tidy_world (ofstream_close f w) /\ cwd (ofstream_close f w) = cwd w.
Proof.
  intros Hw Hf. unfold ofstream_close.
  destruct (store _ _ _) as [r|] eqn:E; [|auto].
  eapply store_keeps_world; eauto.
Qed.

Lemma allocateFile_keeps_world (path : string) (sz : Z) (w w1 : world)
      (m : mapping) (buf : list byte) :
  tidy_world w -> allocateFile path sz w = Some (w1, m, buf) ->
  tidy_world w1 /\ cwd w1 = cwd w /\ forallb simple (backing m) = true.
Proof.
  intros Hw. unfold allocateFile.
  destruct (store _ _ _) as [r|] eqn:E; [|discriminate].
  intros H. injection H as <- <- _.
  assert (Hp : forallb simple (resolve (cwd w) path) = true)
    by (apply resolve_keeps_simple, Hw).
  destruct (store_keeps_world _ _ _ _ Hw Hp E). auto.
Qed.

Lemma unmapFile_keeps_world (m : mapping) (buf : list byte) (w : world) :
  tidy_world w -> forallb simple (backing m) = true ->
  tidy_world (unmapFile m buf w) /\ cwd (unmapFile m buf w) = cwd w.
Proof.
  intros Hw Hm. unfold unmapFile.
  destruct (store _ _ _) as [r|] eqn:E; [|auto].
  eapply store_keeps_world; eauto.
Qed.

Lemma fold_write_target {A : Type} (h : A -> list byte) (l : list A) (f : ofstream) :
  target (fold_left (fun f x => ofstream_write (h x) f) l f) = target f.
Proof.
  revert f. induction l as [|x l IH]; intros f; simpl; [reflexivity|].
  now rewrite IH.
Qed.

Section WorldInvariant.

Variable cfg : config.
Variable cdc : codec.
Variable sch : scheduler.

Lemma written_world (fname : string) (w w1 : world) (f g : ofstream) :
  tidy_world w ->
  ofstream_open (fname ++ SUFFIX cfg) w = Some (w1, f) ->
  target g = target f ->
  tidy_world (remove_origin cfg fname (ofstream_close g w1)) /\
  cwd (remove_origin cfg fname (ofstream_close g w1)) = cwd w.
Proof.
  intros Hw Ho Hg.
  destruct (ofstream_open_keeps_world _ _ _ _ Hw Ho) as (H1 & C1 & Hf).
  rewrite <- Hg in Hf.
  destruct (ofstream_close_keeps_world g w1 H1 Hf) as [H2 C2].
  destruct (remove_origin_keeps_world cfg fname _ H2) as [H3 C3].
  split; [exact H3 | congruence].
Qed.

Lemma compress_keeps_world (ptr : list byte) (size : Z) (fname : string)
      (w w' : world) (b : bool) :
  tidy_world w ->
  compressDataParallel cfg cdc sch ptr size fname w = Done (b, w') ->
  tidy_world w' /\ cwd w' = cwd w.
Proof.
  intros Hw H. unfold compressDataParallel in H.
  destruct (size <=? BIG_FILE_SIZE cfg).
  - bind_inv H. destruct a as [out|]; [|injection H as _ <-; auto].
    destruct (ofstream_open _ w) as [[w1 f]|] eqn:Eo;
      [|injection H as _ <-; auto].
    injection H as _ <-. eapply written_world; eauto.
  - bind_inv H. bind_inv H. bind_inv H.
    destruct (negb (compressionSuccess a1)); [injection H as _ <-; auto|].
    destruct (ofstream_open _ w) as [[w1 f]|] eqn:Eo;
      [|injection H as _ <-; auto].
    injection H as _ <-. eapply written_world; eauto.
    now rewrite !fold_write_target.
Qed.

Lemma flushed_world (fname outfile : string) (sz : Z) (w w1 : world)
      (m : mapping) (buf0 buf : list byte) :
  tidy_world w ->
  allocateFile outfile sz w = Some (w1, m, buf0) ->
  (tidy_world (unmapFile m buf w1) /\ cwd (unmapFile m buf w1) = cwd w) /\
  (tidy_world (remove_origin cfg fname (unmapFile m buf w1)) /\
   cwd (remove_origin cfg fname (unmapFile m buf w1)) = cwd w).
Proof.
  intros Hw Ha.
  destruct (allocateFile_keeps_world _ _ _ _ _ _ Hw Ha) as (H1 & C1 & Hm).
  destruct (unmapFile_keeps_world m buf w1 H1 Hm) as [H2 C2].
  destruct (remove_origin_keeps_world cfg fname _ H2) as [H3 C3].
  split; (split; [assumption | congruence]).
Qed.

Lemma decompress_keeps_world (ptr : list byte) (fname : string)
      (w w' : world) (b : bool) :
  tidy_world w ->
  decompressDataParallel cfg cdc sch ptr fname w = Done (b, w') ->
  tidy_world w' /\ cwd w' = cwd w.
Proof.
  intros Hw H. unfold decompressDataParallel in H.
  bind_inv H. destruct (a =? 1).
  - bind_inv H. bind_inv H. rename a1 into outfile.
    destruct (allocateFile outfile _ w) as [[[w1 m] buf0]|] eqn:EA;
      [|injection H as _ <-; auto].
    bind_inv H. destruct a1 as [ok buf].
    destruct (flushed_world fname _ _ _ _ _ _ buf Hw EA) as [F1 F2].
    destruct ok; injection H as _ <-; assumption.
  - bind_inv H. bind_inv H. rename a1 into outfile.
    destruct (allocateFile outfile _ w) as [[[w1 m] buf0]|] eqn:EA;
      [|injection H as _ <-; auto].
    bind_inv H.
    destruct (flushed_world fname _ _ _ _ _ _ (decompressed_data a1) Hw EA)
      as [F1 F2].
    destruct (negb (decompressionSuccess a1)); injection H as _ <-; assumption.
Qed.

Lemma doParallelWork_keeps_world (fname : string) (size : Z) (comp : bool)
      (w w' : world) (b : bool) :
  tidy_world w ->
  doParallelWork cfg cdc sch fname size comp w = Done (b, w') ->
  tidy_world w' /\ cwd w' = cwd w.
Proof.
  intros Hw H. unfold doParallelWork in H.
  assert (Hn : tidy_world (note_dispatch fname w)) by exact Hw.
  destruct (mapFile _ _ _) as [ptr|]; [|injection H as _ <-; auto].
  destruct comp.
  - apply (compress_keeps_world _ _ _ _ _ _ Hn H).
  - apply (decompress_keeps_world _ _ _ _ _ Hn H).
Qed.

Lemma dispatch_keeps_world (files : list (string * Z)) (comp : bool)
      (order : list nat) (s s' : bool * world) :
  tidy_world (snd s) ->
  run_tasks (dispatch_task cfg cdc sch files comp) order s = Done s' ->
  tidy_world (snd s') /\ cwd (snd s') = cwd (snd s).
Proof.
  revert s. induction order as [|i rest IH]; intros s Hw H; simpl in H.
  - injection H as <-. auto.
  - bind_inv H. unfold dispatch_task in Ha.
    destruct (nth_error files i) as [[name sz]|].
    + bind_inv Ha. destruct a0 as [ok w1]. injection Ha as <-.
      destruct (doParallelWork_keeps_world _ _ _ _ _ _ Hw Ha0) as [H1 C1].
      destruct (IH (if ok then fst s else false, w1) H1 H) as [H2 C2].
      simpl in *. split; [exact H2 | congruence].
    + injection Ha as <-. now apply IH.
Qed.

End WorldInvariant.

(** ** The directory walk *)

Lemma is_prefix_refl (p : list string) : is_prefix p p.
Proof. exists []. now rewrite app_nil_r. Qed.

Lemma is_prefix_trans (p q r : list string) :
  is_prefix p q -> is_prefix q r -> is_prefix p r.
Proof.
  intros [a ->] [b ->]. exists (a ++ b). now rewrite app_assoc.
Qed.

Lemma is_prefix_app (p q : list string) : is_prefix p (p ++ q).
Proof. now exists q. Qed.

Lemma entry_names (w : world) (names : list string) :
  tidy_world w -> opendir_dot w = Some names ->
  Forall (fun d => simple d = true \/ isdot d = true) names.
Proof.
  intros [Ht _]. unfold opendir_dot.
  destruct (lookup (cwd w) (root w)) as [[|pm es|]|] eqn:E; try discriminate.
  destruct (p_read pm); [|discriminate].
  intros H. injection H as <-.
  constructor; [now right|]. constructor; [now right|].
  apply Forall_forall. intros d Hd. left.
  pose proof (tidy_names pm es (tidy_lookup _ _ _ Ht E)) as Hn.
  rewrite forallb_forall in Hn. now apply Hn.
Qed.

Section Walk.

Variable cfg : config.
Variable cdc : codec.
Variable sch : scheduler.

Lemma readdir_loop_app (walk : string -> bool -> world -> outcome (bool * world))
      (comp : bool) (pre rest : list string) (files : list (string * Z))
      (w : world) :
  readdir_loop cfg walk comp (pre ++ rest) files w
  = (r <- readdir_loop cfg walk comp pre files w ;;
     match r with
     | (Some files', w') => readdir_loop cfg walk comp rest files' w'
     | (None, w') => Done (None, w')
     end).
Proof.
  revert files w. induction pre as [|d pre IH]; intros files w.
  - reflexivity.
  - cbn [app readdir_loop].
    destruct (stat d w) as [sb|]; [|reflexivity].
    destruct (S_ISDIR sb).
    + destruct (negb (isdot d)); [|apply IH].
      destruct (walk d comp w) as [[ok w']|e]; [|reflexivity]. cbn [bind].
      destruct ok; [|reflexivity].
      destruct (chdir ".." w'); [apply IH | reflexivity].
    + destruct (discardIt cfg d comp); apply IH.
Qed.

Ltac stopped :=
  split;
  [assumption
  |split;
   [first [assumption | apply is_prefix_refl]
   |intros; first [reflexivity | congruence]]].

Lemma loop_keeps_inside (walk : string -> bool -> world -> outcome (bool * world))
      (comp : bool) (names : list string) :
  keeps_inside walk ->
  Forall (fun d => simple d = true \/ isdot d = true) names ->
  forall files w r w',
    tidy_world w ->
    readdir_loop cfg walk comp names files w = Done (r, w') ->
    tidy_world w' /\ is_prefix (cwd w) (cwd w') /\
    (r <> None -> cwd w' = cwd w).
Proof.
  intros Hwalk Hnames.
  induction Hnames as [|d names Hd _ IH]; intros files w r w' Hw H.
  - injection H as <- <-. stopped.
  - cbn [readdir_loop] in H.
    destruct (stat d w) as [sb|]; [|injection H as <- <-; stopped].
    destruct (S_ISDIR sb).
    + destruct (isdot d) eqn:Edot; cbn [negb] in H; [now apply (IH files)|].
      destruct Hd as [Hd|Hd]; [|congruence].
      bind_inv H. destruct a as [ok w1].
      destruct (Hwalk d comp w ok w1 Hw Ha) as [Hw1 Hcd].
      destruct (chdir d w) as [wd|] eqn:Ec.
      2:{ destruct Hcd as [-> ->]. injection H as <- <-. stopped. }
      destruct (chdir_keeps_world d w wd Hw Ec) as (_ & Cd & _).
      rewrite resolve_simple in Cd by exact Hd.
      destruct Hcd as [Hpre Hexact].
      assert (Hin : is_prefix (cwd w) (cwd w1)).
      { eapply is_prefix_trans; [|exact Hpre]. rewrite Cd. apply is_prefix_app. }
      destruct ok.
      * destruct (chdir ".." w1) as [w2|] eqn:Eup.
        -- destruct (chdir_keeps_world ".." w1 w2 Hw1 Eup) as (Hw2 & C2 & _).
           rewrite resolve_parent, (Hexact eq_refl), Cd, removelast_last in C2.
           destruct (IH files w2 r w' Hw2 H) as (T & P & X).
           rewrite C2 in P, X. auto.
        -- injection H as <- <-. stopped.
      * injection H as <- <-. stopped.
    + destruct (discardIt cfg d comp); [now apply (IH files)|].
      now apply (IH (files ++ [(d, st_size sb)])).
Qed.

Lemma walk_keeps_inside (fuel : nat) :
  keeps_inside (walkDirParallel cfg cdc sch fuel).
Proof.
  induction fuel as [|fuel IH]; intros d comp w b w' Hw H.
  - discriminate H.
  - cbn [walkDirParallel] in H.
    destruct (chdir d w) as [w1|] eqn:Ec.
    2:{ injection H as <- <-. auto. }
    destruct (chdir_keeps_world d w w1 Hw Ec) as (Hw1 & _).
    destruct (opendir_dot w1) as [names|] eqn:Eo.
    2:{ injection H as <- <-. split; [exact Hw1|].
        split; [apply is_prefix_refl | discriminate]. }
    bind_inv H. destruct a as [r w2].
    destruct (loop_keeps_inside _ comp names IH (entry_names w1 names Hw1 Eo)
                [] w1 r w2 Hw1 Ha) as (Hw2 & Hpre & Hexact).
    destruct r as [files|].
    + destruct (dispatch_keeps_world cfg cdc sch files comp _ (true, w2) (b, w')
                  Hw2 H) as [Hw' Hc].
      simpl in Hc. rewrite Hexact in Hc by discriminate.
      split; [exact Hw'|]. rewrite Hc.
      split; [apply is_prefix_refl | reflexivity].
    + injection H as <- <-. split; [exact Hw2|].
      split; [exact Hpre | discriminate].
Qed.

End Walk.

(** The parent frame ends in the world the failed recursive call left. *)
Lemma parent_stops_at_failed_subdirectory
      (cfg : config) (cdc : codec) (sch : scheduler) (fuel : nat)
      (dname : string) (comp : bool) (w w1 : world) (names pre : list string)
      (d : string) (post : list string) (files : list (string * Z))
      (wk : world) (sb : stat_t) (wf : world) :
  chdir dname w = Some w1 ->
  opendir_dot w1 = Some names ->
  names = pre ++ d :: post ->
  readdir_loop cfg (walkDirParallel cfg cdc sch fuel) comp pre [] w1
  = Done (Some files, wk) ->
  stat d wk = Some sb -> S_ISDIR sb = true -> isdot d = false ->
  walkDirParallel cfg cdc sch fuel d comp wk = Done (false, wf) ->
  walkDirParallel cfg cdc sch (S fuel) dname comp w = Done (false, wf).
Proof.
  intros Hc Ho Hn Hpre Hst Hdir Hdot Hsub.
  cbn [walkDirParallel]. rewrite Hc, Ho, Hn, readdir_loop_app, Hpre.
  cbn [bind readdir_loop]. rewrite Hst, Hdir, Hdot. cbn [negb].
  rewrite Hsub. reflexivity.
Qed.

(** ** Round trip *)

Lemma run_compress_flag (cdc : codec) (ptr : list byte) (size nb bs : Z)
      (order : list nat) (s s' : cstate) :
  run_tasks (compress_task cdc ptr size nb bs) order s = Done s' ->
  (forall i, In i order -> exists out, compresses_to cdc ptr size nb bs i out) ->
  compressionSuccess s' = compressionSuccess s.
Proof.
  revert s. induction order as [|k rest IH]; intros s H Hall; simpl in H.
  - now injection H as <-.
  - bind_inv H.
    destruct (compress_task_Done _ _ _ _ _ _ _ _ Ha)
      as (_ & _ & _ & [[F _]|[o (_ & E & _)]]).
    + destruct (Hall k (or_introl eq_refl)) as [out C].
      exfalso. eapply compresses_or_fails; eauto.
    + rewrite <- E. apply IH; [exact H|]. intros i Hi. apply Hall. now right.
Qed.

Lemma get_size_t_at (pre post : list byte) (z : Z) :
  SizeT.in_range z ->
  get_size_t (pre ++ put_size_t z ++ post) (len pre) = Done z.
Proof.
  intros Hz. unfold get_size_t.
  pose proof (read_app_mid pre (put_size_t z) post) as R.
  rewrite len_put_size_t in R. rewrite R. cbn [bind].
  now rewrite le_value_put_size_t.
Qed.

Lemma get_DataBlock_at (pre post : list byte) (d : DataBlock) :
  well_sized d ->
  get_DataBlock (pre ++ put_DataBlock d ++ post) (len pre) = Done d.
Proof.
  intros (Ho & Hc & Hi). unfold get_DataBlock, put_DataBlock.
  rewrite <- !app_assoc.
  rewrite get_size_t_at by exact Ho. cbn [bind].
  pose proof (get_size_t_at (pre ++ put_size_t (originalSize d))
                (put_size_t (blockIndex d) ++ post) _ Hc) as R2.
  rewrite len_app, len_put_size_t, <- !app_assoc in R2.
  rewrite R2. cbn [bind].
  pose proof (get_size_t_at (pre ++ put_size_t (originalSize d)
                             ++ put_size_t (compressedSize d)) post _ Hi) as R3.
  rewrite !len_app, !len_put_size_t, <- !app_assoc in R3.
  replace (len pre + 2 * Z.of_nat WORD)
    with (len pre + (Z.of_nat WORD + Z.of_nat WORD)) by lia.
  rewrite R3. cbn [bind]. now destruct d.
Qed.

Lemma len_put_DataBlock (d : DataBlock) : len (put_DataBlock d) = Z.of_nat DESC.
Proof.
  unfold put_DataBlock. rewrite !len_app, !len_put_size_t. reflexivity.
Qed.

Lemma len_table (infos : list DataBlock) :
  len (List.concat (map put_DataBlock infos)) = len infos * Z.of_nat DESC.
Proof.
  induction infos as [|d infos IH]; [reflexivity|].
  cbn [map List.concat]. rewrite len_app, len_put_DataBlock, IH.
  unfold len. cbn [List.length]. lia.
Qed.

Lemma read_infos_table (pre post : list byte) (infos : list DataBlock) :
  Forall well_sized infos ->
  read_infos (pre ++ List.concat (map put_DataBlock infos) ++ post)
             (len pre) (List.length infos) = Done infos.
Proof.
  intros H. revert pre. induction H as [|d infos Hd _ IH]; intros pre.
  - reflexivity.
  - cbn [map List.concat List.length read_infos]. rewrite <- app_assoc.
    rewrite get_DataBlock_at by exact Hd. cbn [bind].
    specialize (IH (pre ++ put_DataBlock d)).
    rewrite len_app, len_put_DataBlock, <- app_assoc in IH.
    rewrite IH. reflexivity.
Qed.

Lemma nth_block_starts (p : Z) (infos : list DataBlock) (i : nat) :
  (i < List.length infos)%nat ->
  nth i (block_starts p infos) 0 = p + compressed_total (firstn i infos).
Proof.
  revert p i. induction infos as [|d infos IH]; intros p i Hi; simpl in Hi.
  - lia.
  - destruct i as [|i]; simpl.
    + lia.
    + rewrite IH by lia. lia.
Qed.

Lemma compressed_total_payloads (infos : list DataBlock)
      (payloads : list (list byte)) (i : nat) :
  List.length payloads = List.length infos ->
  (forall j, (j < List.length infos)%nat ->
     compressedSize (nth j infos zero_block) = len (nth j payloads [])) ->
  compressed_total (firstn i infos) = len (List.concat (firstn i payloads)).
Proof.
  revert payloads i.
  induction infos as [|d infos IH]; intros [|b payloads] i L H;
    try discriminate L.
  - destruct i; reflexivity.
  - destruct i as [|i]; [reflexivity|].
    cbn [firstn compressed_total fold_right List.concat].
    rewrite len_app. fold (compressed_total (firstn i infos)).
    rewrite (IH payloads i).
    + pose proof (H O ltac:(simpl; lia)) as H0. simpl in H0.
      rewrite H0. reflexivity.
    + simpl in L. lia.
    + intros j Hj. apply (H (S j)). simpl. lia.
Qed.

Lemma split_at_nth {A : Type} (l : list A) (i : nat) (d : A) :
  (i < List.length l)%nat ->
  l = firstn i l ++ nth i l d :: skipn (S i) l.
Proof.
  revert i. induction l as [|x l IH]; intros i Hi; simpl in Hi; [lia|].
  destruct i as [|i]; [reflexivity|].
  cbn [firstn nth skipn app]. f_equal. apply IH. lia.
Qed.

Lemma read_chunk (pre post : list byte) (chunks : list (list byte)) (i : nat) :
  (i < List.length chunks)%nat ->
  read (pre ++ List.concat chunks ++ post)
       (len pre + len (List.concat (firstn i chunks)))
       (len (nth i chunks []))
  = Done (nth i chunks []).
Proof.
  intros Hi.
  rewrite (split_at_nth chunks i [] Hi) at 1.
  rewrite concat_app. cbn [List.concat]. rewrite <- !app_assoc.
  pose proof (read_app_mid (pre ++ List.concat (firstn i chunks))
                (nth i chunks [])
                (List.concat (skipn (S i) chunks) ++ post)) as R.
  rewrite len_app, <- !app_assoc in R. exact R.
Qed.

(** A buffer is the concatenation of the chunks read at consecutive
    offsets. *)
Lemma firstn_add {A : Type} (n m : nat) (l : list A) :
  firstn (n + m) l = firstn n l ++ firstn m (skipn n l).
Proof.
  revert l. induction n as [|n IH]; intros l; [reflexivity|].
  destruct l as [|x l]; simpl.
  - now rewrite firstn_nil.
  - now rewrite IH.
Qed.

Lemma buffer_by_chunks (buf : list byte) (infos : list DataBlock)
      (chunk : nat -> list byte) (k : nat) :
  sizes_fit infos ->
  (k <= List.length infos)%nat ->
  (forall i, (i < k)%nat ->
     read buf (original_total (firstn i infos))
          (originalSize (nth i infos zero_block)) = Done (chunk i)) ->
  firstn (Z.to_nat (original_total (firstn k infos))) buf
  = List.concat (map chunk (seq 0 k)).
Proof.
  intros fit. induction k as [|k IH]; intros Hk H.
  - reflexivity.
  - rewrite seq_S, map_app, concat_app. cbn [map List.concat plus].
    rewrite app_nil_r, <- IH by (try lia; intros; apply H; lia).
    rewrite (next_offset infos k) by lia.
    pose proof (original_total_nonneg _ (Forall_firstn _ k _ (proj1 fit))).
    pose proof (size_nonneg infos fit k).
    rewrite Z2Nat.inj_add, firstn_add by lia. f_equal.
    destruct (read_Done _ _ _ _ (H k ltac:(lia))) as (_ & _ & _ & _ & E).
    now rewrite E.
Qed.

Lemma buffers_agree (a b : list byte) (infos : list DataBlock)
      (chunk : nat -> list byte) :
  sizes_fit infos ->
  len a = original_total infos -> len b = original_total infos ->
  (forall i, (i < List.length infos)%nat ->
     read a (original_total (firstn i infos))
          (originalSize (nth i infos zero_block)) = Done (chunk i)) ->
  (forall i, (i < List.length infos)%nat ->
     read b (original_total (firstn i infos))
          (originalSize (nth i infos zero_block)) = Done (chunk i)) ->
  a = b.
Proof.
  intros fit La Lb Ha Hb.
  pose proof (buffer_by_chunks a infos chunk (List.length infos) fit
                (le_n _) Ha) as Ea.
  pose proof (buffer_by_chunks b infos chunk (List.length infos) fit
                (le_n _) Hb) as Eb.
  rewrite firstn_all in Ea, Eb.
  rewrite <- La in Ea. rewrite <- Lb in Eb.
  unfold len in Ea, Eb. rewrite Nat2Z.id, firstn_all in Ea, Eb.
  congruence.
Qed.

Section RoundTrip.

Variable cfg : config.
Variable cdc : codec.
Variable limit : Z.

Hypothesis codec_laws : codec_ok cdc limit.
Hypothesis honest : respects_capacity cdc.
Hypothesis threshold_range : SizeT.in_range (BIG_FILE_SIZE cfg).

Variable ptr : list byte.
Variables nb bs : Z.

Hypothesis size_range : SizeT.in_range (len ptr).
Hypothesis size_limit : len ptr <= limit.
Hypothesis plan : split_plan cfg (len ptr) = Done (nb, bs).
Hypothesis readable :
  forall i, (i < Z.to_nat nb)%nat ->
    exists src, block_src ptr (len ptr) nb bs i = Done src.

Lemma every_block_compresses (i : nat) :
  (i < Z.to_nat nb)%nat ->
  exists out, compresses_to cdc ptr (len ptr) nb bs i out.
Proof.
  intros Hi. destruct (readable i Hi) as [src Hsrc].
  pose proof Hsrc as Hr. unfold block_src in Hr.
  apply read_Done in Hr. destruct Hr as (H0 & H1 & H2 & H3 & _).
  destruct (compress cdc src
              (compressBound cdc (currentBlockSize (len ptr) nb bs i)))
    as [out|] eqn:Ec.
  - exists out, src. auto.
  - exfalso. rewrite <- H3 in Ec.
    apply (compress_total cdc limit codec_laws src); [lia | exact Ec].
Qed.

Lemma compress_succeeds (sch : scheduler) (fname : string) (w : world) :
  fair sch ->
  (exists o, ofstream_open (fname ++ SUFFIX cfg) w = Some o) ->
  exists w', compressDataParallel cfg cdc sch ptr (len ptr) fname w
             = Done (true, w').
Proof.
  intros Hf [[w1 f] Ho].
  pose proof plan as Hplan. unfold split_plan in Hplan.
  unfold compressDataParallel.
  destruct (len ptr <=? BIG_FILE_SIZE cfg) eqn:E.
  - injection Hplan as En Eb.
    destruct (single_block_src ptr (len ptr) size_range) as [Hsrc Hcur].
    destruct (every_block_compresses O) as [out [src [Hs Hc]]];
      [rewrite <- En; simpl; lia|].
    rewrite <- En, <- Eb, Hsrc in Hs. rewrite <- En, <- Eb, Hcur in Hc.
    unfold compressBlock. rewrite Hs. cbn [bind]. rewrite Hc, Ho. eauto.
  - bind_inv Hplan. bind_inv Hplan. injection Hplan as -> ->.
    rewrite Ha. cbn [bind]. rewrite Ha0. cbn [bind].
    destruct (run_compress_total cdc ptr (len ptr) nb bs (sch (Z.to_nat nb))
                {| blockInfos := repeat zero_block (Z.to_nat nb);
                   compressedBlocks := repeat [] (Z.to_nat nb);
                   compressionSuccess := true |}) as [s Hrun].
    { intros i Hi. apply readable. eapply fair_within; eauto. }
    rewrite Hrun. cbn [bind].
    rewrite (run_compress_flag _ _ _ _ _ _ _ _ Hrun).
    + cbn [compressionSuccess negb]. rewrite Ho. eauto.
    + intros i Hi. apply every_block_compresses. eapply fair_within; eauto.
Qed.

End RoundTrip.

(** Decompression of the archive made of the blocks of [ptr] rebuilds
    [ptr] in the file it allocates. *)
Lemma archive_restores_input (cfg : config) (cdc : codec) (limit : Z)
      (sch' : scheduler) (ptr : list byte) (nb bs : Z)
      (infos : list DataBlock) (payloads : list (list byte))
      (fname : string) (w2 w3 : world) (m : mapping) (buf0 : list byte) :
  codec_ok cdc limit ->
  respects_capacity cdc ->
  fair sch' ->
  SizeT.in_range (BIG_FILE_SIZE cfg) ->
  SizeT.in_range (len ptr) ->
  split_plan cfg (len ptr) = Done (nb, bs) ->
  (forall i, (i < Z.to_nat nb)%nat ->
     exists src, block_src ptr (len ptr) nb bs i = Done src) ->
  List.length infos = Z.to_nat nb ->
  List.length payloads = Z.to_nat nb ->
  (forall i, (i < Z.to_nat nb)%nat ->
     compresses_to cdc ptr (len ptr) nb bs i (nth i payloads []) /\
     nth i infos zero_block = block_info (len ptr) nb bs i (nth i payloads [])) ->
  SizeT.in_range (size (fname ++ SUFFIX cfg)) ->
  allocateFile fname (len ptr) w2 = Some (w3, m, buf0) ->
  decompressDataParallel cfg cdc sch' (archive_bytes infos payloads)
    (fname ++ SUFFIX cfg) w2
  = Done (true, remove_origin cfg (fname ++ SUFFIX cfg) (unmapFile m ptr w3)) /\
  read_file fname (unmapFile m ptr w3) = Some ptr.
Proof.
  intros Hlaws Hcap Hf' HT Hs Hplan Hread L1 L2 Hall Hname Halloc.
  destruct (split_plan_facts cfg HT (len ptr) nb bs Hs Hplan) as [Hnb Hbs].
  (* the table adds up to the input and every field is a size_t *)
  assert (Hsizes : forall i, (i < Z.to_nat nb)%nat ->
             originalSize (nth i infos zero_block)
             = currentBlockSize (len ptr) nb bs i).
  { intros i Hi. destruct (Hall i Hi) as [_ ->]. reflexivity. }
  assert (Htotal : original_total infos = len ptr).
  { apply (total_is_size ptr (len ptr) nb bs Hs eq_refl Hnb Hbs Hread
             infos L1 Hsizes). }
  assert (Hoff : forall i, (i < Z.to_nat nb)%nat ->
             original_total (firstn i infos) = block_offset bs i).
  { intros i Hi.
    apply (prefix_total ptr (len ptr) nb bs Hs eq_refl Hnb Hbs Hread
             infos L1 Hsizes i Hi). }
  assert (Hwell : Forall well_sized infos).
  { apply Forall_nth. intros i d Hi. rewrite L1 in Hi.
    rewrite (nth_indep infos d zero_block) by lia.
    destruct (Hall i Hi) as [[src [Hsrc Hc]] ->].
    unfold block_src in Hsrc. apply read_Done in Hsrc.
    pose proof (compress_fits cdc limit Hlaws _ _ _ Hc) as Hfit.
    pose proof (bound_range cdc limit Hlaws
                  (currentBlockSize (len ptr) nb bs i)) as Hb.
    pose proof (len_nonneg (nth i payloads [])).
    unfold well_sized, block_info, SizeT.in_range in *. simpl. lia. }
  assert (Hfit : sizes_fit infos).
  { split.
    - eapply Forall_impl; [|exact Hwell]. intros d (Hd & _). apply Hd.
    - rewrite Htotal. apply Hs. }
  assert (Hlen : len infos = nb) by (unfold len; rewrite L1; lia).
  assert (Hhead : get_size_t (archive_bytes infos payloads) 0 = Done nb).
  { unfold archive_bytes. rewrite Hlen. apply get_size_t_head.
    unfold SizeT.in_range. lia. }
  assert (Htable : read_infos (archive_bytes infos payloads) (Z.of_nat WORD)
                     (Z.to_nat nb) = Done infos).
  { unfold archive_bytes. rewrite <- L1, <- (len_put_size_t (len infos)).
    now apply read_infos_table. }
  assert (Hin : forall i, (i < List.length infos)%nat ->
             block_input (archive_bytes infos payloads) infos i
             = Done (nth i payloads [])).
  { intros i Hi. unfold block_input.
    rewrite nth_block_starts by exact Hi.
    rewrite (compressed_total_payloads infos payloads i) by
      (try congruence; intros j Hj; rewrite L1 in Hj;
       destruct (Hall j Hj) as [_ ->]; reflexivity).
    rewrite L1 in Hi. destruct (Hall i Hi) as [_ ->].
    cbn [compressedSize block_info].
    unfold archive_bytes. rewrite app_assoc.
    rewrite <- (app_nil_r (List.concat payloads)).
    rewrite <- len_table, <- (len_put_size_t (len infos)), <- len_app.
    apply read_chunk. lia. }
  assert (Hinfl : forall i, (i < List.length infos)%nat ->
             exists src,
               block_src ptr (len ptr) nb bs i = Done src /\
               inflates_to cdc (archive_bytes infos payloads) infos i true src).
  { intros i Hi. pose proof (Hin i Hi) as Hi'. rewrite L1 in Hi.
    destruct (Hall i Hi) as [[src [Hsrc Hc]] Hd].
    exists src. split; [exact Hsrc|].
    exists (nth i payloads []). split; [exact Hi'|].
    rewrite Hd. cbn [originalSize block_info].
    pose proof Hsrc as Hr. unfold block_src in Hr. apply read_Done in Hr.
    destruct Hr as (_ & _ & _ & <- & _).
    apply (uncompress_compress cdc limit Hlaws _ _ _ Hc). }
  rewrite <- Htotal in Halloc.
  destruct (decompress_runs cfg cdc sch' Hf' Hcap
              (archive_bytes infos payloads) (fname ++ SUFFIX cfg) w2 nb infos
              fname w3 m buf0 Hhead Htable (proj2 Hfit)
              (outfile_name_of_archive cfg fname Hname) Halloc
              (fun i Hi => ex_intro _ _ (Hin i Hi)))
    as (buf & ok & Hdec & Hblen & Stored & _ & _ & Good).
  assert (Hok : ok = true).
  { apply Good. intros i Hi. destruct (Hinfl i Hi) as [src [_ Hi']]. eauto. }
  subst ok.
  assert (Hbuf : buf = ptr).
  { apply (buffers_agree buf ptr infos
             (fun i => match block_src ptr (len ptr) nb bs i with
                       | Done s => s
                       | Fault _ => []
                       end) Hfit Hblen (eq_sym Htotal)).
    - intros i Hi. destruct (Hinfl i Hi) as [src [Hsrc Hi']]. rewrite Hsrc.
      destruct (Stored i Hi) as (ok' & out & Hi'' & Hrd).
      destruct (inflates_once _ _ _ _ _ _ _ _ Hi' Hi'') as [_ <-].
      unfold block_src in Hsrc. apply read_Done in Hsrc.
      destruct Hsrc as (_ & _ & _ & Hl & _).
      rewrite L1 in Hi. rewrite Hsizes, <- Hl by exact Hi. exact Hrd.
    - intros i Hi. destruct (Hinfl i Hi) as [src [Hsrc _]]. rewrite Hsrc.
      rewrite L1 in Hi. rewrite Hsizes, Hoff by exact Hi. exact Hsrc. }
  subst buf. split; [exact Hdec|].
  eapply flushed_mapping_on_disk. exact Halloc.
Qed.


(** X1.  The round trip, where every block of the split lies inside the
    input: compression writes an archive, and decompressing that archive
    under the archive's name rebuilds the input buffer in the output file,
    for all fair schedules of both task loops. *)
Theorem roundtrip_when_blocks_fit :
  forall cfg cdc limit sch sch' ptr fname w nb bs w1 f,
    codec_ok cdc limit ->
    respects_capacity cdc ->
    fair sch -> fair sch' ->
    SizeT.in_range (BIG_FILE_SIZE cfg) ->
    SizeT.in_range (len ptr) ->
    len ptr <= limit ->
    split_plan cfg (len ptr) = Done (nb, bs) ->
    (forall i, (i < Z.to_nat nb)%nat ->
       exists src, block_src ptr (len ptr) nb bs i = Done src) ->
    ofstream_open (fname ++ SUFFIX cfg) w = Some (w1, f) ->
    exists archive,
      compressDataParallel cfg cdc sch ptr (len ptr) fname w
      = Done (true, remove_origin cfg fname
                      (ofstream_close (ofstream_write archive f) w1)) /\
      forall w2 w3 m buf0,
        SizeT.in_range (size (fname ++ SUFFIX cfg)) ->
        allocateFile fname (len ptr) w2 = Some (w3, m, buf0) ->
        decompressDataParallel cfg cdc sch' archive (fname ++ SUFFIX cfg) w2
        = Done (true, remove_origin cfg (fname ++ SUFFIX cfg)
                        (unmapFile m ptr w3)) /\
        read_file fname (unmapFile m ptr w3) = Some ptr.
Proof.
  intros cfg cdc limit sch sch' ptr fname w nb bs w1 f
         Hlaws Hcap Hf Hf' HT Hs Hlim Hplan Hread Ho.
  destruct (compress_succeeds cfg cdc limit Hlaws ptr nb bs Hs Hlim Hplan Hread
              sch fname w Hf (ex_intro _ _ Ho)) as [w' Hrun].
  destruct (compress_true_shape cfg cdc sch Hf HT ptr (len ptr) fname w w' Hs Hrun)
    as (nb' & bs' & infos & payloads & Hplan' & L1 & L2 & Hall & Hw).
  rewrite Hplan in Hplan'. injection Hplan' as <- <-.
  destruct Hw as (w1' & f' & Ho' & ->).
  rewrite Ho in Ho'. injection Ho' as <- <-.
  exists (archive_bytes infos payloads). split; [exact Hrun|].
  intros w2 w3 m buf0 Hname Halloc.
  apply (archive_restores_input cfg cdc limit sch' ptr nb bs infos payloads
           fname w2 w3 m buf0 Hlaws Hcap Hf' HT Hs Hplan Hread L1 L2 Hall
           Hname Halloc).
Qed.

(** ** Where the split fits the input *)

(** If the last block starts inside the input, every block is readable. *)
Lemma blocks_fit_readable (ptr : list byte) (nb bs : Z) :
  SizeT.in_range (len ptr) ->
  1 <= nb < SizeT.modulus -> 0 <= bs ->
  (nb - 1) * bs <= len ptr ->
  forall i, (i < Z.to_nat nb)%nat ->
    exists src, block_src ptr (len ptr) nb bs i = Done src.
Proof.
  intros Hs Hnb Hbs Hfit i Hi.
  unfold SizeT.in_range, SizeT.modulus in *.
  unfold block_src, currentBlockSize, block_offset, SizeT.mul, SizeT.sub.
  assert (Hoff : 0 <= Z.of_nat i * bs <= (nb - 1) * bs) by nia.
  rewrite (wrap_small (nb - 1)) by (unfold SizeT.in_range, SizeT.modulus; lia).
  rewrite (wrap_small (Z.of_nat i * bs))
    by (unfold SizeT.in_range, SizeT.modulus; lia).
  destruct (Z.of_nat i <? nb - 1) eqn:E.
  - apply Z.ltb_lt in E. rewrite read_in_bounds by nia. eauto.
  - apply Z.ltb_ge in E.
    rewrite wrap_small by (unfold SizeT.in_range, SizeT.modulus; lia).
    rewrite read_in_bounds by lia. eauto.
Qed.

(** When the cap does not bind, the last block starts inside the input. *)
Lemma uncapped_split_fits (S T bs : Z) :
  0 < T -> T < S -> S + T - 1 < SizeT.modulus ->
  block_size S (ceil_div S T) = Done bs ->
  0 <= bs /\ (ceil_div S T - 1) * bs <= S.
Proof.
  intros HT HS Hsum Hb. rewrite ceil_div_formula in * by exact HT.
  unfold SizeT.modulus in *.
  apply div_Done in Hb. destruct Hb as [Hq ->].
  set (q := (S + T - 1) / T) in *.
  pose proof (Z.div_mod (S + T - 1) T ltac:(lia)) as E1.
  pose proof (Z.mod_pos_bound (S + T - 1) T HT) as R1. fold q in E1.
  assert (Hq1 : 1 <= q) by (apply Z.div_le_lower_bound; lia).
  assert (Hsum' : SizeT.sub (SizeT.add S q) 1 = (S + q - 1) mod 2 ^ 64).
  { unfold SizeT.sub, SizeT.add, SizeT.wrap, SizeT.modulus.
    now rewrite Zminus_mod_idemp_l. }
  rewrite Hsum'.
  destruct (Z_lt_ge_dec (S + q - 1) (2 ^ 64)) as [Hsmall|Hbig].
  - rewrite Z.mod_small by lia.
    pose proof (Z.div_mod (S + q - 1) q ltac:(lia)) as E2.
    pose proof (Z.mod_pos_bound (S + q - 1) q ltac:(lia)) as R2.
    set (b := (S + q - 1) / q) in *.
    assert (Hb0 : 0 <= b) by (apply Z.div_pos; lia).
    split; [exact Hb0|].
    assert (HbT : b <= T) by nia.
    nia.
  - replace ((S + q - 1) mod 2 ^ 64) with (S + q - 1 - 2 ^ 64)
      by (apply Z.mod_unique with (q := 1); nia).
    rewrite Z.div_small by nia. lia.
Qed.

(** When the input has at least [(n - 1) * n] bytes, the last of [n] blocks
    starts inside the input, capped or not. *)
Lemma large_input_fits (S n bs : Z) :
  1 <= n -> (n - 1) * n <= S -> S + n - 1 < SizeT.modulus ->
  block_size S n = Done bs ->
  0 <= bs /\ (n - 1) * bs <= S.
Proof.
  intros Hn HS Hsum Hb. unfold SizeT.modulus in *.
  apply div_Done in Hb. destruct Hb as [_ ->].
  assert (Hsum' : SizeT.sub (SizeT.add S n) 1 = S + n - 1).
  { unfold SizeT.sub, SizeT.add, SizeT.wrap, SizeT.modulus.
    rewrite Zminus_mod_idemp_l. apply Z.mod_small. nia. }
  rewrite Hsum'.
  pose proof (Z.div_mod (S + n - 1) n ltac:(lia)) as E.
  pose proof (Z.mod_pos_bound (S + n - 1) n ltac:(lia)) as R.
  set (b := (S + n - 1) / n) in *.
  assert (Hb0 : 0 <= b) by (apply Z.div_pos; nia).
  split; [exact Hb0|]. nia.
Qed.

(** ** The dispatch log *)

Lemma log_grows_refl (P : list string * string -> Prop) (w : world) :
  log_grows P w w.
Proof. exists []. split; [now rewrite app_nil_r | constructor]. Qed.

Lemma log_grows_same (P : list string * string -> Prop) (w w' : world) :
  dispatched w' = dispatched w -> log_grows P w w'.
Proof. intros E. exists []. split; [now rewrite app_nil_r | constructor]. Qed.

Lemma log_grows_trans (P : list string * string -> Prop) (w1 w2 w3 : world) :
  log_grows P w1 w2 -> log_grows P w2 w3 -> log_grows P w1 w3.
Proof.
  intros (e1 & E1 & F1) (e2 & E2 & F2). exists (e1 ++ e2). split.
  - now rewrite E2, E1, app_assoc.
  - apply Forall_app. auto.
Qed.

Lemma log_grows_weaken (P Q : list string * string -> Prop) (w w' : world) :
  (forall e, P e -> Q e) -> log_grows P w w' -> log_grows Q w w'.
Proof.
  intros H (e & E & F). exists e. split; [exact E|].
  eapply Forall_impl; eauto.
Qed.

Lemma unlink_log (path : string) (w : world) :
  dispatched (unlink path w) = dispatched w.
Proof. unfold unlink. now destruct (remove _ _). Qed.

Lemma remove_origin_log (cfg : config) (fname : string) (w : world) :
  dispatched (remove_origin cfg fname w) = dispatched w.
Proof.
  unfold remove_origin. destruct (REMOVE_ORIGIN cfg); [apply unlink_log | auto].
Qed.

Lemma ofstream_open_log (path : string) (w w1 : world) (f : ofstream) :
  ofstream_open path w = Some (w1, f) -> dispatched w1 = dispatched w.
Proof.
  unfold ofstream_open. destruct (store _ _ _); [|discriminate].
  intros H. now injection H as <- _.
Qed.

Lemma ofstream_close_log (f : ofstream) (w : world) :
  dispatched (ofstream_close f w) = dispatched w.
Proof. unfold ofstream_close. now destruct (store _ _ _). Qed.

Lemma allocateFile_log (path : string) (sz : Z) (w w1 : world)
      (m : mapping) (buf : list byte) :
  allocateFile path sz w = Some (w1, m, buf) -> dispatched w1 = dispatched w.
Proof.
  unfold allocateFile. destruct (store _ _ _); [|discriminate].
  intros H. now injection H as <- _ _.
Qed.

Lemma unmapFile_log (m : mapping) (buf : list byte) (w : world) :
  dispatched (unmapFile m buf w) = dispatched w.
Proof. unfold unmapFile. now destruct (store _ _ _). Qed.

Section DispatchLog.

Variable cfg : config.
Variable cdc : codec.
Variable sch : scheduler.

Lemma compress_log (ptr : list byte) (size : Z) (fname : string)
      (w w' : world) (b : bool) :
  compressDataParallel cfg cdc sch ptr size fname w = Done (b, w') ->
  dispatched w' = dispatched w.
Proof.
  intros H. unfold compressDataParallel in H.
  destruct (size <=? BIG_FILE_SIZE cfg).
  - bind_inv H. destruct a as [out|]; [|now injection H as _ <-].
    destruct (ofstream_open _ w) as [[w1 f]|] eqn:Eo;
      [|now injection H as _ <-].
    injection H as _ <-.
    rewrite remove_origin_log, ofstream_close_log.
    eapply ofstream_open_log; eauto.
  - bind_inv H. bind_inv H. bind_inv H.
    destruct (negb (compressionSuccess a1)); [now injection H as _ <-|].
    destruct (ofstream_open _ w) as [[w1 f]|] eqn:Eo;
      [|now injection H as _ <-].
    injection H as _ <-.
    rewrite remove_origin_log, ofstream_close_log.
    eapply ofstream_open_log; eauto.
Qed.

Lemma decompress_log (ptr : list byte) (fname : string)
      (w w' : world) (b : bool) :
  decompressDataParallel cfg cdc sch ptr fname w = Done (b, w') ->
  dispatched w' = dispatched w.
Proof.
  intros H. unfold decompressDataParallel in H.
  bind_inv H. destruct (a =? 1).
  - bind_inv H. bind_inv H. rename a1 into outfile.
    destruct (allocateFile outfile _ w) as [[[w1 m] buf0]|] eqn:EA;
      [|now injection H as _ <-].
    bind_inv H. destruct a1 as [ok buf].
    pose proof (allocateFile_log _ _ _ _ _ _ EA) as E.
    destruct ok; injection H as _ <-;
      now rewrite ?remove_origin_log, unmapFile_log.
  - bind_inv H. bind_inv H. rename a1 into outfile.
    destruct (allocateFile outfile _ w) as [[[w1 m] buf0]|] eqn:EA;
      [|now injection H as _ <-].
    bind_inv H.
    pose proof (allocateFile_log _ _ _ _ _ _ EA) as E.
    destruct (negb (decompressionSuccess a1)); injection H as _ <-;
      now rewrite ?remove_origin_log, unmapFile_log.
Qed.

(** [doParallelWork] logs the file it was given, in the working directory. *)
Lemma doParallelWork_log (fname : string) (size : Z) (comp : bool)
      (w w' : world) (b : bool) :
  doParallelWork cfg cdc sch fname size comp w = Done (b, w') ->
  dispatched w' = dispatched w ++ [(cwd w, fname)].
Proof.
  intros H. unfold doParallelWork in H.
  destruct (mapFile _ _ _) as [ptr|]; [|now injection H as _ <-].
  destruct comp.
  - now rewrite (compress_log _ _ _ _ _ _ H).
  - now rewrite (decompress_log _ _ _ _ _ H).
Qed.

Lemma dispatch_log (files : list (string * Z)) (comp : bool)
      (order : list nat) (s s' : bool * world) :
  tidy_world (snd s) ->
  run_tasks (dispatch_task cfg cdc sch files comp) order s = Done s' ->
  log_grows (fun e => fst e = cwd (snd s)) (snd s) (snd s').
Proof.
  revert s. induction order as [|i rest IH]; intros s Hw H; simpl in H.
  - injection H as <-. apply log_grows_refl.
  - bind_inv H. unfold dispatch_task in Ha.
    destruct (nth_error files i) as [[name sz]|].
    + bind_inv Ha. destruct a0 as [ok w1]. injection Ha as <-.
      destruct (doParallelWork_keeps_world _ _ _ _ _ _ _ _ _ Hw Ha0) as [H1 C1].
      pose proof (doParallelWork_log _ _ _ _ _ _ Ha0) as L1.
      pose proof (IH (if ok then fst s else false, w1) H1 H) as L2.
      cbn [snd] in L2. rewrite C1 in L2.
      eapply log_grows_trans; [|exact L2].
      exists [(cwd (snd s), name)]. split; [exact L1|].
      constructor; [reflexivity | constructor].
    + injection Ha as <-. now apply IH.
Qed.

End DispatchLog.

Lemma strictly_below_inside (c p : list string) :
  strictly_below c p -> is_prefix c p.
Proof. intros (d & rest & ->). now exists (d :: rest). Qed.

Lemma strictly_below_other (c p : list string) : strictly_below c p -> p <> c.
Proof.
  intros (d & rest & ->) E.
  apply (f_equal (@List.length string)) in E.
  rewrite length_app in E. simpl in E. lia.
Qed.

Lemma below_entry (c : list string) (d : string) (p : list string) :
  is_prefix (c ++ [d]) p -> strictly_below c p.
Proof.
  intros [rest ->]. exists d, rest. now rewrite <- app_assoc.
Qed.

Section WalkLog.

Variable cfg : config.
Variable cdc : codec.
Variable sch : scheduler.

Lemma loop_log (walk : string -> bool -> world -> outcome (bool * world))
      (comp : bool) (names : list string) :
  keeps_inside walk -> logs_inside walk ->
  Forall (fun d => simple d = true \/ isdot d = true) names ->
  forall files w r w',
    tidy_world w ->
    readdir_loop cfg walk comp names files w = Done (r, w') ->
    log_grows (fun e => strictly_below (cwd w) (fst e)) w w'.
Proof.
  intros Hwalk Hlog Hnames.
  induction Hnames as [|d names Hd _ IH]; intros files w r w' Hw H.
  - injection H as _ <-. apply log_grows_refl.
  - cbn [readdir_loop] in H.
    destruct (stat d w) as [sb|];
      [|injection H as _ <-; apply log_grows_refl].
    destruct (S_ISDIR sb).
    + destruct (isdot d) eqn:Edot; cbn [negb] in H; [eapply (IH files); eassumption|].
      destruct Hd as [Hd|Hd]; [|congruence].
      bind_inv H. destruct a as [ok w1].
      destruct (Hwalk d comp w ok w1 Hw Ha) as [Hw1 Hcd].
      pose proof (Hlog d comp w ok w1 Hw Ha) as L1.
      rewrite resolve_simple in L1 by exact Hd.
      apply (log_grows_weaken _ (fun e => strictly_below (cwd w) (fst e)))
        in L1; [|intros e; apply below_entry].
      destruct ok; [|injection H as _ <-; exact L1].
      destruct (chdir ".." w1) as [w2|] eqn:Eup;
        [|injection H as _ <-; exact L1].
      destruct (chdir d w) as [wd|] eqn:Ec; [|destruct Hcd; discriminate].
      destruct (chdir_keeps_world d w wd Hw Ec) as (_ & Cd & _).
      rewrite resolve_simple in Cd by exact Hd.
      destruct Hcd as [_ Hexact].
      destruct (chdir_keeps_world ".." w1 w2 Hw1 Eup) as (Hw2 & C2 & _ & D2).
      rewrite resolve_parent, (Hexact eq_refl), Cd, removelast_last in C2.
      pose proof (IH files w2 r w' Hw2 H) as L2. rewrite C2 in L2.
      eapply log_grows_trans; [exact L1|].
      eapply log_grows_trans; [|exact L2].
      now apply log_grows_same.
    + destruct (discardIt cfg d comp); [eapply (IH files); eassumption|].
      eapply (IH (files ++ [(d, st_size sb)])); eassumption.
Qed.

Lemma walk_logs_inside (fuel : nat) :
  logs_inside (walkDirParallel cfg cdc sch fuel).
Proof.
  induction fuel as [|fuel IH]; intros d comp w b w' Hw H.
  - discriminate H.
  - cbn [walkDirParallel] in H.
    destruct (chdir d w) as [w1|] eqn:Ec;
      [|injection H as _ <-; apply log_grows_refl].
    destruct (chdir_keeps_world d w w1 Hw Ec) as (Hw1 & C1 & _ & D1).
    rewrite <- C1.
    assert (L0 : log_grows (fun e => is_prefix (cwd w1) (fst e)) w w1)
      by now apply log_grows_same.
    destruct (opendir_dot w1) as [names|] eqn:Eo;
      [|injection H as _ <-; exact L0].
    bind_inv H. destruct a as [r w2].
    pose proof (entry_names w1 names Hw1 Eo) as Hnames.
    destruct (loop_keeps_inside cfg _ comp names
                (walk_keeps_inside cfg cdc sch fuel) Hnames
                [] w1 r w2 Hw1 Ha) as (Hw2 & _ & Hexact).
    pose proof (loop_log _ comp names
                  (walk_keeps_inside cfg cdc sch fuel) IH Hnames
                  [] w1 r w2 Hw1 Ha) as L1.
    apply (log_grows_weaken _ (fun e => is_prefix (cwd w1) (fst e))) in L1;
      [|intros e; apply strictly_below_inside].
    destruct r as [files|].
    + pose proof (dispatch_log cfg cdc sch files comp _ (true, w2) (b, w')
                    Hw2 H) as L2.
      cbn [snd] in L2. rewrite Hexact in L2 by discriminate.
      apply (log_grows_weaken _ (fun e => is_prefix (cwd w1) (fst e))) in L2.
      * eapply log_grows_trans; [exact L0|].
        eapply log_grows_trans; [exact L1 | exact L2].
      * intros e ->. apply is_prefix_refl.
    + injection H as _ <-. eapply log_grows_trans; eauto.
Qed.

End WalkLog.

(** C8.  When the recursive call for a sub-directory returns [false], the
    parent frame returns [false] at once, in the very world the recursive
    call left.  Every file handed to [doParallelWork] since the parent
    frame started lies in a directory properly below the parent's: the
    files the parent had collected ([files]) were not dispatched. *)
Theorem subdirectory_failure_aborts_parent :
  forall cfg cdc sch fuel dname comp w w1 names pre d post files wk sb wf,
    tidy_world w ->
    chdir dname w = Some w1 ->
    opendir_dot w1 = Some names ->
    names = pre ++ d :: post ->
    readdir_loop cfg (walkDirParallel cfg cdc sch fuel) comp pre [] w1
    = Done (Some files, wk) ->
    stat d wk = Some sb -> S_ISDIR sb = true -> isdot d = false ->
    walkDirParallel cfg cdc sch fuel d comp wk = Done (false, wf) ->
    walkDirParallel cfg cdc sch (S fuel) dname comp w = Done (false, wf) /\
    log_grows (fun e => strictly_below (cwd w1) (fst e) /\ fst e <> cwd w1)
              w wf.
Proof.
  intros cfg cdc sch fuel dname comp w w1 names pre d post files wk sb wf
         Hw Hc Ho Hn Hpre Hst Hdir Hdot Hsub.
  split.
  - eapply parent_stops_at_failed_subdirectory; eauto.
  - destruct (chdir_keeps_world dname w w1 Hw Hc) as (Hw1 & _ & _ & D1).
    pose proof (entry_names w1 names Hw1 Ho) as Hnames. rewrite Hn in Hnames.
    apply Forall_app in Hnames. destruct Hnames as [Hp Hd].
    apply Forall_cons_iff in Hd. destruct Hd as [[Hd|Hd] _]; [|congruence].
    destruct (loop_keeps_inside cfg _ comp pre
                (walk_keeps_inside cfg cdc sch fuel) Hp
                [] w1 (Some files) wk Hw1 Hpre) as (Hwk & _ & Hexact).
    pose proof (loop_log cfg _ comp pre
                  (walk_keeps_inside cfg cdc sch fuel)
                  (walk_logs_inside cfg cdc sch fuel) Hp
                  [] w1 (Some files) wk Hw1 Hpre) as L1.
    pose proof (walk_logs_inside cfg cdc sch fuel d comp wk false wf Hwk Hsub)
      as L2.
    rewrite Hexact, resolve_simple in L2 by (discriminate || exact Hd).
    apply (log_grows_weaken _ (fun e => strictly_below (cwd w1) (fst e)))
      in L2; [|intros e; apply below_entry].
    apply (log_grows_weaken (fun e => strictly_below (cwd w1) (fst e))).
    + intros e He. split; [exact He | now apply strictly_below_other].
    + apply (log_grows_trans _ w w1 wf); [now apply log_grows_same|].
      apply (log_grows_trans _ w1 wk wf); assumption.
Qed.

Lemma subdirectory_failure_aborts_parent_example :
  exists w',
    walkDirParallel (Demo.settings 4 4) Demo.framed Demo.in_order 3 "D" true
      Demo.tree = Done (false, w') /\
    readdir_loop (Demo.settings 4 4)
      (walkDirParallel (Demo.settings 4 4) Demo.framed Demo.in_order 2) true
      ["."; ".."; "f.txt"]%string [] (with_cwd ["D"%string] Demo.tree)
    = Done (Some [("f.txt"%string, 5)], with_cwd ["D"%string] Demo.tree) /\
    dispatched w' = [].
Proof.
  destruct (subdirectory_failure_aborts_parent
              (Demo.settings 4 4) Demo.framed Demo.in_order 2 "D" true
              Demo.tree (with_cwd ["D"%string] Demo.tree)
              ["."; ".."; "f.txt"; "sub"]%string
              ["."; ".."; "f.txt"]%string "sub" []
              [("f.txt"%string, 5)] (with_cwd ["D"%string] Demo.tree)
              {| S_ISDIR := true; st_size := 0 |}
              (with_cwd ["D"%string] Demo.tree))
    as (Hrun & Hlog); try reflexivity.
  - split; reflexivity.
  - exists (with_cwd ["D"%string] Demo.tree).
    split; [exact Hrun|]. split; reflexivity.
Defined.

(** C9.  After a directory input whose walk failed, the working directory
    is where the failure left it.  When the failure came from a recursive
    call, the parent did no [chdir("..")]: the working directory is the one
    the recursive call ended in.  In every case it lies at or below the
    input directory, [main] goes on to the next input in that world, and a
    relative path is resolved from there. *)
Theorem failed_walk_leaves_process_inside :
  forall cfg cdc sch fuel dname w w1 w' rest ok,
    tidy_world w ->
    chdir dname w = Some w1 ->
    walkDirParallel cfg cdc sch (S fuel) dname (COMP cfg) w = Done (false, w') ->
    (forall names pre d post files wk sb wf,
       opendir_dot w1 = Some names ->
       names = pre ++ d :: post ->
       readdir_loop cfg (walkDirParallel cfg cdc sch fuel) (COMP cfg) pre [] w1
       = Done (Some files, wk) ->
       stat d wk = Some sb -> S_ISDIR sb = true -> isdot d = false ->
       walkDirParallel cfg cdc sch fuel d (COMP cfg) wk = Done (false, wf) ->
       cwd w' = cwd wf) /\
    is_prefix (resolve (cwd w) dname) (cwd w') /\
    (simple dname = true -> cwd w' <> cwd w) /\
    main_loop cfg cdc sch (S fuel) (dname :: rest) ok w
    = main_loop cfg cdc sch (S fuel) rest false w' /\
    (forall p, is_absolute p = false ->
       resolve (cwd w') p = fold_left enter (split_path p EmptyString) (cwd w')).
Proof.
  intros cfg cdc sch fuel dname w w1 w' rest ok Hw Hc Hrun.
  assert (Hinside : is_prefix (resolve (cwd w) dname) (cwd w')).
  { destruct (walk_keeps_inside cfg cdc sch (S fuel) dname (COMP cfg) w
                false w' Hw Hrun) as [_ Hin].
    rewrite Hc in Hin. destruct Hin as [Hpre _].
    destruct (chdir_keeps_world dname w w1 Hw Hc) as (_ & <- & _).
    exact Hpre. }
  split; [|split; [|split; [|split]]].
  - intros names pre d post files wk sb wf Ho Hn Hpre Hst Hdir Hdot Hsub.
    pose proof (parent_stops_at_failed_subdirectory
                  cfg cdc sch fuel dname (COMP cfg) w w1 names pre d post
                  files wk sb wf Hc Ho Hn Hpre Hst Hdir Hdot Hsub) as E.
    rewrite E in Hrun. now injection Hrun as <-.
  - exact Hinside.
  - intros Hd. rewrite resolve_simple in Hinside by exact Hd.
    apply strictly_below_other. eapply below_entry. exact Hinside.
  - cbn [main_loop].
    assert (Hdir : isDirectory dname w = (true, 0)).
    { unfold isDirectory, stat. unfold chdir in Hc.
      destruct (lookup (resolve (cwd w) dname) (root w)) as [[|pm es|]|];
        try discriminate. reflexivity. }
    rewrite Hdir, Hrun. cbn [bind]. now rewrite andb_false_r.
  - intros p Hp. unfold resolve. now rewrite Hp.
Qed.

Lemma failed_walk_leaves_process_inside_example :
  exists w',
    walkDirParallel (Demo.settings 4 4) Demo.framed Demo.in_order 3 "D" true
      Demo.tree = Done (false, w') /\
    cwd w' = ["D"%string] /\
    main_loop (Demo.settings 4 4) Demo.framed Demo.in_order 3
      ["D"; "f.txt"]%string true Demo.tree
    = main_loop (Demo.settings 4 4) Demo.framed Demo.in_order 3
        ["f.txt"%string] false w' /\
    resolve (cwd w') "f.txt" = ["D"; "f.txt"]%string.
Proof.
  exists (with_cwd ["D"%string] Demo.tree).
  destruct (failed_walk_leaves_process_inside
              (Demo.settings 4 4) Demo.framed Demo.in_order 2 "D"
              Demo.tree (with_cwd ["D"%string] Demo.tree)
              (with_cwd ["D"%string] Demo.tree) ["f.txt"%string] true)
    as (_ & _ & _ & Hmain & Hres).
  - split; reflexivity.
  - reflexivity.
  - reflexivity.
  - split; [reflexivity|]. split; [reflexivity|]. split; [exact Hmain|].
    rewrite Hres by reflexivity. reflexivity.
Defined.

(** The run of [main] on the directory [D] and then the relative name
    [f.txt]: the file that gets compressed is [D/f.txt], not [f.txt]. *)
Lemma next_input_lands_in_failed_directory :
  exists w',
    main (Demo.settings 4 4) Demo.framed Demo.in_order 3
      ["D"; "f.txt"]%string Demo.tree = Done (-1, w') /\
    cwd w' = ["D"%string] /\
    dispatched w' = [(["D"%string], "f.txt"%string)] /\
    read_file "/D/f.txt.zip" w' <> None /\
    read_file "/f.txt.zip" w' = None.
Proof.
  eexists. split; [vm_compute; reflexivity|].
  vm_compute. repeat split. discriminate.
Qed.

(** X2.  Every block of the split is readable when the input is at or
    below the threshold, when the block count is the uncapped ceiling, or
    when the input has at least [(numBlocks - 1) * numBlocks] bytes. *)
Lemma split_readable (cfg : config) (ptr : list byte) (nb bs : Z) :
  SizeT.in_range (BIG_FILE_SIZE cfg) ->
  SizeT.in_range (len ptr) ->
  split_plan cfg (len ptr) = Done (nb, bs) ->
  len ptr <= BIG_FILE_SIZE cfg \/
  nb = ceil_div (len ptr) (BIG_FILE_SIZE cfg) \/
  ((nb - 1) * nb <= len ptr /\ len ptr + nb - 1 < SizeT.modulus) ->
  forall i, (i < Z.to_nat nb)%nat ->
    exists src, block_src ptr (len ptr) nb bs i = Done src.
Proof.
  intros HT Hs Hplan Hcase.
  destruct (split_plan_facts cfg HT (len ptr) nb bs Hs Hplan) as [Hnb Hbs].
  apply blocks_fit_readable; auto.
  unfold split_plan in Hplan.
  destruct (len ptr <=? BIG_FILE_SIZE cfg) eqn:E.
  - injection Hplan as <- <-. pose proof (len_nonneg ptr). lia.
  - apply Z.leb_gt in E. bind_inv Hplan. bind_inv Hplan.
    injection Hplan as -> ->.
    destruct (block_count_exact cfg HT (len ptr) nb bs Hs E Ha Ha0)
      as (HTpos & _ & _ & _ & Hsum).
    destruct Hcase as [Hc|[Hc|[Hc1 Hc2]]]; [lia| |].
    + rewrite Hc in Ha0 |- *.
      apply (uncapped_split_fits _ _ _ HTpos E Hsum Ha0).
    + apply (large_input_fits _ _ _ (proj1 Hnb) Hc1 Hc2 Ha0).
Qed.

(** * Further properties of the engine *)

Lemma roundtrip_when_blocks_fit_example :
  exists archive w' w'',
    compressDataParallel (Demo.settings 4 4) Demo.framed Demo.backwards
      Demo.sample (len Demo.sample) "f" Demo.empty = Done (true, w') /\
    read_file "f.zip" w' = Some archive /\
    decompressDataParallel (Demo.settings 4 4) Demo.framed Demo.in_order
      archive "f.zip" w' = Done (true, w'') /\
    read_file "f" w'' = Some Demo.sample.
Proof.
  destruct (ofstream_open "f.zip" Demo.empty) as [[w1 f]|] eqn:Eo;
    [|vm_compute in Eo; discriminate Eo].
  destruct (roundtrip_when_blocks_fit
              (Demo.settings 4 4) Demo.framed (SizeT.modulus - 2)
              Demo.backwards Demo.in_order Demo.sample "f" Demo.empty 3 4 w1 f
              framed_ok framed_respects_capacity backwards_fair in_order_fair)
    as (archive & Hc & Hd).
  - vm_compute. split; [discriminate | reflexivity].
  - vm_compute. split; [discriminate | reflexivity].
  - vm_compute. discriminate.
  - reflexivity.
  - intros i Hi.
    destruct i as [|[|[|i]]];
      [eexists; vm_compute; reflexivity .. | simpl in Hi; lia].
  - exact Eo.
  - set (w' := remove_origin (Demo.settings 4 4) "f"
                 (ofstream_close (ofstream_write archive f) w1)) in *.
    destruct (allocateFile "f" (len Demo.sample) w') as [[[w3 m] buf0]|] eqn:Ea.
    + destruct (Hd w' w3 m buf0) as [Hrun Hfile].
      * vm_compute. split; [discriminate | reflexivity].
      * exact Ea.
      * exists archive, w', (unmapFile m Demo.sample w3).
        split; [exact Hc|]. split; [|split; [exact Hrun | exact Hfile]].
        apply (closed_stream_on_disk "f.zip" archive Demo.empty w1 f Eo).
    + exfalso. unfold w', allocateFile, remove_origin, ofstream_close in Ea.
      cbn [REMOVE_ORIGIN Demo.settings] in Ea.
      unfold ofstream_open in Eo. cbn in Eo. injection Eo as <- <-.
      cbn in Ea. discriminate Ea.
Defined.

Lemma split_readable_example :
  block_src Demo.sample 10 2 5 0 = Done (Demo.bytes "01234") /\
  block_src Demo.sample 10 2 5 1 = Done (Demo.bytes "56789").
Proof.
  assert (H : forall i, (i < Z.to_nat 2)%nat ->
                exists src, block_src Demo.sample (len Demo.sample) 2 5 i = Done src).
  { apply (split_readable (Demo.settings 4 1) Demo.sample 2 5).
    - vm_compute. split; [discriminate | reflexivity].
    - vm_compute. split; [discriminate | reflexivity].
    - reflexivity.
    - right. right. vm_compute. split; [discriminate | reflexivity]. }
  split.
  - destruct (H 0%nat ltac:(simpl; lia)) as [src Hs].
    vm_compute in Hs. injection Hs as <-. reflexivity.
  - destruct (H 1%nat ltac:(simpl; lia)) as [src Hs].
    vm_compute in Hs. injection Hs as <-. reflexivity.
Defined.

(** ** Where the blocks of the split lie *)

Lemma read_Fault (buf : list byte) (off n : Z) (e : fault) :
  read buf off n = Fault e -> e = OutOfBounds.
Proof.
  unfold read. destruct (_ && _); [discriminate|].
  intros H. now injection H as <-.
Qed.

Lemma compress_task_Fault (cdc : codec) (ptr : list byte) (size nb bs : Z)
      (i : nat) (s : cstate) (e : fault) :
  compress_task cdc ptr size nb bs i s = Fault e -> e = OutOfBounds.
Proof.
  unfold compress_task, compressBlock.
  destruct (read ptr _ _) as [src|e'] eqn:R; cbn [bind].
  - destruct (compress cdc src _); discriminate.
  - intros H. injection H as <-. eapply read_Fault, R.
Qed.

Lemma run_compress_Fault (cdc : codec) (ptr : list byte) (size nb bs : Z)
      (order : list nat) (s : cstate) (e : fault) :
  run_tasks (compress_task cdc ptr size nb bs) order s = Fault e ->
  e = OutOfBounds.
Proof.
  revert s. induction order as [|k rest IH]; intros s H; simpl in H.
  - discriminate H.
  - destruct (compress_task cdc ptr size nb bs k s) as [s1|e1] eqn:T;
      cbn [bind] in H.
    + eapply IH, H.
    + injection H as <-. eapply compress_task_Fault, T.
Qed.

(** X3.  In the large-file branch the blocks handed to the codec lie
    inside the input exactly when the last block starts inside it,
    [(numBlocks - 1) * blockSize <= size].  Then every block is a range of
    the input and the call returns, whatever the codec and the schedule;
    otherwise some block that starts inside the input reaches past its
    end, and the source hands it to the codec without a check. *)
Theorem blocks_lie_inside_iff_last_block_starts_inside :
  forall cfg cdc sch ptr fname w nb bs,
    fair sch ->
    SizeT.in_range (BIG_FILE_SIZE cfg) -> SizeT.in_range (len ptr) ->
    BIG_FILE_SIZE cfg < len ptr ->
    block_count cfg (len ptr) = Done nb ->
    block_size (len ptr) nb = Done bs ->
    ((nb - 1) * bs <= len ptr ->
     (forall i, (i < Z.to_nat nb)%nat ->
        0 <= block_offset bs i /\
        0 <= currentBlockSize (len ptr) nb bs i /\
        block_offset bs i + currentBlockSize (len ptr) nb bs i <= len ptr) /\
     exists r, compressDataParallel cfg cdc sch ptr (len ptr) fname w = Done r) /\
    (len ptr < (nb - 1) * bs ->
     exists i, (i < Z.to_nat nb)%nat /\
       0 <= block_offset bs i <= len ptr /\
       len ptr < block_offset bs i + currentBlockSize (len ptr) nb bs i).
Proof.
  intros cfg cdc sch ptr fname w nb bs Hf HT Hs Hgt Hc Hb.
  destruct (block_count_exact cfg HT (len ptr) nb bs Hs Hgt Hc Hb)
    as (_ & _ & Hnb & Hbs & _).
  split.
  - intros Hfit.
    pose proof (blocks_fit_readable ptr nb bs Hs Hnb Hbs Hfit) as Hread.
    split.
    + intros i Hi. destruct (Hread i Hi) as [src Hsrc].
      unfold block_src in Hsrc. apply read_Done in Hsrc. tauto.
    + unfold compressDataParallel.
      destruct (len ptr <=? BIG_FILE_SIZE cfg) eqn:E;
        [apply Z.leb_le in E; lia|].
      rewrite Hc. cbn [bind]. rewrite Hb. cbn [bind].
      destruct (run_compress_total cdc ptr (len ptr) nb bs (sch (Z.to_nat nb))
                  {| blockInfos := repeat zero_block (Z.to_nat nb);
                     compressedBlocks := repeat [] (Z.to_nat nb);
                     compressionSuccess := true |}) as [s Hrun].
      * intros i Hi. apply Hread. eapply fair_within; eauto.
      * rewrite Hrun. cbn [bind].
        destruct (negb (compressionSuccess s)); [eauto|].
        destruct (ofstream_open _ w) as [[w1 f]|]; eauto.
  - intros Hover.
    unfold SizeT.in_range in Hs, Hnb.
    assert (Hbs' : 0 < bs) by nia.
    set (q := len ptr / bs).
    assert (Hq : q * bs <= len ptr < (q + 1) * bs).
    { pose proof (Z.div_mod (len ptr) bs ltac:(lia)) as D.
      pose proof (Z.mod_pos_bound (len ptr) bs Hbs') as R.
      fold q in D. nia. }
    assert (Hq0 : 0 <= q) by (apply Z.div_pos; lia).
    assert (Hlt : q < nb - 1) by nia.
    exists (Z.to_nat q).
    assert (Hoff : block_offset bs (Z.to_nat q) = q * bs).
    { unfold block_offset, SizeT.mul. rewrite Z2Nat.id by lia.
      apply wrap_small. unfold SizeT.in_range. nia. }
    assert (Hcur : currentBlockSize (len ptr) nb bs (Z.to_nat q) = bs).
    { unfold currentBlockSize. rewrite Z2Nat.id by lia.
      replace (SizeT.sub nb 1) with (nb - 1)
        by (symmetry; unfold SizeT.sub; apply wrap_small;
            unfold SizeT.in_range; lia).
      destruct (q <? nb - 1) eqn:E; [reflexivity|].
      apply Z.ltb_ge in E. lia. }
    rewrite Hoff, Hcur. split; [lia|]. split; nia.
Qed.

Lemma blocks_lie_inside_iff_last_block_starts_inside_example :
  (exists r, compressDataParallel (Demo.settings 4 4) Demo.framed Demo.backwards
               Demo.sample (len Demo.sample) "f" Demo.empty = Done r) /\
  (exists i, (i < 8)%nat /\
     0 <= block_offset 2 i <= 10 /\
     10 < block_offset 2 i + currentBlockSize 10 8 2 i).
Proof.
  split.
  - apply (blocks_lie_inside_iff_last_block_starts_inside
             (Demo.settings 4 4) Demo.framed Demo.backwards Demo.sample "f"
             Demo.empty 3 4 backwards_fair).
    + vm_compute. split; [discriminate | reflexivity].
    + vm_compute. split; [discriminate | reflexivity].
    + reflexivity.
    + reflexivity.
    + reflexivity.
    + vm_compute. discriminate.
  - apply (blocks_lie_inside_iff_last_block_starts_inside
             (Demo.settings 1 4) Demo.picky Demo.in_order Demo.sample "f"
             Demo.empty 8 2 in_order_fair).
    + vm_compute. split; [discriminate | reflexivity].
    + vm_compute. split; [discriminate | reflexivity].
    + reflexivity.
    + reflexivity.
    + reflexivity.
    + reflexivity.
Defined.

(** ** Independence of the schedule *)

Lemma bind_assoc {A B C : Type} (m : outcome A) (f : A -> outcome B)
      (g : B -> outcome C) :
  bind (bind m f) g = bind m (fun a => bind (f a) g).
Proof. destruct m; reflexivity. Qed.

(** A loop whose iterations commute pairwise, on the indices it runs,
    gives the same result in any order. *)
Lemma run_tasks_permutation {S : Type} (body : nat -> S -> outcome S)
      (P : nat -> Prop) :
  (forall i j s, P i -> P j -> i <> j ->
     bind (body i s) (body j) = bind (body j s) (body i)) ->
  forall order order', Permutation order order' -> Forall P order ->
  forall s, run_tasks body order s = run_tasks body order' s.
Proof.
  intros comm order order' Hp.
  induction Hp as [|x l l' Hp IH|x y l|l l' l'' P1 IH1 P2 IH2]; intros Hall s.
  - reflexivity.
  - simpl. inversion Hall; subst.
    destruct (body x s); simpl; auto.
  - simpl. rewrite <- !bind_assoc.
    destruct (Nat.eq_dec y x) as [->|Hne]; [reflexivity|].
    inversion Hall as [|? ? Py Hrest]; subst.
    inversion Hrest; subst.
    now rewrite (comm y x s Py ltac:(assumption) Hne).
  - rewrite IH1 by exact Hall. apply IH2.
    eapply Permutation_Forall; eauto.
Qed.

Lemma update_update {A : Type} (i : nat) (f g : A -> A) (l : list A) :
  update i f (update i g l) = update i (fun x => f (g x)) l.
Proof.
  revert i. induction l as [|x l IH]; intros [|i]; simpl; auto.
  now rewrite IH.
Qed.

Lemma update_swap {A : Type} (i j : nat) (f g : A -> A) (l : list A) :
  i <> j -> update i f (update j g l) = update j g (update i f l).
Proof.
  revert i j. induction l as [|x l IH]; intros [|i] [|j] H; simpl; auto.
  - contradiction.
  - rewrite IH; auto.
Qed.

(** Two iterations of the compression loop on different blocks give the
    same vectors and the same flag in either order. *)
Lemma compress_task_swap (cdc : codec) (ptr : list byte) (size nb bs : Z)
      (i j : nat) (s : cstate) :
  i <> j ->
  bind (compress_task cdc ptr size nb bs i s) (compress_task cdc ptr size nb bs j)
  = bind (compress_task cdc ptr size nb bs j s) (compress_task cdc ptr size nb bs i).
Proof.
  intros Hne. unfold compress_task, compressBlock.
  destruct (read ptr (block_offset bs i) _) as [si|ei] eqn:Ri;
    destruct (read ptr (block_offset bs j) _) as [sj|ej] eqn:Rj; cbn [bind].
  - destruct (compress cdc si _) as [oi|]; destruct (compress cdc sj _) as [oj|];
      cbn [bind blockInfos compressedBlocks compressionSuccess];
      rewrite ?Ri, ?Rj; cbn [bind];
      repeat rewrite update_update;
      f_equal; f_equal; apply update_swap; auto.
  - destruct (compress cdc si _) as [oi|];
      cbn [bind blockInfos compressedBlocks compressionSuccess];
      rewrite ?Rj; reflexivity.
  - destruct (compress cdc sj _) as [oj|];
      cbn [bind blockInfos compressedBlocks compressionSuccess];
      rewrite ?Ri; reflexivity.
  - apply read_Fault in Ri, Rj. now subst.
Qed.

(** X4.  The archive does not depend on the order in which the tasks of
    the compression loop run: under any two fair schedules the call has
    the same outcome, the same result and the same files. *)
Theorem compression_is_schedule_independent :
  forall cfg cdc sch sch' ptr size fname w,
    fair sch -> fair sch' ->
    compressDataParallel cfg cdc sch ptr size fname w
    = compressDataParallel cfg cdc sch' ptr size fname w.
Proof.
  intros cfg cdc sch sch' ptr size fname w Hf Hf'.
  unfold compressDataParallel.
  destruct (size <=? BIG_FILE_SIZE cfg); [reflexivity|].
  destruct (block_count cfg size) as [nb|e]; [|reflexivity]. cbn [bind].
  destruct (block_size size nb) as [bs|e]; [|reflexivity]. cbn [bind].
  rewrite (run_tasks_permutation (compress_task cdc ptr size nb bs)
             (fun _ => True)
             (fun i j s _ _ => compress_task_swap cdc ptr size nb bs i j s)
             (sch (Z.to_nat nb)) (sch' (Z.to_nat nb))).
  - reflexivity.
  - eapply Permutation_trans; [apply Hf | apply Permutation_sym, Hf'].
  - apply Forall_forall. auto.
Qed.

Lemma compression_is_schedule_independent_example :
  compressDataParallel (Demo.settings 4 4) Demo.framed Demo.in_order
    Demo.sample 10 "f" Demo.empty
  = compressDataParallel (Demo.settings 4 4) Demo.framed Demo.backwards
      Demo.sample 10 "f" Demo.empty.
Proof.
  apply (compression_is_schedule_independent
           (Demo.settings 4 4) Demo.framed Demo.in_order Demo.backwards
           Demo.sample 10 "f" Demo.empty in_order_fair backwards_fair).
Defined.

(** ** When decompression succeeds *)

(** X5.  Decompression of an archive whose table and blocks are readable
    returns [true] exactly when the codec accepts every block; only then
    is the removal policy applied to the archive, and in both cases the
    output file has been flushed with the total original size. *)
Theorem decompression_succeeds_iff_every_block_inflates :
  forall cfg cdc sch ptr fname w numBlocks infos outfile w1 m buf0,
    fair sch ->
    respects_capacity cdc ->
    get_size_t ptr 0 = Done numBlocks ->
    read_infos ptr (Z.of_nat WORD) (Z.to_nat numBlocks) = Done infos ->
    original_total infos < SizeT.modulus ->
    outfile_name cfg fname = Done outfile ->
    allocateFile outfile (original_total infos) w = Some (w1, m, buf0) ->
    (forall i, (i < List.length infos)%nat ->
       exists src, block_input ptr infos i = Done src) ->
    exists (buf : list byte) (ok : bool),
      decompressDataParallel cfg cdc sch ptr fname w
      = Done (ok, if ok then remove_origin cfg fname (unmapFile m buf w1)
                  else unmapFile m buf w1) /\
      (ok = true <->
       forall i, (i < List.length infos)%nat ->
         exists out, inflates_to cdc ptr infos i true out) /\
      len buf = original_total infos /\
      read_file outfile (unmapFile m buf w1) = Some buf.
Proof.
  intros cfg cdc sch ptr fname w numBlocks infos outfile w1 m buf0
         Hf Hc Hn Ht Hw Ho Ha Hr.
  destruct (decompress_runs cfg cdc sch Hf Hc ptr fname w numBlocks infos
              outfile w1 m buf0 Hn Ht Hw Ho Ha Hr)
    as (buf & ok & Hrun & Hlen & _ & Good & _ & All).
  exists buf, ok. split; [|split; [|split]].
  - rewrite Hrun. destruct ok; reflexivity.
  - split; [exact Good | exact All].
  - exact Hlen.
  - eapply flushed_mapping_on_disk. exact Ha.
Qed.

Lemma decompression_succeeds_iff_every_block_inflates_example :
  exists buf w',
    decompressDataParallel (Demo.settings 4 4) Demo.framed Demo.backwards
      Demo.spoiled_archive "f.zip" Demo.empty = Done (true, w') /\
    len buf = 10 /\
    read_file "f" w' = Some buf.
Proof.
  destruct (allocateFile "f" 10 Demo.empty) as [[[w1 m] buf0]|] eqn:EA;
    [|vm_compute in EA; discriminate EA].
  destruct (decompression_succeeds_iff_every_block_inflates
              (Demo.settings 4 4) Demo.framed Demo.backwards
              Demo.spoiled_archive "f.zip" Demo.empty 3
              [Demo.descriptor 4 5 0; Demo.descriptor 4 5 1;
               Demo.descriptor 2 3 2]
              "f" w1 m buf0 backwards_fair framed_respects_capacity)
    as (buf & ok & Hrun & Hok & Hlen & Hfile).
  - reflexivity.
  - reflexivity.
  - reflexivity.
  - reflexivity.
  - exact EA.
  - intros i Hi.
    destruct i as [|[|[|i]]];
      [eexists; vm_compute; reflexivity .. | simpl in Hi; lia].
  - assert (E : ok = true).
    { apply Hok. intros i Hi.
      destruct i as [|[|[|i]]];
        [eexists; eexists; split; vm_compute; reflexivity .. | simpl in Hi; lia]. }
    subst ok. exists buf, (unmapFile m buf w1).
    split; [exact Hrun|]. split; [exact Hlen | exact Hfile].
Defined.

(** ** Stores into disjoint ranges *)

Lemma nth_write_at (buf : list byte) (off : Z) (d buf' : list byte)
      (k : nat) (x : byte) :
  write_at buf off d = Done buf' ->
  nth k buf' x
  = if (Z.to_nat off <=? k)%nat && (k <? Z.to_nat off + List.length d)%nat
    then nth (k - Z.to_nat off) d x else nth k buf x.
Proof.
  intros H. apply write_at_Done in H. destruct H as (H1 & H2 & _ & ->).
  unfold len in *.
  destruct (Z.to_nat off <=? k)%nat eqn:E1; simpl.
  - apply Nat.leb_le in E1.
    rewrite app_nth2 by (rewrite length_firstn; lia).
    rewrite length_firstn, Nat.min_l by lia.
    destruct (k <? _)%nat eqn:E2.
    + apply Nat.ltb_lt in E2. rewrite app_nth1 by lia. reflexivity.
    + apply Nat.ltb_ge in E2. rewrite app_nth2 by lia.
      rewrite nth_skipn. f_equal. lia.
  - apply Nat.leb_gt in E1.
    rewrite app_nth1 by (rewrite length_firstn; lia).
    rewrite nth_firstn.
    destruct (k <? Z.to_nat off)%nat eqn:E2; [reflexivity|].
    apply Nat.ltb_ge in E2. lia.
Qed.

Lemma write_at_Fault (buf : list byte) (off : Z) (d : list byte) (e : fault) :
  write_at buf off d = Fault e -> e = OutOfBounds.
Proof.
  unfold write_at. destruct (_ && _); [discriminate|].
  intros H. now injection H as <-.
Qed.

Lemma write_at_same_length (buf buf' : list byte) (off : Z) (d : list byte) :
  len buf' = len buf ->
  write_at buf off d = Fault OutOfBounds ->
  write_at buf' off d = Fault OutOfBounds.
Proof.
  unfold write_at. intros ->.
  destruct (_ && _); [discriminate | reflexivity].
Qed.

(** Two stores into ranges that do not overlap commute. *)
Lemma write_at_swap (buf : list byte) (o1 o2 : Z) (d1 d2 : list byte) :
  o1 + len d1 <= o2 \/ o2 + len d2 <= o1 ->
  bind (write_at buf o1 d1) (fun b => write_at b o2 d2)
  = bind (write_at buf o2 d2) (fun b => write_at b o1 d1).
Proof.
  intros Hd.
  destruct (write_at buf o1 d1) as [b1|e1] eqn:W1;
    destruct (write_at buf o2 d2) as [b2|e2] eqn:W2; cbn [bind].
  - destruct (write_at_Done _ _ _ _ W1) as (A1 & A2 & A3 & _).
    destruct (write_at_Done _ _ _ _ W2) as (B1 & B2 & B3 & _).
    destruct (write_at_in_bounds b1 o2 d2 B1 ltac:(lia)) as [b12 W12].
    destruct (write_at_in_bounds b2 o1 d1 A1 ltac:(lia)) as [b21 W21].
    rewrite W12, W21. f_equal.
    destruct (write_at_Done _ _ _ _ W12) as (_ & _ & C3 & _).
    destruct (write_at_Done _ _ _ _ W21) as (_ & _ & D3 & _).
    apply nth_ext with (d := x00) (d' := x00).
    + unfold len in *. lia.
    + intros k Hk.
      rewrite (nth_write_at _ _ _ _ k x00 W12), (nth_write_at _ _ _ _ k x00 W1).
      rewrite (nth_write_at _ _ _ _ k x00 W21), (nth_write_at _ _ _ _ k x00 W2).
      unfold len in *.
      destruct (Z.to_nat o2 <=? k)%nat eqn:E1;
        destruct (k <? Z.to_nat o2 + List.length d2)%nat eqn:E2;
        destruct (Z.to_nat o1 <=? k)%nat eqn:E3;
        destruct (k <? Z.to_nat o1 + List.length d1)%nat eqn:E4;
        simpl; try reflexivity;
        apply Nat.leb_le in E1; apply Nat.ltb_lt in E2;
        apply Nat.leb_le in E3; apply Nat.ltb_lt in E4; lia.
  - pose proof (write_at_Fault _ _ _ _ W2). subst e2.
    destruct (write_at_Done _ _ _ _ W1) as (_ & _ & A3 & _).
    apply (write_at_same_length buf b1 o2 d2 A3 W2).
  - pose proof (write_at_Fault _ _ _ _ W1). subst e1.
    destruct (write_at_Done _ _ _ _ W2) as (_ & _ & B3 & _).
    symmetry. apply (write_at_same_length buf b2 o1 d1 B3 W1).
  - apply write_at_Fault in W1, W2. now subst.
Qed.

Section DecompressOrder.

Variable cdc : codec.
Variable ptr : list byte.
Variable infos : list DataBlock.
Variable starts : list Z.

Hypothesis fit : sizes_fit infos.
Hypothesis honest : respects_capacity cdc.

Lemma decompress_task_Fault (i : nat) (s : dstate) (e : fault) :
  decompress_task cdc ptr infos starts i s = Fault e -> e = OutOfBounds.
Proof.
  unfold decompress_task, decompressBlock.
  destruct (read ptr _ _) as [src|e'] eqn:R; cbn [bind].
  - destruct (uncompress cdc src _) as [ok out].
    destruct (write_at _ _ out) as [b|e'] eqn:W; cbn [bind].
    + discriminate.
    + intros H. injection H as <-. eapply write_at_Fault, W.
  - intros H. injection H as <-. eapply read_Fault, R.
Qed.

Lemma decompress_task_unreadable (i : nat) (s : dstate) (e : fault) :
  read ptr (nth i starts 0) (compressedSize (nth i infos zero_block)) = Fault e ->
  decompress_task cdc ptr infos starts i s = Fault OutOfBounds.
Proof.
  intros R. unfold decompress_task, decompressBlock. rewrite R. cbn [bind].
  f_equal. eapply read_Fault, R.
Qed.

Lemma decompress_task_eq (i : nat) (s : dstate) (src out : list byte) (ok : bool) :
  read ptr (nth i starts 0) (compressedSize (nth i infos zero_block)) = Done src ->
  uncompress cdc src (originalSize (nth i infos zero_block)) = (ok, out) ->
  decompress_task cdc ptr infos starts i s
  = bind (write_at (decompressed_data s) (original_total (firstn i infos)) out)
         (fun b => Done {| decompressed_data := b;
                           decompressionSuccess :=
                             if ok then decompressionSuccess s else false |}).
Proof.
  intros R U. unfold decompress_task, decompressBlock.
  rewrite R. cbn [bind]. rewrite U.
  rewrite output_offset_exact by exact fit.
  destruct (write_at _ _ out); reflexivity.
Qed.

Lemma decompress_pair (i j : nat) (s : dstate) (si sj outi outj : list byte)
      (oki okj : bool) :
  read ptr (nth i starts 0) (compressedSize (nth i infos zero_block)) = Done si ->
  read ptr (nth j starts 0) (compressedSize (nth j infos zero_block)) = Done sj ->
  uncompress cdc si (originalSize (nth i infos zero_block)) = (oki, outi) ->
  uncompress cdc sj (originalSize (nth j infos zero_block)) = (okj, outj) ->
  bind (decompress_task cdc ptr infos starts i s)
       (decompress_task cdc ptr infos starts j)
  = bind (bind (write_at (decompressed_data s)
                         (original_total (firstn i infos)) outi)
               (fun b => write_at b (original_total (firstn j infos)) outj))
         (fun b => Done {| decompressed_data := b;
                           decompressionSuccess :=
                             if okj
                             then if oki then decompressionSuccess s else false
                             else false |}).
Proof.
  intros Ri Rj Ui Uj.
  rewrite (decompress_task_eq i s si outi oki Ri Ui).
  destruct (write_at (decompressed_data s) _ outi) as [b1|e]; cbn [bind];
    [|reflexivity].
  rewrite (decompress_task_eq j _ sj outj okj Rj Uj).
  reflexivity.
Qed.

(** Two iterations of the decompression loop on different blocks of the
    table store into ranges that do not overlap, and commute. *)
Lemma decompress_task_swap (i j : nat) (s : dstate) :
  (i < List.length infos)%nat -> (j < List.length infos)%nat -> i <> j ->
  bind (decompress_task cdc ptr infos starts i s)
       (decompress_task cdc ptr infos starts j)
  = bind (decompress_task cdc ptr infos starts j s)
         (decompress_task cdc ptr infos starts i).
Proof.
  intros Hi Hj Hne.
  destruct (read ptr (nth i starts 0) (compressedSize (nth i infos zero_block)))
    as [si|ei] eqn:Ri;
    destruct (read ptr (nth j starts 0) (compressedSize (nth j infos zero_block)))
      as [sj|ej] eqn:Rj.
  - destruct (uncompress cdc si (originalSize (nth i infos zero_block)))
      as [oki outi] eqn:Ui.
    destruct (uncompress cdc sj (originalSize (nth j infos zero_block)))
      as [okj outj] eqn:Uj.
    rewrite (decompress_pair i j s si sj outi outj oki okj Ri Rj Ui Uj).
    rewrite (decompress_pair j i s sj si outj outi okj oki Rj Ri Uj Ui).
    rewrite write_at_swap.
    + destruct oki, okj; reflexivity.
    + pose proof (honest si _ (size_nonneg infos fit i)) as Ci.
      pose proof (honest sj _ (size_nonneg infos fit j)) as Cj.
      rewrite Ui in Ci. rewrite Uj in Cj. simpl in Ci, Cj.
      destruct (ranges_disjoint infos fit i j Hi Hj Hne); lia.
  - rewrite (decompress_task_unreadable j s ej Rj). cbn [bind].
    destruct (decompress_task cdc ptr infos starts i s) as [s1|e] eqn:T;
      cbn [bind].
    + apply (decompress_task_unreadable j s1 ej Rj).
    + f_equal. eapply decompress_task_Fault, T.
  - rewrite (decompress_task_unreadable i s ei Ri). cbn [bind].
    destruct (decompress_task cdc ptr infos starts j s) as [s1|e] eqn:T;
      cbn [bind].
    + symmetry. apply (decompress_task_unreadable i s1 ei Ri).
    + f_equal. symmetry. eapply decompress_task_Fault, T.
  - rewrite (decompress_task_unreadable i s ei Ri).
    rewrite (decompress_task_unreadable j s ej Rj). reflexivity.
Qed.

End DecompressOrder.

(** X6.  The output of decompression does not depend on the order in
    which the tasks of the loop run, as long as the sizes in the table do
    not add up past [2^64] and the codec stays within the capacity it is
    given: the blocks are stored in ranges that do not overlap. *)
Theorem decompression_is_schedule_independent :
  forall cfg cdc sch sch' ptr fname w,
    fair sch -> fair sch' ->
    respects_capacity cdc ->
    (forall numBlocks infos,
       get_size_t ptr 0 = Done numBlocks ->
       read_infos ptr (Z.of_nat WORD) (Z.to_nat numBlocks) = Done infos ->
       original_total infos < SizeT.modulus) ->
    decompressDataParallel cfg cdc sch ptr fname w
    = decompressDataParallel cfg cdc sch' ptr fname w.
Proof.
  intros cfg cdc sch sch' ptr fname w Hf Hf' Hc Hfit.
  unfold decompressDataParallel.
  destruct (get_size_t ptr 0) as [nb|e] eqn:Hn; [|reflexivity]. cbn [bind].
  destruct (nb =? 1); [reflexivity|].
  destruct (read_infos ptr (Z.of_nat WORD) (Z.to_nat nb)) as [infos|e] eqn:Ht;
    [|reflexivity].
  cbn [bind].
  destruct (outfile_name cfg fname) as [outfile|e]; [|reflexivity]. cbn [bind].
  destruct (allocateFile outfile _ w) as [[[w1 m] buf]|]; [|reflexivity].
  assert (fit : sizes_fit infos).
  { split; [|eapply Hfit; eauto]. apply read_infos_Done in Ht. tauto. }
  assert (L : List.length infos = Z.to_nat nb)
    by (apply read_infos_Done in Ht; tauto).
  rewrite (run_tasks_permutation _ (fun i => (i < List.length infos)%nat)
             (decompress_task_swap cdc ptr infos _ fit Hc)
             (sch (Z.to_nat nb)) (sch' (Z.to_nat nb))).
  - reflexivity.
  - eapply Permutation_trans; [apply Hf | apply Permutation_sym, Hf'].
  - apply Forall_forall. intros i Hi. rewrite L.
    apply (fair_within sch _ _ Hf Hi).
Qed.

Lemma decompression_is_schedule_independent_example :
  decompressDataParallel (Demo.settings 4 4) Demo.picky Demo.in_order
    Demo.spoiled_archive "f.zip" Demo.empty
  = decompressDataParallel (Demo.settings 4 4) Demo.picky Demo.backwards
      Demo.spoiled_archive "f.zip" Demo.empty.
Proof.
  apply (decompression_is_schedule_independent
           (Demo.settings 4 4) Demo.picky Demo.in_order Demo.backwards
           Demo.spoiled_archive "f.zip" Demo.empty
           in_order_fair backwards_fair picky_respects_capacity).
  intros numBlocks infos Hn Ht.
  change (get_size_t Demo.spoiled_archive 0) with (@Done Z 3) in Hn.
  injection Hn as <-.
  assert (E : read_infos Demo.spoiled_archive (Z.of_nat WORD) (Z.to_nat 3)
              = Done [Demo.descriptor 4 5 0; Demo.descriptor 4 5 1;
                      Demo.descriptor 2 3 2]) by reflexivity.
  rewrite E in Ht. injection Ht as <-. reflexivity.
Defined.

(** ** Archives at the edges *)

(** X7.  An archive whose header announces no block is accepted: the
    rest of the archive is not looked at, an empty output file is made,
    the call returns [true] and the removal policy is applied. *)
Theorem archive_with_no_block_gives_empty_file :
  forall cfg cdc sch ptr fname w outfile w1 m buf0,
    fair sch ->
    get_size_t ptr 0 = Done 0 ->
    outfile_name cfg fname = Done outfile ->
    allocateFile outfile 0 w = Some (w1, m, buf0) ->
    decompressDataParallel cfg cdc sch ptr fname w
    = Done (true, remove_origin cfg fname (unmapFile m [] w1)) /\
    read_file outfile (unmapFile m [] w1) = Some [].
Proof.
  intros cfg cdc sch ptr fname w outfile w1 m buf0 Hf Hn Ho Ha.
  split; [|eapply flushed_mapping_on_disk; exact Ha].
  destruct (flushed_mapping_on_disk outfile 0 [] w w1 m buf0 Ha) as [Hb _].
  change (zeros 0) with (@nil byte) in Hb. subst buf0.
  unfold decompressDataParallel. rewrite Hn. cbn [bind].
  change (0 =? 1) with false. cbv iota.
  change (Z.to_nat 0) with O. cbn [read_infos bind].
  rewrite Ho. cbn [bind].
  change (total_size []) with 0. rewrite Ha.
  assert (E : sch O = []).
  { apply Permutation_nil, Permutation_sym, (Hf O). }
  rewrite E. reflexivity.
Qed.

Lemma archive_with_no_block_gives_empty_file_example :
  exists w',
    decompressDataParallel (Demo.settings 4 4) Demo.picky Demo.backwards
      (put_size_t 0 ++ Demo.bytes "anything") "f.zip" Demo.empty
    = Done (true, w') /\
    read_file "f" w' = Some [].
Proof.
  destruct (allocateFile "f" 0 Demo.empty) as [[[w1 m] buf0]|] eqn:EA;
    [|vm_compute in EA; discriminate EA].
  exists (unmapFile m [] w1).
  apply (archive_with_no_block_gives_empty_file
           (Demo.settings 4 4) Demo.picky Demo.backwards
           (put_size_t 0 ++ Demo.bytes "anything") "f.zip" Demo.empty
           "f" w1 m buf0 backwards_fair).
  - reflexivity.
  - reflexivity.
  - exact EA.
Defined.

Lemma compressed_total_app (a b : list DataBlock) :
  compressed_total (a ++ b) = compressed_total a + compressed_total b.
Proof.
  induction a as [|d a IH]; simpl; [reflexivity|]. rewrite IH. lia.
Qed.

Lemma read_infos_sizes (buf : list byte) (off : Z) (n : nat)
      (infos : list DataBlock) :
  read_infos buf off n = Done infos -> Forall well_sized infos.
Proof.
  revert off infos. induction n as [|n IH]; intros off infos H; simpl in H.
  - injection H as <-. constructor.
  - bind_inv H. bind_inv H. injection H as <-.
    constructor; [|eapply IH; eauto].
    apply get_DataBlock_range in Ha. exact Ha.
Qed.

Lemma compressed_total_nonneg (infos : list DataBlock) :
  Forall well_sized infos -> 0 <= compressed_total infos.
Proof.
  induction 1 as [|d l Hd _ IH]; simpl; [lia|].
  destruct Hd as (_ & Hc & _). unfold SizeT.in_range in Hc. lia.
Qed.

Lemma compressed_total_split (infos : list DataBlock) (i : nat) :
  (i < List.length infos)%nat ->
  compressed_total infos
  = compressed_total (firstn i infos)
    + compressedSize (nth i infos zero_block)
    + compressed_total (skipn (S i) infos).
Proof.
  intros Hi. rewrite (split_at_nth infos i zero_block Hi) at 1.
  rewrite compressed_total_app. simpl. lia.
Qed.

Lemma outfile_name_total (cfg : config) (fname : string) :
  exists outfile, outfile_name cfg fname = Done outfile.
Proof.
  unfold outfile_name, substr.
  destruct (size fname <? 0) eqn:E; [|eauto].
  apply Z.ltb_lt in E. unfold size in E. lia.
Qed.

(** The payload ranges of an archive whose table is [infos] lie inside a
    mapping of the announced length. *)
Lemma payloads_inside (ptr : list byte) (infos : list DataBlock) (i : nat) :
  Forall well_sized infos ->
  Z.of_nat WORD + len infos * Z.of_nat DESC + compressed_total infos <= len ptr ->
  (i < List.length infos)%nat ->
  0 <= nth i (block_starts (Z.of_nat WORD + len infos * Z.of_nat DESC) infos) 0 /\
  0 <= compressedSize (nth i infos zero_block) /\
  nth i (block_starts (Z.of_nat WORD + len infos * Z.of_nat DESC) infos) 0
  + compressedSize (nth i infos zero_block) <= len ptr.
Proof.
  intros Hwell Hlen Hi.
  rewrite nth_block_starts by exact Hi.
  rewrite (compressed_total_split infos i Hi) in Hlen.
  pose proof (compressed_total_nonneg _ (Forall_firstn _ i _ Hwell)) as H1.
  pose proof (compressed_total_nonneg _ (Forall_skipn _ (S i) _ Hwell)) as H2.
  assert (H3 : 0 <= compressedSize (nth i infos zero_block)).
  { pose proof (proj1 (Forall_forall _ _) Hwell _ (nth_In infos zero_block Hi))
      as (_ & Hc & _).
    unfold SizeT.in_range in Hc. lia. }
  pose proof (len_nonneg infos).
  change (Z.of_nat WORD) with 8 in *. change (Z.of_nat DESC) with 24 in *.
  lia.
Qed.

(** Where the output file cannot be allocated the call returns [false]
    at once. *)
Lemma decompress_without_output (cfg : config) (cdc : codec) (sch : scheduler)
      (ptr : list byte) (fname : string) (w : world) (numBlocks : Z)
      (infos : list DataBlock) (outfile : string) :
  get_size_t ptr 0 = Done numBlocks ->
  read_infos ptr (Z.of_nat WORD) (Z.to_nat numBlocks) = Done infos ->
  original_total infos < SizeT.modulus ->
  outfile_name cfg fname = Done outfile ->
  allocateFile outfile (original_total infos) w = None ->
  decompressDataParallel cfg cdc sch ptr fname w = Done (false, w).
Proof.
  intros Hn Ht Hfit Ho Ha.
  assert (fit : sizes_fit infos).
  { split; [|exact Hfit]. apply read_infos_Done in Ht. tauto. }
  unfold decompressDataParallel. rewrite Hn. cbn [bind].
  destruct (numBlocks =? 1) eqn:E.
  - apply Z.eqb_eq in E. subst numBlocks.
    change (Z.to_nat 1) with 1%nat in Ht. cbn [read_infos] in Ht.
    bind_inv Ht. bind_inv Ht. injection Ha1 as <-. injection Ht as <-.
    rewrite Ha0. cbn [bind]. rewrite Ho. cbn [bind].
    replace (originalSize a) with (original_total [a]) by (simpl; lia).
    now rewrite Ha.
  - rewrite Ht. cbn [bind]. rewrite Ho. cbn [bind].
    rewrite (total_size_exact infos fit). now rewrite Ha.
Qed.

(** X8.  The payloads decompression hands to the codec lie inside the
    mapped archive exactly when the archive has the length its header and
    table announce, [8 + 24 * numBlocks + sum of compressedSize].  Then
    every payload is a range of the archive and the call returns;
    otherwise the last payload reaches past the end of the mapping, and
    the source, which is given no length, hands it to the codec without a
    check. *)
Theorem payloads_lie_inside_iff_archive_is_whole :
  forall cfg cdc sch ptr fname w numBlocks infos,
    fair sch ->
    respects_capacity cdc ->
    get_size_t ptr 0 = Done numBlocks ->
    read_infos ptr (Z.of_nat WORD) (Z.to_nat numBlocks) = Done infos ->
    original_total infos < SizeT.modulus ->
    (Z.of_nat WORD + numBlocks * Z.of_nat DESC + compressed_total infos
     <= len ptr ->
     (forall i, (i < List.length infos)%nat ->
        0 <= nth i (block_starts (Z.of_nat WORD + len infos * Z.of_nat DESC)
                      infos) 0 /\
        0 <= compressedSize (nth i infos zero_block) /\
        nth i (block_starts (Z.of_nat WORD + len infos * Z.of_nat DESC) infos) 0
        + compressedSize (nth i infos zero_block) <= len ptr) /\
     exists r, decompressDataParallel cfg cdc sch ptr fname w = Done r) /\
    (len ptr
     < Z.of_nat WORD + numBlocks * Z.of_nat DESC + compressed_total infos ->
     exists i, (i < List.length infos)%nat /\
       len ptr
       < nth i (block_starts (Z.of_nat WORD + len infos * Z.of_nat DESC)
                  infos) 0
         + compressedSize (nth i infos zero_block)).
Proof.
  intros cfg cdc sch ptr fname w numBlocks infos Hf Hcap Hn Ht Hfit.
  pose proof (get_size_t_range _ _ _ Hn) as Hr. unfold SizeT.in_range in Hr.
  pose proof (read_infos_sizes _ _ _ _ Ht) as Hwell.
  assert (L : List.length infos = Z.to_nat numBlocks)
    by (apply read_infos_Done in Ht; tauto).
  assert (Hlen : len infos = numBlocks) by (unfold len; rewrite L; lia).
  split.
  - intros Hwhole. rewrite <- Hlen in Hwhole.
    pose proof (payloads_inside ptr infos) as Hin.
    split; [intros i Hi; now apply Hin|].
    destruct (outfile_name_total cfg fname) as [outfile Ho].
    destruct (allocateFile outfile (original_total infos) w)
      as [[[w1 m] buf0]|] eqn:Ha.
    + destruct (decompress_runs cfg cdc sch Hf Hcap ptr fname w numBlocks infos
                  outfile w1 m buf0 Hn Ht Hfit Ho Ha)
        as (buf & ok & Hrun & _).
      * intros i Hi. unfold block_input.
        destruct (Hin i Hwell Hwhole Hi) as (H1 & H2 & H3).
        rewrite read_in_bounds by assumption. eauto.
      * rewrite Hrun. eauto.
    + rewrite (decompress_without_output cfg cdc sch ptr fname w numBlocks infos
                 outfile Hn Ht Hfit Ho Ha). eauto.
  - intros Hshort. rewrite <- Hlen in Hshort.
    assert (Hhead : Z.of_nat WORD <= len ptr).
    { unfold get_size_t in Hn. bind_inv Hn. apply read_Done in Ha. lia. }
    destruct infos as [|d0 rest] eqn:Ei.
    { exfalso. change (compressed_total []) with 0 in Hshort.
      change (len (@nil DataBlock)) with 0 in Hshort. lia. }
    rewrite <- Ei in *.
    assert (Hpos : (0 < List.length infos)%nat) by (rewrite Ei; simpl; lia).
    exists (List.length infos - 1)%nat. split; [lia|].
    rewrite nth_block_starts by lia.
    pose proof (compressed_total_split infos (List.length infos - 1)
                  ltac:(lia)) as Hsp.
    replace (S (List.length infos - 1)) with (List.length infos) in Hsp by lia.
    rewrite skipn_all in Hsp. change (compressed_total []) with 0 in Hsp.
    lia.
Qed.

Lemma payloads_lie_inside_iff_archive_is_whole_example :
  (exists r, decompressDataParallel (Demo.settings 4 4) Demo.picky
               Demo.backwards Demo.spoiled_archive "f.zip" Demo.empty = Done r) /\
  (exists i, (i < 3)%nat /\
     len (firstn 90 Demo.spoiled_archive)
     < nth i (block_starts (Z.of_nat WORD + 3 * Z.of_nat DESC)
                [Demo.descriptor 4 5 0; Demo.descriptor 4 5 1;
                 Demo.descriptor 2 3 2]) 0
       + compressedSize
           (nth i [Demo.descriptor 4 5 0; Demo.descriptor 4 5 1;
                   Demo.descriptor 2 3 2] zero_block)).
Proof.
  split.
  - apply (payloads_lie_inside_iff_archive_is_whole
             (Demo.settings 4 4) Demo.picky Demo.backwards
             Demo.spoiled_archive "f.zip" Demo.empty 3
             [Demo.descriptor 4 5 0; Demo.descriptor 4 5 1;
              Demo.descriptor 2 3 2] backwards_fair picky_respects_capacity).
    + reflexivity.
    + reflexivity.
    + reflexivity.
    + vm_compute. discriminate.
  - apply (payloads_lie_inside_iff_archive_is_whole
             (Demo.settings 4 4) Demo.picky Demo.backwards
             (firstn 90 Demo.spoiled_archive) "f.zip" Demo.empty 3
             [Demo.descriptor 4 5 0; Demo.descriptor 4 5 1;
              Demo.descriptor 2 3 2] backwards_fair picky_respects_capacity).
    + reflexivity.
    + reflexivity.
    + reflexivity.
    + reflexivity.
Defined.

(** ** Reading back the archive layout *)

Lemma block_input_layout (infos : list DataBlock) (payloads : list (list byte))
      (i : nat) :
  List.length payloads = List.length infos ->
  (forall j, (j < List.length infos)%nat ->
     compressedSize (nth j infos zero_block) = len (nth j payloads [])) ->
  (i < List.length infos)%nat ->
  block_input (archive_bytes infos payloads) infos i = Done (nth i payloads []).
Proof.
  intros L Hsizes Hi. unfold block_input.
  rewrite nth_block_starts by exact Hi.
  rewrite (compressed_total_payloads infos payloads i L Hsizes).
  rewrite (Hsizes i Hi).
  unfold archive_bytes. rewrite app_assoc.
  rewrite <- (app_nil_r (List.concat payloads)).
  rewrite <- len_table, <- (len_put_size_t (len infos)), <- len_app.
  apply read_chunk. lia.
Qed.

(** X9.  The header parser of decompression inverts the layout that
    compression writes: from the bytes of a block count, a table of
    descriptors whose fields are [size_t] values and the payloads of the
    announced lengths, it reads back the count, the same table, and for
    every block exactly its payload. *)
Theorem archive_layout_parses_back :
  forall infos payloads,
    Forall well_sized infos ->
    SizeT.in_range (len infos) ->
    List.length payloads = List.length infos ->
    (forall i, (i < List.length infos)%nat ->
       compressedSize (nth i infos zero_block) = len (nth i payloads [])) ->
    get_size_t (archive_bytes infos payloads) 0 = Done (len infos) /\
    read_infos (archive_bytes infos payloads) (Z.of_nat WORD)
               (List.length infos) = Done infos /\
    forall i, (i < List.length infos)%nat ->
      block_input (archive_bytes infos payloads) infos i
      = Done (nth i payloads []).
Proof.
  intros infos payloads Hwell Hn L Hsizes. split; [|split].
  - unfold archive_bytes. now apply get_size_t_head.
  - unfold archive_bytes. rewrite <- (len_put_size_t (len infos)).
    now apply read_infos_table.
  - intros i Hi. now apply block_input_layout.
Qed.

Lemma archive_layout_parses_back_example :
  get_size_t Demo.spoiled_archive 0 = Done 3 /\
  read_infos Demo.spoiled_archive (Z.of_nat WORD) 3
  = Done [Demo.descriptor 4 5 0; Demo.descriptor 4 5 1; Demo.descriptor 2 3 2] /\
  block_input Demo.spoiled_archive
    [Demo.descriptor 4 5 0; Demo.descriptor 4 5 1; Demo.descriptor 2 3 2] 2
  = Done (x01 :: Demo.bytes "89").
Proof.
  destruct (archive_layout_parses_back
              [Demo.descriptor 4 5 0; Demo.descriptor 4 5 1;
               Demo.descriptor 2 3 2]
              [x01 :: Demo.bytes "0123"; x01 :: xff :: Demo.bytes "567";
               x01 :: Demo.bytes "89"]) as (H1 & H2 & H3).
  - repeat constructor; vm_compute; try discriminate; reflexivity.
  - vm_compute. split; [discriminate | reflexivity].
  - reflexivity.
  - intros i Hi.
    destruct i as [|[|[|i]]]; [reflexivity .. | simpl in Hi; lia].
  - split; [exact H1|]. split; [exact H2|].
    apply (H3 2%nat). simpl. lia.
Defined.

(** ** The files a call leaves alone *)

Lemma find_put_other (s t : string) (v : node) (es : list (string * node)) :
  s <> t -> find_entry t (put_entry s v es) = find_entry t es.
Proof.
  intros Hne. induction es as [|[k x] es IH]; simpl.
  - destruct (String.eqb_spec s t); [contradiction | reflexivity].
  - destruct (String.eqb_spec k s) as [->|Hk]; simpl.
    + destruct (String.eqb_spec s t); [contradiction | reflexivity].
    + destruct (String.eqb k t); [reflexivity | exact IH].
Qed.

Lemma find_del_other (s t : string) (es : list (string * node)) :
  s <> t -> find_entry t (del_entry s es) = find_entry t es.
Proof.
  intros Hne. induction es as [|[k x] es IH]; simpl.
  - reflexivity.
  - destruct (String.eqb_spec k s) as [->|Hk]; simpl.
    + destruct (String.eqb_spec s t); [contradiction | reflexivity].
    + destruct (String.eqb k t); [reflexivity | exact IH].
Qed.

(** Storing a file leaves every other file as it was. *)
Lemma store_keeps_files (p q : list string) (x d : list byte) (n n' : node) :
  store p x n = Some n' -> q <> p ->
  lookup q n = Some (File d) -> lookup q n' = Some (File d).
Proof.
  revert q n n'. induction p as [|s p IH]; intros q n n' H Hne Hq.
  - destruct n; discriminate.
  - destruct n as [|pm es|]; try discriminate.
    destruct q as [|s' q]; [discriminate Hq|].
    cbn [lookup] in Hq.
    destruct p as [|t p].
    + assert (E : n' = Dir pm (put_entry s (File x) es) /\
                  (find_entry s es = None \/
                   exists y, find_entry s es = Some (File y))).
      { simpl in H. destruct (find_entry s es) as [[y| |]|]; try discriminate.
        - injection H as <-. eauto.
        - destruct (p_write pm); [|discriminate]. injection H as <-. auto. }
      destruct E as [-> Hs]. cbn [lookup].
      destruct (String.eqb_spec s s') as [<-|Hs'].
      * exfalso. destruct Hs as [Hs|[y Hs]]; rewrite Hs in Hq.
        -- discriminate.
        -- destruct q as [|t q]; [now apply Hne | discriminate].
      * rewrite find_put_other by exact Hs'. exact Hq.
    + rewrite store_deeper in H.
      destruct (find_entry s es) as [c|] eqn:Ec; [|discriminate].
      destruct (store (t :: p) x c) as [c'|] eqn:Es; [|discriminate].
      injection H as <-. cbn [lookup].
      destruct (String.eqb_spec s s') as [<-|Hs'].
      * rewrite find_put_same. rewrite Ec in Hq.
        apply (IH q c c' Es); [congruence | exact Hq].
      * rewrite find_put_other by exact Hs'. exact Hq.
Qed.

(** Removing a file leaves every other file as it was. *)
Lemma remove_keeps_files (p q : list string) (d : list byte) (n n' : node) :
  remove p n = Some n' -> q <> p ->
  lookup q n = Some (File d) -> lookup q n' = Some (File d).
Proof.
  revert q n n'. induction p as [|s p IH]; intros q n n' H Hne Hq.
  - destruct n; discriminate.
  - destruct n as [|pm es|]; try discriminate.
    destruct q as [|s' q]; [discriminate Hq|].
    cbn [lookup] in Hq.
    destruct p as [|t p].
    + simpl in H.
      destruct (find_entry s es) as [[y| |]|] eqn:Es; try discriminate.
      destruct (p_write pm); [|discriminate]. injection H as <-.
      cbn [lookup].
      destruct (String.eqb_spec s s') as [<-|Hs'].
      * exfalso. rewrite Es in Hq.
        destruct q as [|t q]; [now apply Hne | discriminate].
      * rewrite find_del_other by exact Hs'. exact Hq.
    + rewrite remove_deeper in H.
      destruct (find_entry s es) as [c|] eqn:Ec; [|discriminate].
      destruct (remove (t :: p) c) as [c'|] eqn:Es; [|discriminate].
      injection H as <-. cbn [lookup].
      destruct (String.eqb_spec s s') as [<-|Hs'].
      * rewrite find_put_same. rewrite Ec in Hq.
        apply (IH q c c' Es); [congruence | exact Hq].
      * rewrite find_put_other by exact Hs'. exact Hq.
Qed.

Lemma leaves_files_refl (touched : list (list string)) (w : world) :
  leaves_files touched w w.
Proof. split; auto. Qed.

Lemma leaves_files_trans (touched : list (list string)) (w1 w2 w3 : world) :
  leaves_files touched w1 w2 -> leaves_files touched w2 w3 ->
  leaves_files touched w1 w3.
Proof.
  intros [C1 F1] [C2 F2]. split; [congruence|].
  intros q d Hq H. apply F2, F1; auto.
Qed.

Lemma store_leaves_files (touched : list (list string)) (p : list string)
      (x : list byte) (w : world) (r : node) :
  In p touched -> store p x (root w) = Some r ->
  leaves_files touched w (with_root r w).
Proof.
  intros Hp Hs. split; [reflexivity|].
  intros q d Hq H. simpl.
  apply (store_keeps_files p q x d _ _ Hs); [|exact H].
  intros ->. contradiction.
Qed.

Lemma unlink_leaves_files (touched : list (list string)) (path : string)
      (w : world) :
  In (resolve (cwd w) path) touched -> leaves_files touched w (unlink path w).
Proof.
  intros Hp. unfold unlink.
  destruct (remove _ (root w)) as [r|] eqn:E; [|apply leaves_files_refl].
  split; [reflexivity|].
  intros q d Hq H. simpl.
  apply (remove_keeps_files _ q d _ _ E); [|exact H].
  intros ->. contradiction.
Qed.

Section Frame.

Variable cfg : config.
Variable cdc : codec.
Variable sch : scheduler.

(** The paths a call on [fname] with output [out] may write or remove. *)
Let touched (w : world) (fname out : string) : list (list string) :=
  resolve (cwd w) out
  :: (if REMOVE_ORIGIN cfg then [resolve (cwd w) fname] else []).

Lemma remove_origin_leaves_files (fname out : string) (w w2 : world) :
  cwd w2 = cwd w ->
  leaves_files (touched w fname out) w2 (remove_origin cfg fname w2).
Proof.
  intros C. unfold remove_origin, touched.
  destruct (REMOVE_ORIGIN cfg); [|apply leaves_files_refl].
  apply unlink_leaves_files. rewrite C. right. now left.
Qed.

Lemma written_leaves_files (fname : string) (w w1 : world) (f g : ofstream) :
  ofstream_open (fname ++ SUFFIX cfg) w = Some (w1, f) ->
  target g = target f ->
  leaves_files (touched w fname (fname ++ SUFFIX cfg)) w
    (remove_origin cfg fname (ofstream_close g w1)).
Proof.
  intros Ho Hg. unfold ofstream_open in Ho.
  destruct (store _ [] (root w)) as [r|] eqn:E; [|discriminate].
  injection Ho as <- <-. simpl in Hg.
  assert (H1 : leaves_files (touched w fname (fname ++ SUFFIX cfg)) w
                 (with_root r w)).
  { eapply store_leaves_files; [|exact E]. now left. }
  assert (H2 : leaves_files (touched w fname (fname ++ SUFFIX cfg))
                 (with_root r w) (ofstream_close g (with_root r w))).
  { unfold ofstream_close. rewrite Hg.
    destruct (store _ (pending g) _) as [r'|] eqn:E';
      [|apply leaves_files_refl].
    eapply store_leaves_files; [|exact E']. now left. }
  eapply leaves_files_trans; [exact H1|].
  eapply leaves_files_trans; [exact H2|].
  apply remove_origin_leaves_files. apply H2.
Qed.

Lemma flushed_leaves_files (fname outfile : string) (sz : Z) (w w1 : world)
      (m : mapping) (buf0 buf : list byte) :
  allocateFile outfile sz w = Some (w1, m, buf0) ->
  leaves_files (touched w fname outfile) w (unmapFile m buf w1) /\
  leaves_files (touched w fname outfile) w
    (remove_origin cfg fname (unmapFile m buf w1)).
Proof.
  intros Ha. unfold allocateFile in Ha.
  destruct (store _ (zeros sz) (root w)) as [r|] eqn:E; [|discriminate].
  injection Ha as <- <- _.
  assert (H1 : leaves_files (touched w fname outfile) w (with_root r w)).
  { eapply store_leaves_files; [|exact E]. now left. }
  assert (H2 : leaves_files (touched w fname outfile) (with_root r w)
                 (unmapFile {| backing := resolve (cwd w) outfile |} buf
                    (with_root r w))).
  { unfold unmapFile. cbn [backing].
    destruct (store _ buf _) as [r'|] eqn:E'; [|apply leaves_files_refl].
    eapply store_leaves_files; [|exact E']. now left. }
  assert (H3 := leaves_files_trans _ _ _ _ H1 H2).
  split; [exact H3|].
  eapply leaves_files_trans; [exact H3|].
  apply remove_origin_leaves_files. apply H3.
Qed.

End Frame.

(** X10.  Compression leaves the working directory alone and changes no
    file but the archive it writes and, where the removal policy is on,
    the source: every other regular file keeps its bytes, whether the
    call succeeds or not. *)
Theorem compression_touches_only_archive_and_source :
  forall cfg cdc sch ptr size fname w b w',
    compressDataParallel cfg cdc sch ptr size fname w = Done (b, w') ->
    leaves_files
      (resolve (cwd w) (fname ++ SUFFIX cfg)
       :: (if REMOVE_ORIGIN cfg then [resolve (cwd w) fname] else []))
      w w'.
Proof.
  intros cfg cdc sch ptr size fname w b w' H.
  unfold compressDataParallel in H.
  destruct (size <=? BIG_FILE_SIZE cfg).
  - bind_inv H.
    destruct a as [out|]; [|injection H as _ <-; apply leaves_files_refl].
    destruct (ofstream_open _ w) as [[w1 f]|] eqn:Eo;
      [|injection H as _ <-; apply leaves_files_refl].
    injection H as _ <-. eapply written_leaves_files; eauto.
  - bind_inv H. bind_inv H. bind_inv H.
    destruct (negb (compressionSuccess a1));
      [injection H as _ <-; apply leaves_files_refl|].
    destruct (ofstream_open _ w) as [[w1 f]|] eqn:Eo;
      [|injection H as _ <-; apply leaves_files_refl].
    injection H as _ <-. eapply written_leaves_files; eauto.
    now rewrite !fold_write_target.
Qed.

Lemma compression_touches_only_archive_and_source_example :
  exists w',
    compressDataParallel (Demo.settings 4 4) Demo.framed Demo.backwards
      (Demo.bytes "outer") 5 "f.txt" Demo.tree = Done (true, w') /\
    read_file "D/f.txt" w' = Some (Demo.bytes "inner") /\
    read_file "f.txt" w' = Some (Demo.bytes "outer").
Proof.
  destruct (compressDataParallel (Demo.settings 4 4) Demo.framed Demo.backwards
              (Demo.bytes "outer") 5 "f.txt" Demo.tree) as [[b w']|e] eqn:E;
    [|vm_compute in E; discriminate E].
  destruct (compression_touches_only_archive_and_source _ _ _ _ _ _ _ _ _ E)
    as [C F].
  assert (Hb : b = true).
  { vm_compute in E. injection E as <- _. reflexivity. }
  subst b. exists w'. split; [reflexivity|].
  unfold read_file. rewrite C.
  change (resolve (cwd Demo.tree) "D/f.txt") with ["D"%string; "f.txt"%string].
  change (resolve (cwd Demo.tree) "f.txt") with ["f.txt"%string].
  split.
  - rewrite (F ["D"; "f.txt"]%string (Demo.bytes "inner")); [reflexivity| |].
    + vm_compute. intros [A|[]]. discriminate A.
    + reflexivity.
  - rewrite (F ["f.txt"]%string (Demo.bytes "outer")); [reflexivity| |].
    + vm_compute. intros [A|[]]. discriminate A.
    + reflexivity.
Defined.

(** X11.  Decompression leaves the working directory alone and changes no
    file but the output file it allocates and, where the removal policy
    is on, the archive: every other regular file keeps its bytes, whether
    the call succeeds or not. *)
Theorem decompression_touches_only_output_and_archive :
  forall cfg cdc sch ptr fname w b w',
    decompressDataParallel cfg cdc sch ptr fname w = Done (b, w') ->
    exists outfile,
      outfile_name cfg fname = Done outfile /\
      leaves_files
        (resolve (cwd w) outfile
         :: (if REMOVE_ORIGIN cfg then [resolve (cwd w) fname] else []))
        w w'.
Proof.
  intros cfg cdc sch ptr fname w b w' H.
  unfold decompressDataParallel in H.
  bind_inv H. destruct (a =? 1).
  - bind_inv H. bind_inv H. rename a1 into outfile.
    exists outfile. split; [exact Ha1|].
    destruct (allocateFile outfile _ w) as [[[w1 m] buf0]|] eqn:EA;
      [|injection H as _ <-; apply leaves_files_refl].
    bind_inv H. destruct a1 as [ok buf].
    destruct (flushed_leaves_files cfg fname _ _ _ _ _ _ buf EA) as [F1 F2].
    destruct ok; injection H as _ <-; assumption.
  - bind_inv H. bind_inv H. rename a1 into outfile.
    exists outfile. split; [exact Ha1|].
    destruct (allocateFile outfile _ w) as [[[w1 m] buf0]|] eqn:EA;
      [|injection H as _ <-; apply leaves_files_refl].
    bind_inv H.
    destruct (flushed_leaves_files cfg fname _ _ _ _ _ _
                (decompressed_data a1) EA) as [F1 F2].
    destruct (negb (decompressionSuccess a1)); injection H as _ <-; assumption.
Qed.

Lemma decompression_touches_only_output_and_archive_example :
  exists w',
    decompressDataParallel (Demo.settings 4 4) Demo.picky Demo.backwards
      Demo.spoiled_archive "g.zip" Demo.tree = Done (false, w') /\
    read_file "D/f.txt" w' = Some (Demo.bytes "inner") /\
    read_file "f.txt" w' = Some (Demo.bytes "outer").
Proof.
  destruct (decompressDataParallel (Demo.settings 4 4) Demo.picky Demo.backwards
              Demo.spoiled_archive "g.zip" Demo.tree) as [[b w']|e] eqn:E;
    [|vm_compute in E; discriminate E].
  destruct (decompression_touches_only_output_and_archive _ _ _ _ _ _ _ _ E)
    as (outfile & Ho & C & F).
  assert (Hb : b = false).
  { vm_compute in E. injection E as <- _. reflexivity. }
  assert (Hout : outfile = "g"%string).
  { vm_compute in Ho. now injection Ho as <-. }
  subst b outfile. exists w'. split; [reflexivity|].
  unfold read_file. rewrite C.
  change (resolve (cwd Demo.tree) "D/f.txt") with ["D"%string; "f.txt"%string].
  change (resolve (cwd Demo.tree) "f.txt") with ["f.txt"%string].
  split.
  - rewrite (F ["D"; "f.txt"]%string (Demo.bytes "inner")); [reflexivity| |].
    + vm_compute. intros [A|[]]. discriminate A.
    + reflexivity.
  - rewrite (F ["f.txt"]%string (Demo.bytes "outer")); [reflexivity| |].
    + vm_compute. intros [A|[]]. discriminate A.
    + reflexivity.
Defined.

(** ** What a directory walk does and does not do *)

(** X12.  A walk from a tidy world never leaves the directory it was
    given: if the directory cannot be entered it returns [false] and
    changes nothing; otherwise the process ends at or below that
    directory, exactly in it when the walk returns [true] (there is no
    return to the starting directory), and every file was dispatched
    from a working directory at or below it. *)
Theorem walk_stays_in_its_directory :
  forall cfg cdc sch fuel dname comp w b w',
    tidy_world w ->
    walkDirParallel cfg cdc sch fuel dname comp w = Done (b, w') ->
    tidy_world w' /\
    log_grows (fun e => is_prefix (resolve (cwd w) dname) (fst e)) w w' /\
    (chdir dname w = None -> b = false /\ w' = w) /\
    (chdir dname w <> None ->
     is_prefix (resolve (cwd w) dname) (cwd w') /\
     (b = true -> cwd w' = resolve (cwd w) dname)).
Proof.
  intros cfg cdc sch fuel dname comp w b w' Hw H.
  destruct (walk_keeps_inside cfg cdc sch fuel dname comp w b w' Hw H)
    as [Hw' Hin].
  split; [exact Hw'|]. split.
  - apply (walk_logs_inside cfg cdc sch fuel dname comp w b w' Hw H).
  - destruct (chdir dname w) as [w1|] eqn:Ec.
    + destruct (chdir_keeps_world dname w w1 Hw Ec) as (_ & <- & _).
      split; [discriminate | auto].
    + split; [auto | congruence].
Qed.

Lemma walk_stays_in_its_directory_example :
  exists w',
    walkDirParallel (Demo.settings 4 4) Demo.framed Demo.backwards 2 "D" true
      (Demo.start (Dir Demo.rwx
         [("D"%string, Dir Demo.rwx [("f.txt"%string, File (Demo.bytes "inner"))])]))
    = Done (true, w') /\
    cwd w' = ["D"%string] /\
    log_grows (fun e => is_prefix ["D"%string] (fst e))
      (Demo.start (Dir Demo.rwx
         [("D"%string, Dir Demo.rwx [("f.txt"%string, File (Demo.bytes "inner"))])]))
      w'.
Proof.
  set (w := Demo.start (Dir Demo.rwx
         [("D"%string, Dir Demo.rwx [("f.txt"%string, File (Demo.bytes "inner"))])])).
  destruct (walkDirParallel (Demo.settings 4 4) Demo.framed Demo.backwards 2
              "D" true w) as [[b w']|e] eqn:E;
    [|vm_compute in E; discriminate E].
  assert (Hb : b = true).
  { vm_compute in E. injection E as <- _. reflexivity. }
  subst b.
  assert (Hw : tidy_world w) by (split; reflexivity).
  destruct (walk_stays_in_its_directory _ _ _ _ _ _ _ _ _ Hw E)
    as (_ & Hlog & _ & Hin).
  exists w'. split; [reflexivity|]. split.
  - apply Hin; [discriminate | reflexivity].
  - exact Hlog.
Defined.

Lemma chdir_log (path : string) (w w' : world) :
  chdir path w = Some w' -> dispatched w' = dispatched w.
Proof.
  unfold chdir.
  destruct (lookup _ _) as [[|pm es|]|]; try discriminate.
  destruct (p_search pm); [|discriminate].
  intros H. now injection H as <-.
Qed.

Section Filter.

Variable cfg : config.
Variable cdc : codec.
Variable sch : scheduler.
Variable comp : bool.

Let accepted (e : list string * string) : Prop :=
  discardIt cfg (snd e) comp = false.

Let queued (f : string * Z) : Prop := discardIt cfg (fst f) comp = false.

Lemma dispatch_accepted (files : list (string * Z)) (order : list nat)
      (s s' : bool * world) :
  Forall queued files ->
  run_tasks (dispatch_task cfg cdc sch files comp) order s = Done s' ->
  log_grows accepted (snd s) (snd s').
Proof.
  intros Hq. revert s.
  induction order as [|i rest IH]; intros s H; simpl in H.
  - injection H as <-. apply log_grows_refl.
  - bind_inv H. unfold dispatch_task in Ha.
    destruct (nth_error files i) as [[name sz]|] eqn:En.
    + bind_inv Ha. destruct a0 as [ok w1]. injection Ha as <-.
      pose proof (doParallelWork_log _ _ _ _ _ _ _ _ _ Ha0) as L1.
      apply (log_grows_trans _ (snd s) w1 (snd s')); [|apply (IH _ H)].
      exists [(cwd (snd s), name)]. split; [exact L1|].
      constructor; [|constructor].
      apply nth_error_In in En.
      apply (proj1 (Forall_forall _ _) Hq _ En).
    + injection Ha as <-. apply (IH _ H).
Qed.

Lemma loop_accepts (walk : string -> bool -> world -> outcome (bool * world))
      (names : list string) :
  (forall d w b w', walk d comp w = Done (b, w') -> log_grows accepted w w') ->
  forall files w r w',
    Forall queued files ->
    readdir_loop cfg walk comp names files w = Done (r, w') ->
    log_grows accepted w w' /\
    (forall files', r = Some files' -> Forall queued files').
Proof.
  intros Hwalk.
  induction names as [|d names IH]; intros files w r w' Hq H.
  - injection H as <- <-. split; [apply log_grows_refl|].
    intros files' E. now injection E as <-.
  - cbn [readdir_loop] in H.
    destruct (stat d w) as [sb|].
    2:{ injection H as <- <-. split; [apply log_grows_refl | discriminate]. }
    destruct (S_ISDIR sb).
    + destruct (negb (isdot d)); [|now apply (IH files)].
      bind_inv H. destruct a as [ok w1].
      pose proof (Hwalk d w ok w1 Ha) as L1.
      destruct ok.
      * destruct (chdir ".." w1) as [w2|] eqn:Eup.
        -- destruct (IH files w2 r w' Hq H) as [L2 Q].
           split; [|exact Q].
           apply (log_grows_trans _ w w1 w'); [exact L1|].
           apply (log_grows_trans _ w1 w2 w'); [|exact L2].
           apply log_grows_same. eapply chdir_log, Eup.
        -- injection H as <- <-. split; [exact L1 | discriminate].
      * injection H as <- <-. split; [exact L1 | discriminate].
    + destruct (discardIt cfg d comp) eqn:Ed; [now apply (IH files)|].
      apply (IH (files ++ [(d, st_size sb)])); [|exact H].
      apply Forall_app. split; [exact Hq|].
      constructor; [exact Ed | constructor].
Qed.

End Filter.

(** X13.  A walk hands [doParallelWork] only names that the filter
    [discardIt] lets through for the mode of the walk, in the directory
    itself and in every directory below it: a name the filter rejects is
    never dispatched. *)
Theorem walk_dispatches_only_accepted_names :
  forall cfg cdc sch fuel dname comp w b w',
    walkDirParallel cfg cdc sch fuel dname comp w = Done (b, w') ->
    log_grows (fun e => discardIt cfg (snd e) comp = false) w w'.
Proof.
  intros cfg cdc sch fuel.
  induction fuel as [|fuel IH]; intros d comp w b w' H.
  - discriminate H.
  - cbn [walkDirParallel] in H.
    destruct (chdir d w) as [w1|] eqn:Ec;
      [|injection H as _ <-; apply log_grows_refl].
    assert (L0 : log_grows (fun e => discardIt cfg (snd e) comp = false) w w1)
      by (apply log_grows_same; eapply chdir_log, Ec).
    destruct (opendir_dot w1) as [names|];
      [|injection H as _ <-; exact L0].
    bind_inv H. destruct a as [r w2].
    destruct (loop_accepts cfg comp (walkDirParallel cfg cdc sch fuel) names
                (fun d w b w' => IH d comp w b w')
                [] w1 r w2 (Forall_nil _) Ha) as [L1 Q].
    apply (log_grows_trans _ w w1 w'); [exact L0|].
    destruct r as [files|].
    + apply (log_grows_trans _ w1 w2 w'); [exact L1|].
      apply (dispatch_accepted cfg cdc sch comp files _ (true, w2) (b, w')
               (Q files eq_refl) H).
    + injection H as _ <-. exact L1.
Qed.

Lemma walk_dispatches_only_accepted_names_example :
  exists w',
    walkDirParallel (Demo.settings 4 4) Demo.framed Demo.backwards 2 "D" true
      (Demo.start (Dir Demo.rwx
         [("D"%string, Dir Demo.rwx [("a.zip"%string, File (Demo.bytes "old"));
                                     ("b.txt"%string, File (Demo.bytes "new"))])]))
    = Done (true, w') /\
    dispatched w' = [(["D"%string], "b.txt"%string)] /\
    log_grows (fun e => discardIt (Demo.settings 4 4) (snd e) true = false)
      (Demo.start (Dir Demo.rwx
         [("D"%string, Dir Demo.rwx [("a.zip"%string, File (Demo.bytes "old"));
                                     ("b.txt"%string, File (Demo.bytes "new"))])]))
      w'.
Proof.
  set (w := Demo.start (Dir Demo.rwx
         [("D"%string, Dir Demo.rwx [("a.zip"%string, File (Demo.bytes "old"));
                                     ("b.txt"%string, File (Demo.bytes "new"))])])).
  destruct (walkDirParallel (Demo.settings 4 4) Demo.framed Demo.backwards 2
              "D" true w) as [[b w']|e] eqn:E;
    [|vm_compute in E; discriminate E].
  pose proof (walk_dispatches_only_accepted_names _ _ _ _ _ _ _ _ _ E) as Hlog.
  assert (Hb : b = true /\ dispatched w' = [(["D"%string], "b.txt"%string)]).
  { vm_compute in E. injection E as <- <-. split; reflexivity. }
  destruct Hb as [-> Hd].
  exists w'. split; [reflexivity|]. split; [exact Hd | exact Hlog].
Defined.

Lemma map_nth_seq {A B : Type} (h : A -> B) (l : list A) (d : A) :
  map (fun i => h (nth i l d)) (seq 0 (List.length l)) = map h l.
Proof.
  induction l as [|x l IH]; [reflexivity|].
  cbn [List.length seq map nth]. f_equal.
  rewrite <- seq_shift, map_map. exact IH.
Qed.

Lemma dispatch_log_exact (cfg : config) (cdc : codec) (sch : scheduler)
      (files : list (string * Z)) (comp : bool) (order : list nat)
      (s s' : bool * world) :
  tidy_world (snd s) ->
  Forall (fun i => (i < List.length files)%nat) order ->
  run_tasks (dispatch_task cfg cdc sch files comp) order s = Done s' ->
  dispatched (snd s')
  = dispatched (snd s)
    ++ map (fun i => (cwd (snd s), fst (nth i files (EmptyString, 0)))) order.
Proof.
  revert s. induction order as [|i rest IH]; intros s Hw Hin H; simpl in H.
  - injection H as <-. simpl. now rewrite app_nil_r.
  - inversion Hin as [|? ? Hi Hrest]; subst.
    bind_inv H. unfold dispatch_task in Ha.
    rewrite (nth_error_nth' files (EmptyString, 0) Hi) in Ha.
    destruct (nth i files (EmptyString, 0)) as [name sz] eqn:En.
    bind_inv Ha. destruct a0 as [ok w1]. injection Ha as <-.
    destruct (doParallelWork_keeps_world _ _ _ _ _ _ _ _ _ Hw Ha0) as [H1 C1].
    pose proof (doParallelWork_log _ _ _ _ _ _ _ _ _ Ha0) as L1.
    rewrite (IH (if ok then fst s else false, w1) H1 Hrest H).
    cbn [snd map]. rewrite En. cbn [fst].
    rewrite L1, C1, <- app_assoc. reflexivity.
Qed.

(** X14.  Once the first pass over a directory has completed, the second
    pass hands every collected file to [doParallelWork] exactly once,
    from that directory, whatever the schedule and whether or not other
    files fail: a failure does not stop the loop.  The loop counter is an
    [int], so this is for fewer than [2^31] collected files. *)
Theorem collected_files_are_all_dispatched :
  forall cfg cdc sch fuel dname comp w w1 names files w2 b w',
    fair sch -> tidy_world w ->
    chdir dname w = Some w1 ->
    opendir_dot w1 = Some names ->
    readdir_loop cfg (walkDirParallel cfg cdc sch fuel) comp names [] w1
    = Done (Some files, w2) ->
    len files < 2 ^ 31 ->
    walkDirParallel cfg cdc sch (S fuel) dname comp w = Done (b, w') ->
    exists ext,
      dispatched w' = dispatched w2 ++ ext /\
      Permutation ext (map (fun f => (cwd w1, fst f)) files).
Proof.
  intros cfg cdc sch fuel dname comp w w1 names files w2 b w'
         Hf Hw Hc Ho Hloop _ H.
  cbn [walkDirParallel] in H. rewrite Hc, Ho, Hloop in H. cbn [bind] in H.
  destruct (chdir_keeps_world dname w w1 Hw Hc) as (Hw1 & _).
  destruct (loop_keeps_inside cfg _ comp names
              (walk_keeps_inside cfg cdc sch fuel)
              (entry_names w1 names Hw1 Ho)
              [] w1 (Some files) w2 Hw1 Hloop) as (Hw2 & _ & Hexact).
  exists (map (fun i => (cwd w2, fst (nth i files (EmptyString, 0))))
              (sch (List.length files))).
  split.
  - apply (dispatch_log_exact cfg cdc sch files comp _ (true, w2) (b, w') Hw2);
      [|exact H].
    apply Forall_forall. intros i Hi. eapply fair_within; eauto.
  - rewrite Hexact by discriminate.
    rewrite <- (map_nth_seq (fun f => (cwd w1, fst f)) files (EmptyString, 0)).
    apply Permutation_map, Hf.
Qed.

Lemma collected_files_are_all_dispatched_example :
  exists w',
    walkDirParallel (Demo.settings 4 4) Demo.picky Demo.backwards 2 "D" true
      (Demo.start (Dir Demo.rwx
         [("D"%string, Dir Demo.rwx [("a"%string, File Demo.spoiled);
                                     ("b"%string, File Demo.sample)])]))
    = Done (false, w') /\
    Permutation (dispatched w')
      [(["D"%string], "a"%string); (["D"%string], "b"%string)].
Proof.
  set (w := Demo.start (Dir Demo.rwx
         [("D"%string, Dir Demo.rwx [("a"%string, File Demo.spoiled);
                                     ("b"%string, File Demo.sample)])])).
  destruct (walkDirParallel (Demo.settings 4 4) Demo.picky Demo.backwards 2
              "D" true w) as [[b w']|e] eqn:E;
    [|vm_compute in E; discriminate E].
  assert (Hw : tidy_world w) by (split; reflexivity).
  destruct (collected_files_are_all_dispatched
              (Demo.settings 4 4) Demo.picky Demo.backwards 1 "D" true w
              (with_cwd ["D"%string] w) ["."; ".."; "a"; "b"]%string
              [("a"%string, 10); ("b"%string, 10)]
              (with_cwd ["D"%string] w) b w' backwards_fair Hw)
    as (ext & Hext & Hperm); try reflexivity.
  - exact E.
  - assert (Hb : b = false).
    { vm_compute in E. injection E as <- _. reflexivity. }
    subst b. exists w'. split; [reflexivity|].
    rewrite Hext. exact Hperm.
Defined.

(** ** The exit status of [main] *)

Lemma main_loop_app (cfg : config) (cdc : codec) (sch : scheduler)
      (fuel : nat) (pre post : list string) (ok : bool) (w : world) :
  main_loop cfg cdc sch fuel (pre ++ post) ok w
  = bind (main_loop cfg cdc sch fuel pre ok w)
         (fun r => main_loop cfg cdc sch fuel post (fst r) (snd r)).
Proof.
  revert ok w. induction pre as [|a pre IH]; intros ok w.
  - reflexivity.
  - cbn [app main_loop].
    destruct (isDirectory a w) as [isdir filesize].
    destruct (if isdir then _ else _) as [[ok1 w1]|e]; cbn [bind];
      [apply IH | reflexivity].
Qed.

Lemma main_loop_flag (cfg : config) (cdc : codec) (sch : scheduler)
      (fuel : nat) (argv : list string) (ok : bool) (w w' : world) :
  main_loop cfg cdc sch fuel argv ok w = Done (true, w') -> ok = true.
Proof.
  revert ok w. induction argv as [|a argv IH]; intros ok w H.
  - now injection H as ->.
  - cbn [main_loop] in H.
    destruct (isDirectory a w) as [isdir filesize].
    bind_inv H. destruct a0 as [ok1 w1].
    apply IH in H. now apply andb_true_iff in H.
Qed.

(** X15.  [main] exits with [0] or [-1], and with [0] exactly when every
    input, processed in the world its predecessors left, returned [true]:
    one failed input makes the exit status [-1] but does not keep the
    later inputs from being processed. *)
Theorem exit_status_zero_iff_every_input_succeeds :
  forall cfg cdc sch fuel argv w code w',
    main cfg cdc sch fuel argv w = Done (code, w') ->
    (code = 0 \/ code = -1) /\
    (code = 0 <->
     forall pre a post, argv = pre ++ a :: post ->
       exists w1 w2,
         main_loop cfg cdc sch fuel pre true w = Done (true, w1) /\
         main_loop cfg cdc sch fuel [a] true w1 = Done (true, w2)).
Proof.
  intros cfg cdc sch fuel argv w code w' H.
  unfold main in H. bind_inv H. destruct a as [ok wf].
  injection H as <- <-.
  split; [destruct ok; auto|]. split.
  - intros Hcode. destruct ok; [|discriminate].
    intros pre a post ->.
    rewrite main_loop_app in Ha. bind_inv Ha. destruct a0 as [b1 w1].
    cbn [fst snd] in Ha.
    pose proof (main_loop_flag _ _ _ _ _ _ _ _ Ha) as ->.
    change (a :: post) with ([a] ++ post) in Ha.
    rewrite main_loop_app in Ha. bind_inv Ha. destruct a0 as [b2 w2].
    cbn [fst snd] in Ha.
    pose proof (main_loop_flag _ _ _ _ _ _ _ _ Ha) as ->.
    eauto.
  - intros Hall.
    destruct argv as [|a0 argv'] using rev_ind.
    + injection Ha as <- _. reflexivity.
    + clear IHargv'.
      destruct (Hall argv' a0 [] eq_refl) as (w1 & w2 & H1 & H2).
      rewrite main_loop_app, H1 in Ha. cbn [bind fst snd] in Ha.
      rewrite H2 in Ha. injection Ha as <- _. reflexivity.
Qed.

Lemma exit_status_zero_iff_every_input_succeeds_example :
  exists w',
    main (Demo.settings 4 4) Demo.framed Demo.backwards 2
      ["f.txt"; "missing"; "D/f.txt"]%string Demo.tree = Done (-1, w') /\
    read_file "D/f.txt.zip" w' <> None /\
    ~ (forall pre a post,
         ["f.txt"; "missing"; "D/f.txt"]%string = pre ++ a :: post ->
         exists w1 w2,
           main_loop (Demo.settings 4 4) Demo.framed Demo.backwards 2 pre true
             Demo.tree = Done (true, w1) /\
           main_loop (Demo.settings 4 4) Demo.framed Demo.backwards 2 [a] true
             w1 = Done (true, w2)).
Proof.
  destruct (main (Demo.settings 4 4) Demo.framed Demo.backwards 2
              ["f.txt"; "missing"; "D/f.txt"]%string Demo.tree)
    as [[code w']|e] eqn:E; [|vm_compute in E; discriminate E].
  destruct (exit_status_zero_iff_every_input_succeeds _ _ _ _ _ _ _ _ E)
    as [_ [_ Hall]].
  assert (Hc : code = -1 /\ read_file "D/f.txt.zip" w' <> None).
  { vm_compute in E. injection E as <- <-. split; [reflexivity|].
    vm_compute. discriminate. }
  destruct Hc as [-> Hfile].
  exists w'. split; [reflexivity|]. split; [exact Hfile|].
  intros Habs. apply Hall in Habs. discriminate Habs.
Defined.

(** ** The block index is written but never read *)

Lemma run_tasks_ext {S : Type} (body body' : nat -> S -> outcome S)
      (order : list nat) (s : S) :
  (forall i, In i order -> forall s, body i s = body' i s) ->
  run_tasks body order s = run_tasks body' order s.
Proof.
  revert s. induction order as [|i rest IH]; intros s H; simpl.
  - reflexivity.
  - rewrite (H i (or_introl eq_refl)).
    destruct (body' i s); simpl; [|reflexivity].
    apply IH. intros j Hj. apply H. now right.
Qed.

Lemma total_size_map (infos : list DataBlock) :
  total_size infos
  = fold_left (fun acc o => SizeT.add acc o) (map originalSize infos) 0.
Proof.
  unfold total_size. generalize 0.
  induction infos as [|d infos IH]; intros acc; simpl; auto.
Qed.

Lemma same_sizes_nth (f : DataBlock -> Z) (infos infos' : list DataBlock)
      (i : nat) :
  f zero_block = 0 ->
  map f infos' = map f infos ->
  f (nth i infos' zero_block) = f (nth i infos zero_block).
Proof.
  intros Hz E.
  rewrite <- (map_nth f infos' zero_block i), <- (map_nth f infos zero_block i).
  now rewrite E.
Qed.

Lemma same_sizes_offset (infos infos' : list DataBlock) (i : nat) :
  map originalSize infos' = map originalSize infos ->
  total_size (firstn i infos') = total_size (firstn i infos).
Proof.
  intros E. rewrite !total_size_map, <- !firstn_map. now rewrite E.
Qed.

(** X16.  Decompression never looks at the [blockIndex] field: two
    archives with the same payloads whose descriptor tables agree on the
    original and compressed sizes decompress to the same result, whatever
    indices the tables hold.  Blocks are placed by their position in the
    table. *)
Theorem decompression_ignores_block_index :
  forall cfg cdc sch infos infos' payloads fname w,
    fair sch ->
    Forall well_sized infos -> Forall well_sized infos' ->
    SizeT.in_range (len infos) ->
    List.length payloads = List.length infos ->
    (forall i, (i < List.length infos)%nat ->
       compressedSize (nth i infos zero_block) = len (nth i payloads [])) ->
    map originalSize infos' = map originalSize infos ->
    map compressedSize infos' = map compressedSize infos ->
    decompressDataParallel cfg cdc sch (archive_bytes infos' payloads) fname w
    = decompressDataParallel cfg cdc sch (archive_bytes infos payloads) fname w.
Proof.
  intros cfg cdc sch infos infos' payloads fname w
         Hf Hwell Hwell' Hn L Hsizes Eo Ec.
  assert (L' : List.length infos' = List.length infos).
  { rewrite <- (length_map originalSize infos'), Eo. apply length_map. }
  assert (Hsizes' : forall i, (i < List.length infos')%nat ->
            compressedSize (nth i infos' zero_block) = len (nth i payloads [])).
  { intros i Hi. rewrite (same_sizes_nth compressedSize infos infos' i eq_refl Ec).
    apply Hsizes. lia. }
  assert (Hlen : len infos' = len infos) by (unfold len; now rewrite L').
  assert (Hto : Z.to_nat (len infos) = List.length infos)
    by (unfold len; apply Nat2Z.id).
  unfold decompressDataParallel.
  replace (get_size_t (archive_bytes infos' payloads) 0)
    with (@Done Z (len infos))
    by (symmetry; unfold archive_bytes; rewrite Hlen; now apply get_size_t_head).
  replace (get_size_t (archive_bytes infos payloads) 0)
    with (@Done Z (len infos))
    by (symmetry; unfold archive_bytes; now apply get_size_t_head).
  cbn [bind].
  assert (Ht : read_infos (archive_bytes infos payloads) (Z.of_nat WORD)
                 (Z.to_nat (len infos)) = Done infos).
  { rewrite Hto. unfold archive_bytes.
    rewrite <- (len_put_size_t (len infos)). now apply read_infos_table. }
  assert (Ht' : read_infos (archive_bytes infos' payloads) (Z.of_nat WORD)
                  (Z.to_nat (len infos)) = Done infos').
  { rewrite Hto, <- L'. unfold archive_bytes.
    rewrite <- (len_put_size_t (len infos')). now apply read_infos_table. }
  assert (Hin : forall i, (i < List.length infos)%nat ->
            block_input (archive_bytes infos payloads) infos i
            = Done (nth i payloads [])).
  { intros i Hi. now apply block_input_layout. }
  assert (Hin' : forall i, (i < List.length infos)%nat ->
            block_input (archive_bytes infos' payloads) infos' i
            = Done (nth i payloads [])).
  { intros i Hi. apply block_input_layout; [congruence | exact Hsizes' | lia]. }
  destruct (len infos =? 1) eqn:E1.
  - apply Z.eqb_eq in E1. rewrite E1 in Ht, Ht'.
    assert (L1 : List.length infos = 1%nat) by (unfold len in E1; lia).
    destruct infos as [|d [|]]; try discriminate L1.
    destruct infos' as [|d' [|]]; try discriminate L'.
    change (Z.to_nat 1) with 1%nat in Ht, Ht'. cbn [read_infos] in Ht, Ht'.
    bind_inv Ht. bind_inv Ht'. injection Ht as ->. injection Ht' as ->.
    rewrite Ha, Ha0. cbn [bind].
    injection Eo as Eo. injection Ec as Ec. rewrite Eo, Ec.
    destruct (outfile_name cfg fname) as [outfile|e]; [|reflexivity].
    cbn [bind].
    destruct (allocateFile outfile (originalSize d) w) as [[[w1 m] buf]|];
      [|reflexivity].
    unfold decompressBlock.
    pose proof (Hin O ltac:(simpl; lia)) as R.
    pose proof (Hin' O ltac:(simpl; lia)) as R'.
    unfold block_input in R, R'.
    change (nth 0 (block_starts (Z.of_nat WORD + len [d] * Z.of_nat DESC) [d]) 0)
      with (Z.of_nat WORD + Z.of_nat DESC) in R.
    change (nth 0 (block_starts (Z.of_nat WORD + len [d'] * Z.of_nat DESC) [d']) 0)
      with (Z.of_nat WORD + Z.of_nat DESC) in R'.
    change (nth 0 [d] zero_block) with d in R.
    change (nth 0 [d'] zero_block) with d' in R'.
    rewrite Ec in R'. rewrite R, R'. reflexivity.
  - rewrite Ht, Ht'. cbn [bind].
    replace (total_size infos') with (total_size infos)
      by (rewrite <- (firstn_all infos), <- (firstn_all infos'), L';
          symmetry; now apply same_sizes_offset).
    destruct (outfile_name cfg fname) as [outfile|e]; [|reflexivity].
    cbn [bind].
    destruct (allocateFile outfile (total_size infos) w) as [[[w1 m] buf]|];
      [|reflexivity].
    rewrite (run_tasks_ext
               (decompress_task cdc (archive_bytes infos' payloads) infos'
                  (block_starts
                     (Z.of_nat WORD
                      + Z.of_nat (Z.to_nat (len infos)) * Z.of_nat DESC) infos'))
               (decompress_task cdc (archive_bytes infos payloads) infos
                  (block_starts
                     (Z.of_nat WORD
                      + Z.of_nat (Z.to_nat (len infos)) * Z.of_nat DESC) infos))).
    + reflexivity.
    + intros i Hi s.
      assert (Hlt : (i < List.length infos)%nat).
      { rewrite <- Hto. eapply fair_within; eauto. }
      unfold decompress_task, decompressBlock.
      pose proof (Hin i Hlt) as R. pose proof (Hin' i Hlt) as R'.
      unfold block_input in R, R'.
      rewrite Hto. fold (len infos). rewrite <- Hlen at 1.
      rewrite R, R'. cbn [bind].
      rewrite (same_sizes_nth originalSize infos infos' i eq_refl Eo).
      rewrite (same_sizes_offset infos infos' i Eo).
      reflexivity.
Qed.

Lemma decompression_ignores_block_index_example :
  decompressDataParallel (Demo.settings 4 4) Demo.framed Demo.backwards
    (archive_bytes
       [Demo.descriptor 4 5 7; Demo.descriptor 4 5 7; Demo.descriptor 2 3 0]
       [x01 :: Demo.bytes "0123"; x01 :: xff :: Demo.bytes "567";
        x01 :: Demo.bytes "89"]) "f.zip" Demo.empty
  = decompressDataParallel (Demo.settings 4 4) Demo.framed Demo.backwards
      Demo.spoiled_archive "f.zip" Demo.empty.
Proof.
  apply (decompression_ignores_block_index
           (Demo.settings 4 4) Demo.framed Demo.backwards
           [Demo.descriptor 4 5 0; Demo.descriptor 4 5 1; Demo.descriptor 2 3 2]
           [Demo.descriptor 4 5 7; Demo.descriptor 4 5 7; Demo.descriptor 2 3 0]
           [x01 :: Demo.bytes "0123"; x01 :: xff :: Demo.bytes "567";
            x01 :: Demo.bytes "89"] "f.zip" Demo.empty backwards_fair).
  - repeat constructor; vm_compute; try discriminate; reflexivity.
  - repeat constructor; vm_compute; try discriminate; reflexivity.
  - vm_compute. split; [discriminate | reflexivity].
  - reflexivity.
  - intros i Hi.
    destruct i as [|[|[|i]]]; [reflexivity .. | simpl in Hi; lia].
  - reflexivity.
  - reflexivity.
Defined.

(** ** The shape of the split *)

(** X17.  In the large-file branch, as long as [size + numBlocks - 1]
    does not wrap, the block count is between one and twice the thread
    count, the block size is [ceil (size / numBlocks)], the blocks
    together are at least as long as the input, and, when the last block
    starts inside the input, no block is longer than the block size: the
    last block holds what is left, which may be nothing. *)
Theorem split_blocks_are_balanced :
  forall cfg size nb bs,
    SizeT.in_range (BIG_FILE_SIZE cfg) -> SizeT.in_range size ->
    BIG_FILE_SIZE cfg < size ->
    block_count cfg size = Done nb ->
    block_size size nb = Done bs ->
    size + nb - 1 < SizeT.modulus ->
    1 <= nb <= SizeT.wrap (num_threads cfg * 2) /\
    bs = ceil_div size nb /\
    size <= nb * bs /\
    ((nb - 1) * bs <= size ->
     forall i, (i < Z.to_nat nb)%nat ->
       0 <= currentBlockSize size nb bs i <= bs /\
       (Z.of_nat i = nb - 1 ->
        currentBlockSize size nb bs i = size - (nb - 1) * bs)).
Proof.
  intros cfg size nb bs HT Hs Hgt Hc Hb Hsum.
  destruct (block_count_exact cfg HT size nb bs Hs Hgt Hc Hb)
    as (_ & Hnb & Hr & Hbs & _).
  apply div_Done in Hb. destruct Hb as [_ Hb].
  assert (Hnum : SizeT.sub (SizeT.add size nb) 1 = size + nb - 1).
  { unfold SizeT.sub, SizeT.add, SizeT.wrap.
    rewrite Zminus_mod_idemp_l. apply Z.mod_small.
    unfold SizeT.in_range in *. lia. }
  rewrite Hnum in Hb.
  assert (Hcover : size <= nb * bs).
  { pose proof (Z.div_mod (size + nb - 1) nb ltac:(lia)) as D.
    pose proof (Z.mod_pos_bound (size + nb - 1) nb ltac:(lia)) as R.
    rewrite <- Hb in D. lia. }
  split; [|split; [|split]].
  - split; [lia|]. rewrite Hnb. apply Z.le_min_r.
  - rewrite ceil_div_formula by lia. exact Hb.
  - exact Hcover.
  - intros Hfit i Hi. unfold currentBlockSize, block_offset, SizeT.mul.
    replace (SizeT.sub nb 1) with (nb - 1)
      by (symmetry; unfold SizeT.sub; apply wrap_small;
          unfold SizeT.in_range in *; lia).
    destruct (Z.of_nat i <? nb - 1) eqn:E.
    + apply Z.ltb_lt in E. split; [lia|]. intros Hlast. lia.
    + apply Z.ltb_ge in E.
      assert (Hi' : Z.of_nat i = nb - 1) by lia.
      rewrite Hi'.
      rewrite (wrap_small ((nb - 1) * bs))
        by (unfold SizeT.in_range in *; nia).
      unfold SizeT.sub.
      rewrite wrap_small by (unfold SizeT.in_range in *; nia).
      split; [nia | reflexivity].
Qed.

Lemma split_blocks_are_balanced_example :
  block_count (Demo.settings 2 2) 9 = Done 4 /\
  block_size 9 4 = Done 3 /\
  currentBlockSize 9 4 3 3 = 9 - (4 - 1) * 3 /\
  0 <= currentBlockSize 9 4 3 3 <= 3.
Proof.
  destruct (split_blocks_are_balanced (Demo.settings 2 2) 9 4 3)
    as (_ & _ & _ & Hall).
  - vm_compute. split; [discriminate | reflexivity].
  - vm_compute. split; [discriminate | reflexivity].
  - reflexivity.
  - reflexivity.
  - reflexivity.
  - reflexivity.
  - destruct (Hall ltac:(lia) 3%nat ltac:(simpl; lia)) as [Hr Hlast].
    split; [reflexivity|]. split; [reflexivity|].
    split; [apply Hlast; reflexivity | exact Hr].
Defined.

(** ** The depth of the recursion *)

Lemma height_Dir (pm : perms) (es : list (string * node)) :
  height (Dir pm es) = S (deepest es).
Proof.
  cbn [height]. f_equal.
  induction es as [|[k v] es IH]; [reflexivity|].
  cbn [deepest fold_right snd]. now rewrite IH.
Qed.

Lemma deepest_find (s : string) (es : list (string * node)) (c : node) :
  find_entry s es = Some c -> (height c <= deepest es)%nat.
Proof.
  induction es as [|[k v] es IH]; simpl; [discriminate|].
  destruct (String.eqb k s).
  - intros H. injection H as <-. apply Nat.le_max_l.
  - intros H. specialize (IH H). lia.
Qed.

Lemma deepest_put (s : string) (c : node) (es : list (string * node)) :
  (deepest (put_entry s c es) <= Nat.max (height c) (deepest es))%nat.
Proof.
  induction es as [|[k v] es IH]; simpl.
  - lia.
  - destruct (String.eqb k s); simpl.
    + lia.
    + lia.
Qed.

Lemma deepest_del (s : string) (es : list (string * node)) :
  (deepest (del_entry s es) <= deepest es)%nat.
Proof.
  induction es as [|[k v] es IH]; simpl.
  - lia.
  - destruct (String.eqb k s); simpl.
    + lia.
    + lia.
Qed.

(** A node at the end of a path is that many levels down. *)
Lemma lookup_height (p : list string) (n c : node) :
  lookup p n = Some c -> (height c + List.length p <= height n)%nat.
Proof.
  revert n. induction p as [|s p IH]; intros n H.
  - injection H as <-. simpl. lia.
  - destruct n as [|pm es|]; try discriminate.
    cbn [lookup] in H.
    destruct (find_entry s es) as [c0|] eqn:E; [|discriminate].
    specialize (IH c0 H). apply deepest_find in E.
    rewrite height_Dir. simpl. lia.
Qed.

Lemma store_height (p : list string) (x : list byte) (n n' : node) :
  store p x n = Some n' -> (height n' <= height n)%nat.
Proof.
  revert n n'. induction p as [|s p IH]; intros n n' H.
  - destruct n; discriminate.
  - destruct n as [|pm es|]; try discriminate.
    destruct p as [|t p].
    + assert (E : n' = Dir pm (put_entry s (File x) es)).
      { simpl in H. destruct (find_entry s es) as [[y| |]|]; try discriminate.
        - now injection H as <-.
        - destruct (p_write pm); [|discriminate]. now injection H as <-. }
      subst n'. rewrite !height_Dir.
      pose proof (deepest_put s (File x) es). simpl in *. lia.
    + rewrite store_deeper in H.
      destruct (find_entry s es) as [c|] eqn:Ec; [|discriminate].
      destruct (store (t :: p) x c) as [c'|] eqn:Es; [|discriminate].
      injection H as <-. rewrite !height_Dir.
      pose proof (deepest_put s c' es).
      pose proof (IH c c' Es). apply deepest_find in Ec. lia.
Qed.

Lemma remove_height (p : list string) (n n' : node) :
  remove p n = Some n' -> (height n' <= height n)%nat.
Proof.
  revert n n'. induction p as [|s p IH]; intros n n' H.
  - destruct n; discriminate.
  - destruct n as [|pm es|]; try discriminate.
    destruct p as [|t p].
    + simpl in H.
      destruct (find_entry s es) as [[y| |]|]; try discriminate.
      destruct (p_write pm); [|discriminate]. injection H as <-.
      rewrite !height_Dir. pose proof (deepest_del s es). lia.
    + rewrite remove_deeper in H.
      destruct (find_entry s es) as [c|] eqn:Ec; [|discriminate].
      destruct (remove (t :: p) c) as [c'|] eqn:Es; [|discriminate].
      injection H as <-. rewrite !height_Dir.
      pose proof (deepest_put s c' es).
      pose proof (IH c c' Es). apply deepest_find in Ec. lia.
Qed.

Lemma unlink_height (path : string) (w : world) :
  (height (root (unlink path w)) <= height (root w))%nat.
Proof.
  unfold unlink. destruct (remove _ _) as [r|] eqn:E; [|lia].
  simpl. eapply remove_height, E.
Qed.

Lemma ofstream_close_height (f : ofstream) (w : world) :
  (height (root (ofstream_close f w)) <= height (root w))%nat.
Proof.
  unfold ofstream_close. destruct (store _ _ _) as [r|] eqn:E; [|lia].
  simpl. eapply store_height, E.
Qed.

Lemma unmapFile_height (m : mapping) (buf : list byte) (w : world) :
  (height (root (unmapFile m buf w)) <= height (root w))%nat.
Proof.
  unfold unmapFile. destruct (store _ _ _) as [r|] eqn:E; [|lia].
  simpl. eapply store_height, E.
Qed.

Lemma ofstream_open_height (path : string) (w w1 : world) (f : ofstream) :
  ofstream_open path w = Some (w1, f) ->
  (height (root w1) <= height (root w))%nat.
Proof.
  unfold ofstream_open. destruct (store _ _ _) as [r|] eqn:E; [|discriminate].
  intros H. injection H as <- _. simpl. eapply store_height, E.
Qed.

Lemma allocateFile_height (path : string) (sz : Z) (w w1 : world)
      (m : mapping) (buf : list byte) :
  allocateFile path sz w = Some (w1, m, buf) ->
  (height (root w1) <= height (root w))%nat.
Proof.
  unfold allocateFile. destruct (store _ _ _) as [r|] eqn:E; [|discriminate].
  intros H. injection H as <- _ _. simpl. eapply store_height, E.
Qed.

Lemma bind_Fault {A B : Type} (m : outcome A) (k : A -> outcome B) (e : fault) :
  bind m k = Fault e -> m = Fault e \/ exists a, m = Done a /\ k a = Fault e.
Proof.
  destruct m as [a|e']; simpl; intros H; [right; eauto|].
  left. now injection H as <-.
Qed.

Lemma div_Fault (a b : Z) (e : fault) : SizeT.div a b = Fault e -> e = DivByZero.
Proof.
  unfold SizeT.div. destruct (b =? 0); [|discriminate].
  intros H. now injection H as <-.
Qed.

Lemma get_size_t_Fault (buf : list byte) (off : Z) (e : fault) :
  get_size_t buf off = Fault e -> e = OutOfBounds.
Proof.
  unfold get_size_t. intros H.
  apply bind_Fault in H. destruct H as [H|(a & _ & H)]; [|discriminate].
  eapply read_Fault, H.
Qed.

Lemma get_DataBlock_Fault (buf : list byte) (off : Z) (e : fault) :
  get_DataBlock buf off = Fault e -> e = OutOfBounds.
Proof.
  unfold get_DataBlock. intros H.
  apply bind_Fault in H. destruct H as [H|(o & _ & H)];
    [eapply get_size_t_Fault, H|].
  apply bind_Fault in H. destruct H as [H|(c & _ & H)];
    [eapply get_size_t_Fault, H|].
  apply bind_Fault in H. destruct H as [H|(i & _ & H)];
    [eapply get_size_t_Fault, H | discriminate].
Qed.

Lemma read_infos_Fault (buf : list byte) (off : Z) (n : nat) (e : fault) :
  read_infos buf off n = Fault e -> e = OutOfBounds.
Proof.
  revert off. induction n as [|n IH]; intros off H; simpl in H.
  - discriminate.
  - apply bind_Fault in H. destruct H as [H|(d & _ & H)];
      [eapply get_DataBlock_Fault, H|].
    apply bind_Fault in H. destruct H as [H|(r & _ & H)];
      [eapply IH, H | discriminate].
Qed.

Lemma outfile_name_Fault (cfg : config) (fname : string) (e : fault) :
  outfile_name cfg fname = Fault e -> e = OutOfRange.
Proof.
  unfold outfile_name, substr. destruct (_ <? _); [|discriminate].
  intros H. now injection H as <-.
Qed.

Lemma decompressBlock_Fault (cdc : codec) (ptr : list byte) (off csize : Z)
      (dest : list byte) (doff cap : Z) (e : fault) :
  decompressBlock cdc ptr off csize dest doff cap = Fault e -> e = OutOfBounds.
Proof.
  unfold decompressBlock. intros H.
  apply bind_Fault in H. destruct H as [H|(src & _ & H)];
    [eapply read_Fault, H|].
  destruct (uncompress cdc src cap) as [ok out].
  apply bind_Fault in H. destruct H as [H|(b & _ & H)];
    [eapply write_at_Fault, H | discriminate].
Qed.

Lemma run_decompress_Fault (cdc : codec) (ptr : list byte)
      (infos : list DataBlock) (starts : list Z) (order : list nat)
      (s : dstate) (e : fault) :
  run_tasks (decompress_task cdc ptr infos starts) order s = Fault e ->
  e = OutOfBounds.
Proof.
  revert s. induction order as [|k rest IH]; intros s H; simpl in H.
  - discriminate H.
  - apply bind_Fault in H. destruct H as [H|(s1 & _ & H)];
      [eapply decompress_task_Fault, H | eapply IH, H].
Qed.

Section Depth.

Variable cfg : config.
Variable cdc : codec.
Variable sch : scheduler.

(** The faults of the engine are divisions by zero and accesses out of
    bounds or out of range. *)
Lemma compress_Fault (ptr : list byte) (size : Z) (fname : string) (w : world)
      (e : fault) :
  compressDataParallel cfg cdc sch ptr size fname w = Fault e ->
  e <> OutOfFuel.
Proof.
  unfold compressDataParallel. intros H.
  destruct (size <=? BIG_FILE_SIZE cfg).
  - apply bind_Fault in H. destruct H as [H|(r & _ & H)].
    + unfold compressBlock in H.
      apply bind_Fault in H. destruct H as [H|(src & _ & H)]; [|discriminate].
      apply read_Fault in H. now subst.
    + destruct r; [|discriminate].
      destruct (ofstream_open _ w) as [[w1 f]|]; discriminate.
  - apply bind_Fault in H. destruct H as [H|(nb & _ & H)].
    { unfold block_count in H.
      apply bind_Fault in H. destruct H as [H|(q & _ & H)]; [|discriminate].
      apply div_Fault in H. now subst. }
    apply bind_Fault in H. destruct H as [H|(bs & _ & H)].
    { apply div_Fault in H. now subst. }
    apply bind_Fault in H. destruct H as [H|(s & _ & H)].
    { apply run_compress_Fault in H. now subst. }
    destruct (negb (compressionSuccess s)); [discriminate|].
    destruct (ofstream_open _ w) as [[w1 f]|]; discriminate.
Qed.

Lemma decompress_Fault (ptr : list byte) (fname : string) (w : world)
      (e : fault) :
  decompressDataParallel cfg cdc sch ptr fname w = Fault e ->
  e <> OutOfFuel.
Proof.
  unfold decompressDataParallel. intros H.
  apply bind_Fault in H. destruct H as [H|(nb & _ & H)].
  { apply get_size_t_Fault in H. now subst. }
  destruct (nb =? 1).
  - apply bind_Fault in H. destruct H as [H|(d & _ & H)].
    { apply get_DataBlock_Fault in H. now subst. }
    apply bind_Fault in H. destruct H as [H|(outfile & _ & H)].
    { apply outfile_name_Fault in H. now subst. }
    destruct (allocateFile outfile _ w) as [[[w1 m] buf]|]; [|discriminate].
    apply bind_Fault in H. destruct H as [H|([ok buf'] & _ & H)].
    { apply decompressBlock_Fault in H. now subst. }
    destruct ok; discriminate.
  - apply bind_Fault in H. destruct H as [H|(infos & _ & H)].
    { apply read_infos_Fault in H. now subst. }
    apply bind_Fault in H. destruct H as [H|(outfile & _ & H)].
    { apply outfile_name_Fault in H. now subst. }
    destruct (allocateFile outfile _ w) as [[[w1 m] buf]|]; [|discriminate].
    apply bind_Fault in H. destruct H as [H|(s & _ & H)].
    { apply run_decompress_Fault in H. now subst. }
    destruct (negb (decompressionSuccess s)); discriminate.
Qed.

Lemma doParallelWork_Fault (fname : string) (size : Z) (comp : bool)
      (w : world) (e : fault) :
  doParallelWork cfg cdc sch fname size comp w = Fault e -> e <> OutOfFuel.
Proof.
  unfold doParallelWork. intros H.
  destruct (mapFile _ _ _) as [ptr|]; [|discriminate].
  destruct comp; [eapply compress_Fault | eapply decompress_Fault]; exact H.
Qed.

Lemma written_height (fname : string) (w w1 : world) (f g : ofstream) :
  ofstream_open (fname ++ SUFFIX cfg) w = Some (w1, f) ->
  (height (root (remove_origin cfg fname (ofstream_close g w1)))
   <= height (root w))%nat.
Proof.
  intros Ho. apply ofstream_open_height in Ho.
  pose proof (ofstream_close_height g w1).
  unfold remove_origin. destruct (REMOVE_ORIGIN cfg); [|lia].
  pose proof (unlink_height fname (ofstream_close g w1)). lia.
Qed.

Lemma compress_height (ptr : list byte) (size : Z) (fname : string)
      (w w' : world) (b : bool) :
  compressDataParallel cfg cdc sch ptr size fname w = Done (b, w') ->
  (height (root w') <= height (root w))%nat.
Proof.
  intros H. unfold compressDataParallel in H.
  destruct (size <=? BIG_FILE_SIZE cfg).
  - bind_inv H. destruct a as [out|]; [|injection H as _ <-; lia].
    destruct (ofstream_open _ w) as [[w1 f]|] eqn:Eo;
      [|injection H as _ <-; lia].
    injection H as _ <-. eapply written_height; eauto.
  - bind_inv H. bind_inv H. bind_inv H.
    destruct (negb (compressionSuccess a1)); [injection H as _ <-; lia|].
    destruct (ofstream_open _ w) as [[w1 f]|] eqn:Eo;
      [|injection H as _ <-; lia].
    injection H as _ <-. eapply written_height; eauto.
Qed.

Lemma flushed_height (fname outfile : string) (sz : Z) (w w1 : world)
      (m : mapping) (buf0 buf : list byte) :
  allocateFile outfile sz w = Some (w1, m, buf0) ->
  (height (root (unmapFile m buf w1)) <= height (root w))%nat /\
  (height (root (remove_origin cfg fname (unmapFile m buf w1)))
   <= height (root w))%nat.
Proof.
  intros Ha. apply allocateFile_height in Ha.
  pose proof (unmapFile_height m buf w1).
  split; [lia|].
  unfold remove_origin. destruct (REMOVE_ORIGIN cfg); [|lia].
  pose proof (unlink_height fname (unmapFile m buf w1)). lia.
Qed.

Lemma decompress_height (ptr : list byte) (fname : string)
      (w w' : world) (b : bool) :
  decompressDataParallel cfg cdc sch ptr fname w = Done (b, w') ->
  (height (root w') <= height (root w))%nat.
Proof.
  intros H. unfold decompressDataParallel in H.
  bind_inv H. destruct (a =? 1).
  - bind_inv H. bind_inv H. rename a1 into outfile.
    destruct (allocateFile outfile _ w) as [[[w1 m] buf0]|] eqn:EA;
      [|injection H as _ <-; lia].
    bind_inv H. destruct a1 as [ok buf].
    destruct (flushed_height fname _ _ _ _ _ _ buf EA) as [F1 F2].
    destruct ok; injection H as _ <-; assumption.
  - bind_inv H. bind_inv H. rename a1 into outfile.
    destruct (allocateFile outfile _ w) as [[[w1 m] buf0]|] eqn:EA;
      [|injection H as _ <-; lia].
    bind_inv H.
    destruct (flushed_height fname _ _ _ _ _ _ (decompressed_data a1) EA)
      as [F1 F2].
    destruct (negb (decompressionSuccess a1)); injection H as _ <-; assumption.
Qed.

Lemma doParallelWork_height (fname : string) (size : Z) (comp : bool)
      (w w' : world) (b : bool) :
  doParallelWork cfg cdc sch fname size comp w = Done (b, w') ->
  (height (root w') <= height (root w))%nat.
Proof.
  intros H. unfold doParallelWork in H.
  destruct (mapFile _ _ _) as [ptr|]; [|injection H as _ <-; simpl; lia].
  destruct comp.
  - apply compress_height in H. exact H.
  - apply decompress_height in H. exact H.
Qed.

Lemma dispatch_height (files : list (string * Z)) (comp : bool)
      (order : list nat) (s : bool * world) :
  run_tasks (dispatch_task cfg cdc sch files comp) order s <> Fault OutOfFuel /\
  forall s', run_tasks (dispatch_task cfg cdc sch files comp) order s = Done s' ->
    (height (root (snd s')) <= height (root (snd s)))%nat.
Proof.
  revert s. induction order as [|i rest IH]; intros s; simpl.
  - split; [discriminate|]. intros s' H. injection H as <-. lia.
  - unfold dispatch_task at 1 3.
    destruct (nth_error files i) as [[name sz]|]; cbn [bind]; [|apply IH].
    destruct (doParallelWork cfg cdc sch name sz comp (snd s))
      as [[ok w1]|e] eqn:Ew; cbn [bind].
    + destruct (IH (if ok then fst s else false, w1)) as [N M].
      split; [exact N|]. intros s' H. specialize (M s' H).
      apply doParallelWork_height in Ew. simpl in M. lia.
    + split; [|discriminate].
      intros H. injection H as ->. eapply doParallelWork_Fault; eauto.
Qed.

End Depth.

Lemma chdir_root (path : string) (w w' : world) :
  chdir path w = Some w' -> root w' = root w.
Proof.
  unfold chdir.
  destruct (lookup _ _) as [[|pm es|]|]; try discriminate.
  destruct (p_search pm); [|discriminate].
  intros H. now injection H as <-.
Qed.

Section WalkDepth.

Variable cfg : config.
Variable cdc : codec.
Variable sch : scheduler.

Let shrinks (walk : string -> bool -> world -> outcome (bool * world))
    (comp : bool) : Prop :=
  forall d w b w',
    walk d comp w = Done (b, w') -> (height (root w') <= height (root w))%nat.

Lemma loop_height (walk : string -> bool -> world -> outcome (bool * world))
      (comp : bool) (names : list string) :
  shrinks walk comp ->
  forall files w r w',
    readdir_loop cfg walk comp names files w = Done (r, w') ->
    (height (root w') <= height (root w))%nat.
Proof.
  intros Hwalk.
  induction names as [|d names IH]; intros files w r w' H.
  - injection H as _ <-. lia.
  - cbn [readdir_loop] in H.
    destruct (stat d w) as [sb|]; [|injection H as _ <-; lia].
    destruct (S_ISDIR sb).
    + destruct (negb (isdot d)); [|exact (IH files w r w' H)].
      bind_inv H. destruct a as [ok w1].
      pose proof (Hwalk d w ok w1 Ha) as H1.
      destruct ok; [|injection H as _ <-; exact H1].
      destruct (chdir ".." w1) as [w2|] eqn:Eup;
        [|injection H as _ <-; exact H1].
      apply chdir_root in Eup. specialize (IH files w2 r w' H).
      rewrite Eup in IH. lia.
    + destruct (discardIt cfg d comp); eapply IH; exact H.
Qed.

Lemma walk_height (fuel : nat) (comp : bool) :
  shrinks (walkDirParallel cfg cdc sch fuel) comp.
Proof.
  induction fuel as [|fuel IH]; intros d w b w' H.
  - discriminate H.
  - cbn [walkDirParallel] in H.
    destruct (chdir d w) as [w1|] eqn:Ec; [|injection H as _ <-; lia].
    apply chdir_root in Ec. rewrite <- Ec.
    destruct (opendir_dot w1) as [names|]; [|injection H as _ <-; lia].
    bind_inv H. destruct a as [r w2].
    pose proof (loop_height _ comp names IH [] w1 r w2 Ha) as H1.
    destruct r as [files|]; [|injection H as _ <-; lia].
    destruct (dispatch_height cfg cdc sch files comp
                (sch (List.length files)) (true, w2)) as [_ M].
    specialize (M (b, w') H). simpl in M. lia.
Qed.

Lemma loop_fuel (walk : string -> bool -> world -> outcome (bool * world))
      (comp : bool) (names : list string) (k : nat) :
  keeps_inside walk ->
  shrinks walk comp ->
  (forall d w sb,
     tidy_world w -> simple d = true ->
     stat d w = Some sb -> S_ISDIR sb = true ->
     (height (root w) <= k + List.length (cwd w))%nat ->
     walk d comp w <> Fault OutOfFuel) ->
  Forall (fun d => simple d = true \/ isdot d = true) names ->
  forall files w,
    tidy_world w ->
    (height (root w) <= k + List.length (cwd w))%nat ->
    readdir_loop cfg walk comp names files w <> Fault OutOfFuel.
Proof.
  intros Hin Hshrink Hfuel Hnames.
  induction Hnames as [|d names Hd _ IH]; intros files w Hw Hh.
  - discriminate.
  - cbn [readdir_loop].
    destruct (stat d w) as [sb|] eqn:Es; [|discriminate].
    destruct (S_ISDIR sb) eqn:Ed.
    + destruct (isdot d) eqn:Edot; cbn [negb]; [now apply IH|].
      destruct Hd as [Hd|Hd]; [|congruence].
      intros H. apply bind_Fault in H.
      destruct H as [H|([ok w1] & Ha & H)];
        [exact (Hfuel d w sb Hw Hd Es Ed Hh H)|].
      destruct ok; [|discriminate].
      destruct (chdir ".." w1) as [w2|] eqn:Eup; [|discriminate].
      destruct (Hin d comp w true w1 Hw Ha) as [Hw1 Hcd].
      destruct (chdir d w) as [wd|] eqn:Ec; [|destruct Hcd; discriminate].
      destruct (chdir_keeps_world d w wd Hw Ec) as (_ & Cd & _).
      rewrite resolve_simple in Cd by exact Hd.
      destruct Hcd as [_ Hexact].
      destruct (chdir_keeps_world ".." w1 w2 Hw1 Eup) as (Hw2 & C2 & R2 & _).
      rewrite resolve_parent, (Hexact eq_refl), Cd, removelast_last in C2.
      revert H. apply IH; [exact Hw2|].
      pose proof (Hshrink d w true w1 Ha). rewrite R2, C2. lia.
    + destruct (discardIt cfg d comp); now apply IH.
Qed.

End WalkDepth.

(** X18.  The recursion of [walkDirParallel] is never deeper than the
    tree: from a tidy world, a walk that may nest as many frames as the
    tree has directory levels from the directory it enters downwards does
    not run out of them, in either mode and whatever happens to the files
    on the way. *)
Theorem walk_recursion_fits_the_tree :
  forall cfg cdc sch fuel dname comp w,
    tidy_world w ->
    (height (root w) <= S fuel + List.length (resolve (cwd w) dname))%nat ->
    walkDirParallel cfg cdc sch (S fuel) dname comp w <> Fault OutOfFuel.
Proof.
  intros cfg cdc sch fuel dname comp. revert dname.
  induction fuel as [|f IH]; intros d w Hw Hh;
    cbn [walkDirParallel];
    (destruct (chdir d w) as [w1|] eqn:Ec; [|discriminate]);
    destruct (chdir_keeps_world d w w1 Hw Ec) as (Hw1 & C1 & R1 & _);
    (destruct (opendir_dot w1) as [names|] eqn:Eo; [|discriminate]);
    intros H; apply bind_Fault in H;
    destruct H as [H|([r w2] & Ha & H)].
  - revert H.
    apply (loop_fuel cfg _ comp names 1 (walk_keeps_inside cfg cdc sch 0)
             (walk_height cfg cdc sch 0 comp)); auto.
    + intros d' w' sb Hw' Hd' Es Ed Hh'. exfalso.
      unfold stat in Es.
      destruct (lookup (resolve (cwd w') d') (root w')) as [[|pm es|]|] eqn:El;
        try discriminate.
      * injection Es as <-. discriminate Ed.
      * apply lookup_height in El.
        rewrite resolve_simple, length_app, height_Dir in El by exact Hd'.
        simpl in El. lia.
    + apply (entry_names w1 names Hw1 Eo).
    + rewrite R1, C1. exact Hh.
  - destruct r as [files|]; [|discriminate].
    revert H. apply dispatch_height.
  - revert H.
    apply (loop_fuel cfg _ comp names (S (S f))
             (walk_keeps_inside cfg cdc sch (S f))
             (walk_height cfg cdc sch (S f) comp)); auto.
    + intros d' w' sb Hw' Hd' Es Ed Hh'. apply IH; [exact Hw'|].
      rewrite resolve_simple, length_app by exact Hd'. simpl. lia.
    + apply (entry_names w1 names Hw1 Eo).
    + rewrite R1, C1. exact Hh.
  - destruct r as [files|]; [|discriminate].
    revert H. apply dispatch_height.
Qed.

Lemma walk_recursion_fits_the_tree_example :
  walkDirParallel (Demo.settings 4 4) Demo.picky Demo.backwards 3 "/" true
    Demo.tree <> Fault OutOfFuel /\
  walkDirParallel (Demo.settings 4 4) Demo.picky Demo.backwards 2 "/" true
    Demo.tree = Fault OutOfFuel.
Proof.
  split.
  - apply (walk_recursion_fits_the_tree
             (Demo.settings 4 4) Demo.picky Demo.backwards 2 "/" true Demo.tree).
    + split; reflexivity.
    + vm_compute. lia.
  - vm_compute. reflexivity.
Defined.

(** ** Round trip through the dispatcher *)

Lemma store_over_file (p : list string) (x d : list byte) (n : node) :
  p <> [] -> lookup p n = Some (File d) -> exists n', store p x n = Some n'.
Proof.
  revert n. induction p as [|s p IH]; intros n Hp H; [contradiction|].
  destruct n as [|pm es|]; try discriminate.
  cbn [lookup] in H. destruct (find_entry s es) as [c|] eqn:E; [|discriminate].
  destruct p as [|t p].
  - simpl in H. injection H as ->. simpl. rewrite E. eauto.
  - rewrite store_deeper, E.
    destruct (IH c ltac:(discriminate) H) as [c' Hc']. rewrite Hc'. eauto.
Qed.

Lemma read_file_lookup (path : string) (w : world) (d : list byte) :
  read_file path w = Some d <->
  lookup (resolve (cwd w) path) (root w) = Some (File d).
Proof.
  unfold read_file.
  destruct (lookup _ _) as [[x| |]|]; split; intros H;
    try discriminate; now injection H as ->.
Qed.

Lemma unlink_cwd (path : string) (w : world) : cwd (unlink path w) = cwd w.
Proof. unfold unlink. now destruct (remove _ _). Qed.

Lemma unmapFile_cwd (m : mapping) (buf : list byte) (w : world) :
  cwd (unmapFile m buf w) = cwd w.
Proof. unfold unmapFile. now destruct (store _ _ _). Qed.

Lemma allocateFile_cwd (path : string) (sz : Z) (w w1 : world) (m : mapping)
      (buf : list byte) :
  allocateFile path sz w = Some (w1, m, buf) -> cwd w1 = cwd w.
Proof.
  unfold allocateFile. destruct (store _ _ _); [|discriminate].
  intros H. now injection H as <- _ _.
Qed.

(** Removing one file leaves a file at another path readable. *)
Lemma unlink_keeps_other (path q : string) (w : world) (d : list byte) :
  resolve (cwd w) q <> resolve (cwd w) path ->
  read_file q w = Some d -> read_file q (unlink path w) = Some d.
Proof.
  intros Hne H. apply read_file_lookup. apply read_file_lookup in H.
  rewrite unlink_cwd. unfold unlink.
  destruct (remove _ (root w)) as [r|] eqn:E; [|exact H].
  simpl. eapply remove_keeps_files; eauto.
Qed.

Lemma remove_origin_keeps_other (cfg : config) (path q : string) (w : world)
      (d : list byte) :
  resolve (cwd w) q <> resolve (cwd w) path ->
  read_file q w = Some d -> read_file q (remove_origin cfg path w) = Some d.
Proof.
  intros Hne H. unfold remove_origin.
  destruct (REMOVE_ORIGIN cfg); [now apply unlink_keeps_other | exact H].
Qed.

Lemma remove_origin_cwd (cfg : config) (path : string) (w : world) :
  cwd (remove_origin cfg path w) = cwd w.
Proof.
  unfold remove_origin. destruct (REMOVE_ORIGIN cfg); [apply unlink_cwd|reflexivity].
Qed.

Lemma stream_cwd (path : string) (w wo : world) (f g : ofstream) :
  ofstream_open path w = Some (wo, f) -> cwd (ofstream_close g wo) = cwd w.
Proof.
  unfold ofstream_open, ofstream_close.
  destruct (store _ [] (root w)); [|discriminate].
  intros H. injection H as <- _. now destruct (store _ _ _).
Qed.

(** Writing a file through a stream leaves a file at another path
    readable. *)
Lemma stream_keeps_other (path q : string) (w wo : world) (f g : ofstream)
      (d : list byte) :
  ofstream_open path w = Some (wo, f) -> target g = target f ->
  resolve (cwd w) q <> resolve (cwd w) path ->
  read_file q w = Some d -> read_file q (ofstream_close g wo) = Some d.
Proof.
  intros Ho Hg Hne H. apply read_file_lookup.
  rewrite (stream_cwd path w wo f g Ho).
  apply read_file_lookup in H.
  unfold ofstream_open in Ho.
  destruct (store _ [] (root w)) as [r|] eqn:E; [|discriminate].
  injection Ho as <- <-. simpl in Hg.
  unfold ofstream_close. rewrite Hg. cbn [root with_root].
  pose proof (store_keeps_files _ _ _ _ _ _ E Hne H) as H1.
  destruct (store _ (pending g) r) as [r'|] eqn:E'; [|exact H1].
  simpl. eapply store_keeps_files; eauto.
Qed.

(** X19.  Round trip through the dispatcher: [doParallelWork] in compress
    mode on a file whose split fits, followed by [doParallelWork] in
    decompress mode on the archive it made, gives the file its bytes
    back, also when the removal policy deleted the source in between,
    provided the output file can be allocated; with the policy off the
    source is still there and the allocation cannot fail. *)
Theorem roundtrip_through_dispatcher :
  forall cfg cdc limit sch sch' fname w ptr nb bs,
    codec_ok cdc limit -> respects_capacity cdc ->
    fair sch -> fair sch' ->
    SizeT.in_range (BIG_FILE_SIZE cfg) ->
    SizeT.in_range (len ptr) -> len ptr <= limit ->
    SizeT.in_range (size (fname ++ SUFFIX cfg)) ->
    read_file fname w = Some ptr ->
    split_plan cfg (len ptr) = Done (nb, bs) ->
    (nb - 1) * bs <= len ptr ->
    ofstream_open (fname ++ SUFFIX cfg) (note_dispatch fname w) <> None ->
    resolve (cwd w) (fname ++ SUFFIX cfg) <> resolve (cwd w) fname ->
    exists w1 archive,
      doParallelWork cfg cdc sch fname (len ptr) true w = Done (true, w1) /\
      read_file (fname ++ SUFFIX cfg) w1 = Some archive /\
      (forall sz w3 m buf0,
         allocateFile fname (len ptr) (note_dispatch (fname ++ SUFFIX cfg) w1)
         = Some (w3, m, buf0) ->
         exists w2,
           doParallelWork cfg cdc sch' (fname ++ SUFFIX cfg) sz false w1
           = Done (true, w2) /\
           read_file fname w2 = Some ptr) /\
      (REMOVE_ORIGIN cfg = false ->
       read_file fname w1 = Some ptr /\
       allocateFile fname (len ptr) (note_dispatch (fname ++ SUFFIX cfg) w1)
       <> None).
Proof.
  intros cfg cdc limit sch sch' fname w ptr nb bs
         Hlaws Hcap Hf Hf' HT Hs Hlim Hname Hfile Hplan Hfit Hopen Hne.
  set (A := (fname ++ SUFFIX cfg)%string) in *.
  set (w0 := note_dispatch fname w) in *.
  destruct (split_plan_facts cfg HT (len ptr) nb bs Hs Hplan) as [Hnb Hbs].
  pose proof (blocks_fit_readable ptr nb bs Hs Hnb Hbs Hfit) as Hread.
  destruct (ofstream_open A w0) as [[wo f]|] eqn:Ho; [clear Hopen|congruence].
  destruct (compress_succeeds cfg cdc limit Hlaws ptr nb bs Hs Hlim Hplan Hread
              sch fname w0 Hf (ex_intro _ _ Ho)) as [w1 Hrun].
  destruct (compress_true_shape cfg cdc sch Hf HT ptr (len ptr) fname w0 w1
              Hs Hrun)
    as (nb' & bs' & infos & payloads & Hplan' & L1 & L2 & Hall & Hw).
  rewrite Hplan in Hplan'. injection Hplan' as <- <-.
  destruct Hw as (wo' & f' & Ho' & Hw1).
  fold A in Ho'. rewrite Ho in Ho'. injection Ho' as <- <-.
  set (archive := archive_bytes infos payloads) in *.
  set (wc := ofstream_close (ofstream_write archive f) wo) in *.
  assert (Cc : cwd wc = cwd w)
    by apply (stream_cwd A w0 wo f (ofstream_write archive f) Ho).
  assert (C1 : cwd w1 = cwd w)
    by (rewrite Hw1, remove_origin_cwd; exact Cc).
  assert (Hfile0 : read_file fname w0 = Some ptr) by exact Hfile.
  assert (Hsrc : read_file fname wc = Some ptr).
  { apply (stream_keeps_other A fname w0 wo f (ofstream_write archive f) ptr Ho
             eq_refl); [|exact Hfile0].
    intros E. apply Hne. symmetry. exact E. }
  assert (Harch : read_file A w1 = Some archive).
  { rewrite Hw1. apply remove_origin_keeps_other.
    - rewrite Cc. exact Hne.
    - apply (closed_stream_on_disk A archive w0 wo f Ho). }
  exists w1, archive. split; [|split; [exact Harch|split]].
  - unfold doParallelWork. fold w0.
    change (mapFile fname (len ptr) w0) with (read_file fname w0).
    rewrite Hfile0. exact Hrun.
  - intros sz w3 m buf0 Halloc.
    destruct (archive_restores_input cfg cdc limit sch' ptr nb bs infos payloads
                fname (note_dispatch A w1) w3 m buf0
                Hlaws Hcap Hf' HT Hs Hplan Hread L1 L2 Hall Hname Halloc)
      as [Hdec Hout].
    exists (remove_origin cfg A (unmapFile m ptr w3)). split.
    + unfold doParallelWork.
      change (mapFile A sz (note_dispatch A w1)) with (read_file A w1).
      rewrite Harch. exact Hdec.
    + apply remove_origin_keeps_other; [|exact Hout].
      rewrite unmapFile_cwd, (allocateFile_cwd _ _ _ _ _ _ Halloc).
      change (cwd (note_dispatch A w1)) with (cwd w1). rewrite C1.
      intros E. apply Hne. symmetry. exact E.
  - intros Hkeep.
    assert (E1 : w1 = wc) by (rewrite Hw1; unfold remove_origin; now rewrite Hkeep).
    assert (Hsrc1 : read_file fname w1 = Some ptr) by (rewrite E1; exact Hsrc).
    split; [exact Hsrc1|].
    apply read_file_lookup in Hsrc1. pose proof Harch as Ha1.
    apply read_file_lookup in Ha1. rewrite C1 in Hsrc1, Ha1.
    unfold allocateFile.
    change (cwd (note_dispatch A w1)) with (cwd w1).
    change (root (note_dispatch A w1)) with (root w1). rewrite C1.
    destruct (store_over_file (resolve (cwd w) fname) (zeros (len ptr)) ptr
                (root w1)) as [r Hr]; [|exact Hsrc1|rewrite Hr; discriminate].
    intros Hnil. rewrite Hnil in Hsrc1. simpl in Hsrc1.
    injection Hsrc1 as Hroot. rewrite Hroot in Ha1.
    destruct (resolve (cwd w) A) as [|s p] eqn:Ep; [|discriminate Ha1].
    apply Hne. now rewrite Hnil.
Qed.

Lemma roundtrip_through_dispatcher_example :
  exists w1 archive w2,
    doParallelWork (Demo.settings 4 4) Demo.framed Demo.backwards
      "f.txt" 5 true Demo.tree = Done (true, w1) /\
    read_file "f.txt.zip" w1 = Some archive /\
    doParallelWork (Demo.settings 4 4) Demo.framed Demo.in_order
      "f.txt.zip" (len archive) false w1 = Done (true, w2) /\
    read_file "f.txt" w2 = Some (Demo.bytes "outer").
Proof.
  destruct (roundtrip_through_dispatcher
              (Demo.settings 4 4) Demo.framed (SizeT.modulus - 2)
              Demo.backwards Demo.in_order "f.txt" Demo.tree
              (Demo.bytes "outer") 2 3
              framed_ok framed_respects_capacity backwards_fair in_order_fair)
    as (w1 & archive & Hc & Ha & Hd & Hkeep).
  - vm_compute. split; [discriminate | reflexivity].
  - vm_compute. split; [discriminate | reflexivity].
  - vm_compute. discriminate.
  - vm_compute. split; [discriminate | reflexivity].
  - reflexivity.
  - reflexivity.
  - vm_compute. discriminate.
  - vm_compute. discriminate.
  - vm_compute. discriminate.
  - destruct (Hkeep eq_refl) as [_ Halloc].
    destruct (allocateFile "f.txt" (len (Demo.bytes "outer"))
                (note_dispatch ("f.txt" ++ SUFFIX (Demo.settings 4 4)) w1))
      as [[[w3 m] buf0]|] eqn:E; [|congruence].
    destruct (Hd (len archive) w3 m buf0 eq_refl) as (w2 & Hrun & Hout).
    exists w1, archive, w2.
    split; [exact Hc|]. split; [exact Ha|]. split; [exact Hrun | exact Hout].
Defined.

(** ** After a directory input *)

(** X20.  A directory input whose walk succeeds also leaves the process
    in that directory: [main] goes on to the next input there, and a later
    relative name is looked up inside the directory just walked, not next
    to it. *)
Theorem successful_walk_leaves_process_in_directory :
  forall cfg cdc sch fuel dname w w' rest ok,
    tidy_world w ->
    walkDirParallel cfg cdc sch fuel dname (COMP cfg) w = Done (true, w') ->
    cwd w' = resolve (cwd w) dname /\
    main_loop cfg cdc sch fuel (dname :: rest) ok w
    = main_loop cfg cdc sch fuel rest ok w' /\
    (simple dname = true ->
     forall name, simple name = true ->
       resolve (cwd w') name = cwd w ++ [dname; name]).
Proof.
  intros cfg cdc sch fuel dname w w' rest ok Hw Hrun.
  destruct (walk_keeps_inside cfg cdc sch fuel dname (COMP cfg) w true w'
              Hw Hrun) as [_ Hin].
  destruct (chdir dname w) as [w1|] eqn:Ec; [|destruct Hin; discriminate].
  destruct (chdir_keeps_world dname w w1 Hw Ec) as (_ & C1 & _).
  destruct Hin as [_ Hexact]. specialize (Hexact eq_refl).
  assert (Hcwd : cwd w' = resolve (cwd w) dname) by congruence.
  split; [exact Hcwd|]. split.
  - cbn [main_loop].
    assert (Hdir : isDirectory dname w = (true, 0)).
    { unfold isDirectory, stat. unfold chdir in Ec.
      destruct (lookup (resolve (cwd w) dname) (root w)) as [[|pm es|]|];
        try discriminate. reflexivity. }
    rewrite Hdir, Hrun. cbn [bind]. now rewrite andb_true_r.
  - intros Hd name Hname.
    rewrite (resolve_simple _ name Hname), Hcwd, (resolve_simple _ dname Hd).
    now rewrite <- app_assoc.
Qed.

Lemma successful_walk_leaves_process_in_directory_example :
  exists w',
    walkDirParallel (Demo.settings 4 4) Demo.framed Demo.in_order 2 "D" true
      (Demo.start (Dir Demo.rwx
         [("D"%string, Dir Demo.rwx [("f.txt"%string, File (Demo.bytes "inner"))]);
          ("f.txt"%string, File (Demo.bytes "outer"))]))
    = Done (true, w') /\
    cwd w' = ["D"%string] /\
    resolve (cwd w') "f.txt" = ["D"; "f.txt"]%string /\
    main_loop (Demo.settings 4 4) Demo.framed Demo.in_order 2
      ["D"; "f.txt"]%string true
      (Demo.start (Dir Demo.rwx
         [("D"%string, Dir Demo.rwx [("f.txt"%string, File (Demo.bytes "inner"))]);
          ("f.txt"%string, File (Demo.bytes "outer"))]))
    = main_loop (Demo.settings 4 4) Demo.framed Demo.in_order 2
        ["f.txt"%string] true w'.
Proof.
  set (w := Demo.start (Dir Demo.rwx
         [("D"%string, Dir Demo.rwx [("f.txt"%string, File (Demo.bytes "inner"))]);
          ("f.txt"%string, File (Demo.bytes "outer"))])).
  destruct (walkDirParallel (Demo.settings 4 4) Demo.framed Demo.in_order 2
              "D" true w) as [[b w']|e] eqn:E;
    [|vm_compute in E; discriminate E].
  assert (Hb : b = true).
  { vm_compute in E. injection E as <- _. reflexivity. }
  subst b.
  assert (Hw : tidy_world w) by (split; reflexivity).
  destruct (successful_walk_leaves_process_in_directory
              (Demo.settings 4 4) Demo.framed Demo.in_order 2 "D" w w'
              ["f.txt"%string] true Hw E) as (Hcwd & Hmain & Hres).
  exists w'. split; [reflexivity|]. split; [exact Hcwd|].
  split; [apply (Hres eq_refl "f.txt"%string eq_refl) | exact Hmain].
Defined.
